(** * UMLS inconsistency checker: a shallow embedding of
    [umls_inconsistency_checker.py] and the properties of its edge
    classifier, its cycle detector and its dominance-violation detector. *)

From Stdlib Require Import Ascii.
From stdpp Require Import gmap strings list fin_maps fin_sets sorting relations.

(* stdpp's solvers clear hypotheses that are sometimes already gone. *)
Set Warnings "-clear-no-such-hyp".

Open Scope string_scope.
Open Scope list_scope.
Open Scope nat_scope.

(** ** Python values used by the program *)

(** A Python [str] is modelled as a [string] whose characters are code points
    below 256 (UMLS identifiers and relation codes are ASCII). *)

(** The exceptions the modelled statements can raise. [RecursionError] is
    raised by the interpreter, when a call would exceed the depth it allows;
    [IsADirectoryError], [PermissionError] and [UnicodeDecodeError] are raised
    by [open] and by the decoder of the text layer. *)
Inductive exn :=
  | FileNotFoundError
  | IsADirectoryError
  | PermissionError
  | UnicodeDecodeError
  | RecursionError
  | IndexError
  | ValueError
  | KeyError
  | NetworkXError
  | NodeNotFound
  | NetworkXNoPath.

(** The outcome of running a piece of code: a value, or an exception. *)
Inductive result (A : Type) :=
  | Ok (a : A)
  | Raise (e : exn).
Arguments Ok {A} a.
Arguments Raise {A} e.

(** Sequencing: the first exception ends the run. *)
#[global] Instance result_bind : MBind result := λ A B k m,
  match m with
  | Ok a => k a
  | Raise e => Raise e
  end.

(** [for x in xs: body], the loop body threading the state. *)
Fixpoint for_each {A S} (body : A → S → result S) (xs : list A) (st : S)
  : result S :=
  match xs with
  | [] => Ok st
  | x :: xs' => st' ← body x st ; for_each body xs' st'
  end.

Module Str.

(** [str.isspace] on one character, for the code points below 256. *)
Definition isspace (c : ascii) : bool :=
  let n := nat_of_ascii c in
  (((9 <=? n) && (n <=? 13)) || ((28 <=? n) && (n <=? 32))
   || (n =? 133) || (n =? 160))%nat.

Fixpoint lstrip (s : string) : string :=
  match s with
  | EmptyString => EmptyString
  | String c s' => if isspace c then lstrip s' else s
  end.

Fixpoint rstrip (s : string) : string :=
  match s with
  | EmptyString => EmptyString
  | String c s' =>
      match rstrip s' with
      | EmptyString => if isspace c then EmptyString else String c EmptyString
      | r => String c r
      end
  end.

(** [s.strip()] *)
Definition strip (s : string) : string := rstrip (lstrip s).

(** [s.split(sep)] for a separator of one character. *)
Fixpoint split (sep : ascii) (s : string) : list string :=
  match s with
  | EmptyString => [EmptyString]
  | String c s' =>
      if decide (c = sep) then EmptyString :: split sep s'
      else match split sep s' with
           | [] => [String c EmptyString]
           | f :: fs => String c f :: fs
           end
  end.

(** [parts[i]] *)
Definition index (parts : list string) (i : nat) : result string :=
  match parts !! i with
  | Some x => Ok x
  | None => Raise IndexError
  end.

End Str.

(** ** The edge classifier, [parse_mrrel] *)

Abbreviation edge := (string * string)%type.

(** The five containers [parse_mrrel] fills and returns. *)
Record parse_state := {
  parent_child_edges : gset edge;
  broader_than_edges : gset edge;
  duplicate_edges : gmap edge nat;
  self_loops : gset (string * string);
  relationship_types : gset string;
}.

Definition parse_init : parse_state := {|
  parent_child_edges := ∅;
  broader_than_edges := ∅;
  duplicate_edges := ∅;
  self_loops := ∅;
  relationship_types := ∅;
|}.

(** [Counter] lookup: a missing key counts 0. *)
Definition count (c : gmap edge nat) (e : edge) : nat := default 0 (c !! e).

(** [duplicate_edges[edge] += 1] *)
Definition counter_incr (c : gmap edge nat) (e : edge) : gmap edge nat :=
  <[e := count c e + 1]> c.

Definition add_parent_child (st : parse_state) (e : edge) : parse_state := {|
  parent_child_edges := {[e]} ∪ parent_child_edges st;
  broader_than_edges := broader_than_edges st;
  duplicate_edges := counter_incr (duplicate_edges st) e;
  self_loops := self_loops st;
  relationship_types := relationship_types st;
|}.

Definition add_broader_than (st : parse_state) (e : edge) : parse_state := {|
  parent_child_edges := parent_child_edges st;
  broader_than_edges := {[e]} ∪ broader_than_edges st;
  duplicate_edges := counter_incr (duplicate_edges st) e;
  self_loops := self_loops st;
  relationship_types := relationship_types st;
|}.

Definition add_relationship_type (st : parse_state) (r : string) : parse_state := {|
  parent_child_edges := parent_child_edges st;
  broader_than_edges := broader_than_edges st;
  duplicate_edges := duplicate_edges st;
  self_loops := self_loops st;
  relationship_types := {[r]} ∪ relationship_types st;
|}.

Definition add_self_loop (st : parse_state) (l : string * string) : parse_state := {|
  parent_child_edges := parent_child_edges st;
  broader_than_edges := broader_than_edges st;
  duplicate_edges := duplicate_edges st;
  self_loops := {[l]} ∪ self_loops st;
  relationship_types := relationship_types st;
|}.

(** Lines 50-71: what the loop body does with the three stripped fields. *)
Definition classify (st : parse_state) (source relation target : string)
  : parse_state :=
  let st := add_relationship_type st relation in
  if decide (source = target) then add_self_loop st (source, relation)
  else
    let edge := (source, target) in
    if decide (relation = "CHD") then add_parent_child st (target, source)
    else if decide (relation = "PAR") then add_parent_child st edge
    else if decide (relation = "RB") then add_broader_than st edge
    else if decide (relation = "RN") then add_broader_than st (target, source)
    else st.

(** Lines 42-71: the body of the loop over the lines of the file. *)
Definition parse_line (line : string) (st : parse_state) : result parse_state :=
  let parts := Str.split "|" (Str.strip line) in
  if (length parts <? 5)%nat then Ok st
  else
    source ← Str.index parts 0 ;
    relation ← Str.index parts 3 ;
    target ← Str.index parts 4 ;
    Ok (classify st (Str.strip source) (Str.strip relation) (Str.strip target)).

(** The input resource as the program meets it. [Missing]: the path does not
    exist (line 35). [Unreadable e]: the path exists but [open] or the
    decoder refuses it with [e], a directory with [IsADirectoryError], a file
    without read permission with [PermissionError], bytes that are not UTF-8
    with [UnicodeDecodeError]; the pass of line 38 opens the resource and reads
    all of it to count the lines, so the exception is raised there, before
    any line is parsed. [Readable lines]: the resource opens and decodes to
    the finite sequence [lines]. *)
Inductive resource :=
  | Missing
  | Unreadable (e : exn)
  | Readable (lines : list string).

(** Lines 27-73. Nothing in the function catches an exception. *)
Definition parse_mrrel (file : resource) : result parse_state :=
  match file with
  | Missing => Raise FileNotFoundError
  | Unreadable e => Raise e
  | Readable lines => for_each parse_line lines parse_init
  end.


(** ** The cycle detector, [detect_cycles] *)

(** A [defaultdict(list)] from a node to the list of its successors, the keys
    in insertion order. *)
Abbreviation adjacency := (list (string * list string)).

Fixpoint dict_get {V} (d : list (string * V)) (k : string) : option V :=
  match d with
  | [] => None
  | (k', v) :: d' => if decide (k' = k) then Some v else dict_get d' k
  end.

(** [list(d)]: the keys of a dictionary. *)
Definition dict_keys {V} (d : list (string * V)) : list string := d.*1.

(** The successors a lookup [graph[node]] yields. *)
Definition graph_succ (graph : adjacency) (node : string) : list string :=
  default [] (dict_get graph node).

(** [graph[s].append(t)] on a [defaultdict(list)]. *)
Fixpoint graph_append (graph : adjacency) (s t : string) : adjacency :=
  match graph with
  | [] => [(s, [t])]
  | (k, v) :: graph' =>
      if decide (k = s) then (k, v ++ [t]) :: graph'
      else (k, v) :: graph_append graph' s t
  end.

(** Lines 192-194 of [main]: the adjacency mapping of a sequence of edges. *)
Definition build_graph (edges : list edge) : adjacency :=
  foldl (λ graph e, graph_append graph e.1 e.2) [] edges.

(** [path.index(node)] *)
Fixpoint list_index (l : list string) (x : string) : result nat :=
  match l with
  | [] => Raise ValueError
  | y :: l' => if decide (y = x) then Ok 0 else i ← list_index l' x; Ok (S i)
  end.

Definition str_le (a b : string) : Prop := String.leb a b.

(** [sorted(cycle)] *)
Definition sorted (l : list string) : list string := merge_sort str_le l.

(** The objects the closure [dfs] works on: the graph, the four containers of
    [detect_cycles], and the list [path] that every recursive call receives
    and mutates. *)
Record dfs_state := {
  graph : adjacency;
  visited : gset string;
  rec_stack : gset string;
  all_cycles : list (list string);
  unique_cycles : gset (list string);
  path : list string;
}.

(** Lines 88-90: a cycle whose sorted tuple is new is recorded. *)
Definition record_cycle (st : dfs_state) (cycle : list string) : dfs_state :=
  let normalized := sorted cycle in
  if decide (normalized ∈ unique_cycles st) then st
  else {|
    graph := graph st;
    visited := visited st;
    rec_stack := rec_stack st;
    all_cycles := all_cycles st ++ [cycle];
    unique_cycles := {[normalized]} ∪ unique_cycles st;
    path := path st;
  |}.

(** Lines 96-98: [visited.add(node); rec_stack.add(node); path.append(node)]. *)
Definition enter (st : dfs_state) (node : string) : dfs_state := {|
  graph := graph st;
  visited := {[node]} ∪ visited st;
  rec_stack := {[node]} ∪ rec_stack st;
  all_cycles := all_cycles st;
  unique_cycles := unique_cycles st;
  path := path st ++ [node];
|}.

(** [graph[node]] on the [defaultdict]: a missing key is inserted with an
    empty list. *)
Definition graph_getitem (st : dfs_state) (node : string)
  : list string * dfs_state :=
  match dict_get (graph st) node with
  | Some succs => (succs, st)
  | None =>
      ([], {|
        graph := graph st ++ [(node, [])];
        visited := visited st;
        rec_stack := rec_stack st;
        all_cycles := all_cycles st;
        unique_cycles := unique_cycles st;
        path := path st;
      |})
  end.

(** [path.pop()] *)
Definition path_pop (st : dfs_state) : result dfs_state :=
  match path st with
  | [] => Raise IndexError
  | _ => Ok {|
      graph := graph st;
      visited := visited st;
      rec_stack := rec_stack st;
      all_cycles := all_cycles st;
      unique_cycles := unique_cycles st;
      path := removelast (path st);
    |}
  end.

(** [rec_stack.remove(node)] *)
Definition rec_stack_remove (node : string) (st : dfs_state) : result dfs_state :=
  if decide (node ∈ rec_stack st) then Ok {|
    graph := graph st;
    visited := visited st;
    rec_stack := rec_stack st ∖ {[node]};
    all_cycles := all_cycles st;
    unique_cycles := unique_cycles st;
    path := path st;
  |}
  else Raise KeyError.

(** Lines 83-104. [dfs] calls itself once for every node of the path it
    follows, and the interpreter allows only so many nested calls: the first
    argument is the number of nested calls of [dfs] it still allows, and a
    call beyond it raises [RecursionError] before the body runs. The calls of
    the built-in functions in the body are taken to need no frame. *)
Fixpoint dfs (depth : nat) (node : string) (st : dfs_state) : result dfs_state :=
  match depth with
  | 0 => Raise RecursionError
  | S depth =>
      if decide (node ∈ rec_stack st) then
        cycle_start ← list_index (path st) node;
        let cycle := drop cycle_start (path st) in
        Ok (record_cycle st cycle)
      else if decide (node ∈ visited st) then Ok st
      else
        let st := enter st node in
        let '(neighbors, st) := graph_getitem st node in
        st ← for_each (dfs depth) neighbors st;
        st ← path_pop st;
        rec_stack_remove node st
  end.

(** [dfs(node, [])]: the call of line 108 passes a new empty list. *)
Definition with_new_path (st : dfs_state) : dfs_state := {|
  graph := graph st;
  visited := visited st;
  rec_stack := rec_stack st;
  all_cycles := all_cycles st;
  unique_cycles := unique_cycles st;
  path := [];
|}.

Definition dfs_init (graph : adjacency) : dfs_state := {|
  graph := graph;
  visited := ∅;
  rec_stack := ∅;
  all_cycles := [];
  unique_cycles := ∅;
  path := [];
|}.

(** Lines 106-108: the loop over the keys the graph had on entry. *)
Definition detect_cycles_run (limit : nat) (graph : adjacency) : result dfs_state :=
  for_each
    (λ node st,
       if decide (node ∈ visited st) then Ok st
       else dfs limit node (with_new_path st))
    (dict_keys graph) (dfs_init graph).

(** Every node of the graph: its keys and their successors. *)
Definition graph_nodes (graph : adjacency) : gset string :=
  list_to_set (dict_keys graph) ∪ list_to_set (concat graph.*2).

(** [detect_cycles(graph)], lines 77-110. [limit] is the number of nested
    calls of [dfs] the interpreter allows when [detect_cycles] runs: its
    recursion limit ([sys.getrecursionlimit()], 1000 unless it is changed,
    and the program never changes it) less the frames in use. Nothing catches
    the [RecursionError] of a call beyond it. *)
Definition detect_cycles (limit : nat) (graph : adjacency)
  : result (list (list string)) :=
  st ← detect_cycles_run limit graph;
  Ok (all_cycles st).

(** ** The directed graphs of networkx *)

Module nx.

(** Modelled from the spec: [networkx] is a library the program imports and no
    file of the sources; what the program uses of it is modelled here from
    section 4.3 and the documentation of the library. A [DiGraph] keeps its
    nodes in insertion order and, for every node, its successors. *)
Record DiGraph := {
  nodes : list string;
  adj : gmap string (list string);
}.

Definition empty : DiGraph := {| nodes := []; adj := ∅ |}.

Definition successors (G : DiGraph) (v : string) : list string :=
  default [] (adj G !! v).

Definition add_node (G : DiGraph) (n : string) : DiGraph :=
  if decide (n ∈ nodes G) then G
  else {| nodes := nodes G ++ [n]; adj := <[n := []]> (adj G) |}.

Definition add_edge (G : DiGraph) (u v : string) : DiGraph :=
  let G := add_node (add_node G u) v in
  let succs := successors G u in
  {| nodes := nodes G;
     adj := <[u := if decide (v ∈ succs) then succs else succs ++ [v]]> (adj G) |}.

(** [G.add_edges_from(ebunch)] *)
Definition add_edges_from (G : DiGraph) (ebunch : list edge) : DiGraph :=
  foldl (λ G e, add_edge G e.1 e.2) G ebunch.

(** One round of a breadth-first search: the nodes seen and their successors. *)
Definition expand (G : DiGraph) (seen : gset string) : gset string :=
  seen ∪ ⋃ ((λ v, list_to_set (successors G v)) <$> elements seen).

Fixpoint closure (G : DiGraph) (rounds : nat) (seen : gset string) : gset string :=
  match rounds with
  | 0 => seen
  | S rounds => closure G rounds (expand G seen)
  end.

(** Modelled from the spec: [nx.descendants(G, source)], "every node reachable
    via one or more directed hops", the source itself left out (the library
    never returns it, and section 4.3 pairs distinct nodes). *)
Definition descendants (G : DiGraph) (source : string) : result (gset string) :=
  if decide (source ∈ nodes G)
  then Ok (closure G (length (nodes G)) {[source]} ∖ {[source]})
  else Raise NetworkXError.

(** The rounds of a breadth-first search from the nodes [seen] until [target]
    is reached; the result lists the sets seen before each round, the latest
    first. *)
Fixpoint search (G : DiGraph) (target : string) (rounds : nat)
    (seen : gset string) (earlier : list (gset string))
  : option (list (gset string)) :=
  if decide (target ∈ seen) then Some earlier
  else match rounds with
       | 0 => None
       | S rounds => search G target rounds (expand G seen) (seen :: earlier)
       end.

(** From a node back to the source, one round at a time. *)
Fixpoint walk_back (G : DiGraph) (earlier : list (gset string))
    (node : string) (suffix : list string) : list string :=
  match earlier with
  | [] => node :: suffix
  | seen :: earlier' =>
      match find (λ u, bool_decide (node ∈ successors G u)) (elements seen) with
      | Some u => walk_back G earlier' u (node :: suffix)
      | None => node :: suffix
      end
  end.

(** Modelled from the spec: [nx.shortest_path(G, source, target)], "the
    shortest directed path" from [source] to [target] as the list of its
    nodes; the library raises when a node is not in the graph or when there is
    no path. *)
Definition shortest_path (G : DiGraph) (source target : string)
  : result (list string) :=
  if decide (source ∈ nodes G ∧ target ∈ nodes G) then
    match search G target (length (nodes G)) {[source]} [] with
    | Some earlier => Ok (walk_back G earlier target [])
    | None => Raise NetworkXNoPath
    end
  else Raise NodeNotFound.

End nx.

(** ** The dominance-violation detector, [detect_broader_violations] *)

(** A violation, the dictionary with the keys "source", "target", "cycle". *)
Record violation := {
  source : string;
  target : string;
  cycle : list string;
}.

(** [d[k]] on a [dict] *)
Definition dict_getitem {V} (d : gmap string V) (k : string) : result V :=
  match d !! k with
  | Some v => Ok v
  | None => Raise KeyError
  end.

(** Lines 120-127: the body of the inner loop. *)
Definition check_pair (G : nx.DiGraph) (descendants : gmap string (gset string))
    (src dst : string) (violations : list violation) : result (list violation) :=
  if decide (src ∈ default ∅ (descendants !! dst)) then
    path_fwd ← nx.shortest_path G src dst;
    path_back ← nx.shortest_path G dst src;
    Ok (violations ++
        [{| source := src; target := dst; cycle := path_fwd ++ drop 1 path_back |}])
  else Ok violations.

(** Lines 114-129. A Python set is iterated in an order the language leaves
    open; the model takes the order of [elements]. *)
Definition detect_broader_violations (G : nx.DiGraph) : result (list violation) :=
  descendants ←
    for_each (λ node d, ds ← nx.descendants G node; Ok (<[node := ds]> d))
      (nx.nodes G) (∅ : gmap string (gset string));
  for_each
    (λ src violations,
       dsts ← dict_getitem descendants src;
       for_each (check_pair G descendants src) (elements dsts) violations)
    (nx.nodes G) [].

(** ** The statistics of [main] *)

(** The value of [--type]. *)
Inductive analysis_type := parent_child | broader_than | both.

(** A value of the statistics: a count, or a time in hundredths of a second
    (the clock is read outside the model, rounded to two places). *)
Inductive stat_value :=
  | Count (n : nat)
  | Seconds (hundredths : Z).

(** The three durations [main] measures. *)
Record timings := {
  pc_time : Z;
  bt_time : Z;
  total_time : Z;
}.

(** [d[k] = v] on a [dict] that keeps its keys in insertion order. *)
Fixpoint dict_set {V} (d : list (string * V)) (k : string) (v : V)
  : list (string * V) :=
  match d with
  | [] => [(k, v)]
  | (k', v') :: d' =>
      if decide (k' = k) then (k, v) :: d' else (k', v') :: dict_set d' k v
  end.

(** Lines 182-188. *)
Definition initial_stats (st : parse_state) : list (string * stat_value) :=
  [ ("Total Parent-Child Relationships", Count (size (parent_child_edges st)));
    ("Total Broader-Than Relationships", Count (size (broader_than_edges st)));
    ("Total Unique Relationship Types", Count (size (relationship_types st)));
    ("Total Self-Loops", Count (size (self_loops st)));
    ("Total Duplicates",
     Count (length (filter (λ c, 1 < c) (map_to_list (duplicate_edges st)).*2))) ].

(** The five values [main] hands to [save_results]. *)
Record report := {
  report_cycles : list (list string);
  report_violations : list violation;
  report_duplicates : gmap edge nat;
  report_self_loops : gset (string * string);
  report_stats : list (string * stat_value);
}.

(** Lines 190-201. *)
Definition analyze_parent_child (type : analysis_type) (clock : timings)
    (limit : nat) (pc_edges : gset edge) (stats : list (string * stat_value))
  : result (list (list string) * list (string * stat_value)) :=
  match type with
  | parent_child | both =>
      let pc_graph := build_graph (elements pc_edges) in
      cycles ← detect_cycles limit pc_graph;
      let stats := dict_set stats "Parent-Child Cycle Count" (Count (length cycles)) in
      let stats := dict_set stats "Parent-Child Detection Time (s)" (Seconds (pc_time clock)) in
      Ok (cycles, stats)
  | broader_than => Ok ([], stats)
  end.

(** Lines 203-213. *)
Definition analyze_broader_than (type : analysis_type) (clock : timings)
    (bt_edges : gset edge) (stats : list (string * stat_value))
  : result (list violation * list (string * stat_value)) :=
  match type with
  | broader_than | both =>
      let bt_graph := nx.add_edges_from nx.empty (elements bt_edges) in
      violations ← detect_broader_violations bt_graph;
      let stats := dict_set stats "Broader-Than Violation Count" (Count (length violations)) in
      let stats := dict_set stats "Broader-Than Detection Time (s)" (Seconds (bt_time clock)) in
      Ok (violations, stats)
  | parent_child => Ok ([], stats)
  end.

(** Lines 180-216 of [main]: from the input and the requested analysis to the
    arguments of [save_results]. [limit] is the depth the interpreter allows
    the traversal of [detect_cycles]. *)
Definition main (input : resource) (type : analysis_type) (clock : timings)
    (limit : nat) : result report :=
  st ← parse_mrrel input;
  let stats := initial_stats st in
  '(cycles, stats) ←
    analyze_parent_child type clock limit (parent_child_edges st) stats;
  '(violations, stats) ← analyze_broader_than type clock (broader_than_edges st) stats;
  let stats := dict_set stats "Total Runtime (s)" (Seconds (total_time clock)) in
  Ok {|
    report_cycles := cycles;
    report_violations := violations;
    report_duplicates := duplicate_edges st;
    report_self_loops := self_loops st;
    report_stats := stats;
  |}.

(** ** The report writer, [save_results] *)

(** A value handed to [writer.writerow]: a string, an integer, or a time. *)
Inductive cell :=
  | Text (s : string)
  | Number (n : nat)
  | Duration (hundredths : Z).

Definition stat_cell (v : stat_value) : cell :=
  match v with
  | Count n => Number n
  | Seconds h => Duration h
  end.

(** [sep.join(parts)] *)
Fixpoint join (sep : string) (parts : list string) : string :=
  match parts with
  | [] => EmptyString
  | [x] => x
  | x :: parts' => x +:+ sep +:+ join sep parts'
  end.

(** A file opened for writing, with the rows written to it. *)
Record csv_file := {
  file_name : string;
  file_rows : list (list cell);
}.

(** Lines 137-142. *)
Definition cycles_file (output_dir timestamp : string) (cycles : list (list string))
  : csv_file := {|
  file_name := output_dir +:+ "/parent_child_cycles_" +:+ timestamp +:+ ".csv";
  file_rows :=
    [Text "Cycle_ID"; Text "Cycle"]
    :: imap (λ i c, [Number (S i); Text (join " -> " c)]) cycles;
|}.

(** Lines 144-149. *)
Definition violations_file (output_dir timestamp : string)
    (violations : list violation) : csv_file := {|
  file_name := output_dir +:+ "/broader_than_violations_" +:+ timestamp +:+ ".csv";
  file_rows :=
    [Text "Violation_ID"; Text "Source"; Text "Target"; Text "Cycle"]
    :: imap (λ i v, [Number (S i); Text (source v); Text (target v);
                     Text (join " -> " (cycle v))]) violations;
|}.

(** Lines 151-156: only the edges counted more than once get a row. The
    code writes the rows in the order in which the [Counter] first met the
    edges; the [gmap] of the model does not keep that order, so the rows come
    here in the order of [map_to_list], and what is stated of them is stated
    of the rows as a set. *)
Definition duplicates_file (output_dir timestamp : string)
    (duplicates : gmap edge nat) : csv_file := {|
  file_name := output_dir +:+ "/duplicates_" +:+ timestamp +:+ ".csv";
  file_rows :=
    [Text "Source"; Text "Target"; Text "Count"]
    :: ((λ kv : edge * nat, [Text kv.1.1; Text kv.1.2; Number kv.2])
          <$> filter (λ kv : edge * nat, 1 < kv.2) (map_to_list duplicates));
|}.

(** Lines 158-162. *)
Definition self_loops_file (output_dir timestamp : string)
    (loops : gset (string * string)) : csv_file := {|
  file_name := output_dir +:+ "/self_loops_" +:+ timestamp +:+ ".csv";
  file_rows :=
    [Text "CUI"; Text "Relation"]
    :: ((λ l : string * string, [Text l.1; Text l.2]) <$> elements loops);
|}.

(** Lines 164-168. *)
Definition statistics_file (output_dir timestamp : string)
    (stats : list (string * stat_value)) : csv_file := {|
  file_name := output_dir +:+ "/analysis_statistics_" +:+ timestamp +:+ ".csv";
  file_rows :=
    [Text "Metric"; Text "Value"]
    :: ((λ kv : string * stat_value, [Text kv.1; stat_cell kv.2]) <$> stats);
|}.

(** Lines 133-168: the files [save_results] writes, in order. The time stamp
    is read from the clock outside the model; the rows are the lists handed
    to the writer, and the order of a dictionary or a set is the order of
    [map_to_list] and [elements]. *)
Definition save_results (cycles : list (list string)) (violations : list violation)
    (duplicates : gmap edge nat) (loops : gset (string * string))
    (stats : list (string * stat_value)) (output_dir timestamp : string)
  : list csv_file :=
  (match cycles with [] => [] | _ => [cycles_file output_dir timestamp cycles] end)
  ++ (match violations with
      | [] => []
      | _ => [violations_file output_dir timestamp violations]
      end)
  ++ [duplicates_file output_dir timestamp duplicates;
      self_loops_file output_dir timestamp loops;
      statistics_file output_dir timestamp stats].

(** Lines 172-217: [main] with the call of [save_results] (line 216), which
    leaves the output directory at its default. *)
Definition main_files (input : resource) (type : analysis_type) (clock : timings)
    (limit : nat) (timestamp : string) : result (list csv_file) :=
  r ← main input type clock limit;
  Ok (save_results (report_cycles r) (report_violations r) (report_duplicates r)
        (report_self_loops r) (report_stats r) "./res" timestamp).

(** ** Vocabulary of the statements *)

(** The relation record the loop body of [parse_mrrel] reads from a line:
    nothing for a line of fewer than five fields, else the stripped fields
    0, 3 and 4. *)
Definition record_of_line (line : string) : option (string * string * string) :=
  let parts := Str.split "|" (Str.strip line) in
  if (length parts <? 5)%nat then None
  else
    s ← parts !! 0; r ← parts !! 3; t ← parts !! 4;
    Some (Str.strip s, Str.strip r, Str.strip t).

(** One step of the classifier on a line. *)
Definition step (st : parse_state) (line : string) : parse_state :=
  match record_of_line line with
  | Some (s, r, t) => classify st s r t
  | None => st
  end.

(** The classification table of section 4.1: the canonical edge a record
    asserts, if any. *)
Definition canonical_edge (s r t : string) : option edge :=
  if decide (s = t) then None
  else if decide (r = "CHD") then Some (t, s)
  else if decide (r = "PAR") then Some (s, t)
  else if decide (r = "RB") then Some (s, t)
  else if decide (r = "RN") then Some (t, s)
  else None.

(** The canonical edge the record of a line asserts. *)
Definition asserted_edge (line : string) : option edge :=
  match record_of_line line with
  | Some (s, r, t) => canonical_edge s r t
  | None => None
  end.

(** How many of the lines assert the edge [e], from either side. *)
Definition assertions (e : edge) (lines : list string) : nat :=
  length (filter (λ l, asserted_edge l = Some e) lines).

(** A line that yields at least five fields. *)
Definition well_formed (line : string) : Prop :=
  5 ≤ length (Str.split "|" (Str.strip line)).

(** The part of the classifier's state that describes edges. *)
Definition edge_part (st : parse_state)
  : gset edge * gset edge * gmap edge nat :=
  (parent_child_edges st, broader_than_edges st, duplicate_edges st).

(** No edge from a node to itself enters an edge set. *)
Definition irreflexive_edges (st : parse_state) : Prop :=
  ∀ x, ((x, x) ∉ parent_child_edges st) ∧ ((x, x) ∉ broader_than_edges st).

#[global] Instance well_formed_dec line : Decision (well_formed line).
Proof. unfold well_formed. apply _. Defined.

(** [f] applied to the first element of a list, and to the last. *)
Definition map_head {A} (f : A → A) (l : list A) : list A :=
  match l with
  | [] => []
  | x :: l' => f x :: l'
  end.

Fixpoint map_last {A} (f : A → A) (l : list A) : list A :=
  match l with
  | [] => []
  | [x] => [f x]
  | x :: l' => x :: map_last f l'
  end.

(** Two fields that differ by surrounding whitespace only. *)
Definition same_stripped (x y : string) : Prop := Str.strip x = Str.strip y.

(** The edges of an adjacency mapping, and what they connect. *)
Definition edge_of (g : adjacency) (u v : string) : Prop := v ∈ graph_succ g u.

(** [v] lies on a directed cycle. *)
Definition on_cycle (g : adjacency) (v : string) : Prop := tc (edge_of g) v v.

(** [u] and [v] are in one strongly connected component. *)
Definition mutually_reachable (g : adjacency) (u v : string) : Prop :=
  rtc (edge_of g) u v ∧ rtc (edge_of g) v u.

(** A cycle among those reported lies in the component of [v]. *)
Definition reported (g : adjacency) (cycles : list (list string)) (v : string) : Prop :=
  ∃ c, c ∈ cycles ∧ c ≠ [] ∧ ∀ z, z ∈ c → mutually_reachable g v z.

(** Along a path of the traversal every node reaches the later ones. *)
Definition path_linked (g : adjacency) (p : list string) : Prop :=
  ∀ i j a b, i ≤ j → p !! i = Some a → p !! j = Some b → rtc (edge_of g) a b.

(** Along a path of the traversal every node has an edge to the next. *)
Definition path_chain (g : adjacency) (p : list string) : Prop :=
  ∀ i a b, p !! i = Some a → p !! S i = Some b → edge_of g a b.

(** [c] lists the nodes of a directed cycle: a chain whose last node has an
    edge to the first. *)
Definition directed_cycle (g : adjacency) (c : list string) : Prop :=
  c ≠ [] ∧ path_chain g c ∧
  ∀ a b, last c = Some a → head c = Some b → edge_of g a b.

(** The call [dfs(node, path)] follows an edge from the end of the path. *)
Definition follows (g : adjacency) (p : list string) (node : string) : Prop :=
  ∀ a, last p = Some a → edge_of g a node.

(** What holds of the state of the traversal of [g] between two steps. *)
Record dfs_inv (g : adjacency) (st : dfs_state) : Prop := {
  inv_succ : ∀ v, graph_succ (graph st) v = graph_succ g v;
  inv_stack : ∀ x, x ∈ rec_stack st ↔ x ∈ path st;
  inv_nodup : NoDup (path st);
  inv_path_visited : ∀ x, x ∈ path st → x ∈ visited st;
  inv_chain : path_chain g (path st);
  inv_nodes : visited st ⊆ graph_nodes g;
  inv_done : ∀ y, y ∈ visited st → y ∉ path st → on_cycle g y →
                  reported g (all_cycles st) y;
  inv_unique : ∀ n, n ∈ unique_cycles st → ∃ c, c ∈ all_cycles st ∧ sorted c = n;
  inv_cycles : ∀ c, c ∈ all_cycles st → directed_cycle g c;
}.

(** What a call [dfs(node, path)] from the state [st] leaves in [st']. *)
Record dfs_post (g : adjacency) (st : dfs_state) (node : string) (st' : dfs_state)
  : Prop := {
  post_inv : dfs_inv g st';
  post_path : path st' = path st;
  post_visited : visited st ⊆ visited st';
  post_node : node ∈ visited st';
  post_cycles : ∀ c, c ∈ all_cycles st → c ∈ all_cycles st';
  post_back_edge : node ∈ path st → reported g (all_cycles st') node;
}.

(** The nodes the traversal has not visited yet. *)
Definition unvisited (g : adjacency) (st : dfs_state) : nat :=
  size (graph_nodes g ∖ visited st).

(** The contract of a call of [dfs] that may nest [depth] calls. *)
Definition dfs_spec (g : adjacency) (depth : nat) : Prop :=
  ∀ node st,
    dfs_inv g st → follows g (path st) node → node ∈ graph_nodes g →
    unvisited g st < depth →
    ∃ st', dfs depth node st = Ok st' ∧ dfs_post g st node st'.

(** The detector under a limit that no traversal of the graph reaches: a path
    of the traversal repeats no node, and one more call meets its end. *)
Definition detect_cycles_deep (g : adjacency) : result (list (list string)) :=
  detect_cycles (S (size (graph_nodes g))) g.

(** A name for each number: "C", "xC", "xxC", and so on. *)
Fixpoint node_name (i : nat) : string :=
  match i with
  | 0 => "C"
  | S i => String "x" (node_name i)
  end.

(** The ring of [n] nodes: every node has an edge to the next, the last to
    the first. *)
Definition ring (n : nat) : adjacency :=
  (λ i, (node_name i, [node_name (S i mod n)])) <$> seq 0 n.



(** The edges of a [DiGraph]. *)
Definition nx_edge (G : nx.DiGraph) (u v : string) : Prop := v ∈ nx.successors G u.

(** What [add_edges_from] keeps true of a graph: no node is listed twice, the
    listed nodes are the ones with an adjacency entry, and every successor is
    a node. *)
Record nx_wf (G : nx.DiGraph) : Prop := {
  wf_nodup : NoDup (nx.nodes G);
  wf_adj : ∀ v, v ∈ nx.nodes G ↔ is_Some (nx.adj G !! v);
  wf_succ : ∀ u v, nx_edge G u v → v ∈ nx.nodes G;
}.

(** [p] lists the nodes of a directed path from [s] to [t]. *)
Inductive path_from_to (E : relation string) (s : string)
  : string → list string → Prop :=
  | path_start : path_from_to E s s [s]
  | path_step u t p : path_from_to E s u p → E u t → path_from_to E s t (p ++ [t]).

(** [p] is a directed path from [s] to [t], and no such path is shorter. *)
Definition shortest (E : relation string) (s t : string) (p : list string) : Prop :=
  path_from_to E s t p ∧ ∀ q, path_from_to E s t q → length p ≤ length q.

(** The sets of a breadth-first search from [s], round after round. *)
Definition level (G : nx.DiGraph) (s : string) (k : nat) : gset string :=
  Nat.iter k (nx.expand G) {[s]}.

(** [earlier] lists the sets seen before [seen], the latest first. *)
Fixpoint layered (G : nx.DiGraph) (s : string) (seen : gset string)
    (earlier : list (gset string)) : Prop :=
  match earlier with
  | [] => seen = {[s]}
  | prev :: rest => seen = nx.expand G prev ∧ layered G s prev rest
  end.

(** The set [nx.descendants] computes for a node of the graph. *)
Definition descendant_set (G : nx.DiGraph) (v : string) : gset string :=
  nx.closure G (length (nx.nodes G)) {[v]} ∖ {[v]}.

(** The ordered pair a violation reports. *)
Definition pair_of (v : violation) : string * string := (source v, target v).

(** The witness path of a violation: a shortest path from its source to its
    target, then a shortest path back without its first node. *)
Definition witnessed (E : relation string) (v : violation) : Prop :=
  ∃ p1 p2,
    shortest E (source v) (target v) p1 ∧
    shortest E (target v) (source v) p2 ∧
    cycle v = p1 ++ drop 1 p2.

(** The pairs the two loops of [detect_broader_violations] report, in order:
    for every source, the descendants that have the source as a descendant. *)
Definition mutual_pairs (G : nx.DiGraph) (srcs : list string) : list (string * string) :=
  src ← srcs;
  (λ dst, (src, dst)) <$>
    filter (λ dst, src ∈ descendant_set G dst) (elements (descendant_set G src)).

(** A record with one of the two hierarchy codes, self-loops included. *)
Definition hierarchy_record (line : string) : Prop :=
  match record_of_line line with
  | Some (_, r, _) => r = "CHD" ∨ r = "PAR"
  | None => False
  end.

#[global] Instance hierarchy_record_dec line : Decision (hierarchy_record line).
Proof. unfold hierarchy_record. destruct (record_of_line line) as [[[??]?]|]; apply _. Defined.

(** The number of raw hierarchy records of the input. *)
Definition hierarchy_records (lines : list string) : nat :=
  length (filter hierarchy_record lines).

(** The hierarchy edge a line asserts, if any. *)
Definition hierarchy_edge (line : string) : option edge :=
  match record_of_line line with
  | Some (s, r, t) =>
      if decide (s = t) then None
      else if decide (r = "CHD") then Some (t, s)
      else if decide (r = "PAR") then Some (s, t)
      else None
  | None => None
  end.

(** A hierarchy record from a node to itself. *)
Definition hierarchy_self_loop (line : string) : Prop :=
  ∃ s r, record_of_line line = Some (s, r, s) ∧ (r = "CHD" ∨ r = "PAR").

(** The input has a hierarchy self-loop, or asserts a hierarchy edge twice,
    or asserts one of the edges [pc] already has. *)
Definition redundant (pc : gset edge) (lines : list string) : Prop :=
  (∃ l, l ∈ lines ∧ hierarchy_self_loop l) ∨
  (∃ i j l1 l2 e, i < j ∧ lines !! i = Some l1 ∧ lines !! j = Some l2 ∧
                  hierarchy_edge l1 = Some e ∧ hierarchy_edge l2 = Some e) ∨
  (∃ l e, l ∈ lines ∧ hierarchy_edge l = Some e ∧ e ∈ pc).


(** The dominance edge a line asserts, if any. *)
Definition dominance_edge (line : string) : option edge :=
  match record_of_line line with
  | Some (s, r, t) =>
      if decide (s = t) then None
      else if decide (r = "RB") then Some (s, t)
      else if decide (r = "RN") then Some (t, s)
      else None
  | None => None
  end.

(** What one line adds to each of the four sets. *)
Definition line_parent_child (line : string) : gset edge :=
  match hierarchy_edge line with Some e => {[e]} | None => ∅ end.

Definition line_broader_than (line : string) : gset edge :=
  match dominance_edge line with Some e => {[e]} | None => ∅ end.

Definition line_self_loops (line : string) : gset (string * string) :=
  match record_of_line line with
  | Some (s, r, t) => if decide (s = t) then {[(s, r)]} else ∅
  | None => ∅
  end.

Definition line_relationship_types (line : string) : gset string :=
  match record_of_line line with
  | Some (_, r, _) => {[r]}
  | None => ∅
  end.

(** What the traversal keeps of the cycles it has recorded: each is a simple
    list, each has its sorted tuple in [unique_cycles], and no two have the
    same sorted tuple. *)
Record cycles_inv (st : dfs_state) : Prop := {
  cyc_simple : ∀ c, c ∈ all_cycles st → NoDup c;
  cyc_recorded : ∀ c, c ∈ all_cycles st → sorted c ∈ unique_cycles st;
  cyc_distinct : NoDup (sorted <$> all_cycles st);
}.

(** A node of the graph: a key of the mapping, or the target of an edge. *)
Definition is_node (g : adjacency) (v : string) : Prop :=
  v ∈ dict_keys g ∨ ∃ u, edge_of g u v.

(** What the traversal keeps of the keys of the mapping: the entries of [g]
    come first and are followed by new keys with empty lists; every visited
    node has a key; and the successors of a node that was left are visited. *)
Record keys_inv (g : adjacency) (st : dfs_state) : Prop := {
  keys_added : ∃ ks, graph st = g ++ ((λ k, (k, [])) <$> ks) ∧ NoDup ks ∧
                     ∀ k, k ∈ ks → (k ∉ dict_keys g) ∧ ∃ u, edge_of g u k;
  keys_visited : ∀ v, v ∈ visited st → v ∈ dict_keys (graph st);
  keys_closed : ∀ v w, v ∈ visited st → v ∉ path st → edge_of g v w →
                       w ∈ visited st;
}.

(** The hierarchy analysis is requested and the hierarchy has at least as
    many nodes as the interpreter allows nested calls of [dfs]. *)
Definition too_deep (limit : nat) (type : analysis_type) (st : parse_state)
  : Prop :=
  type ≠ broader_than ∧
  limit ≤ size (graph_nodes (build_graph (elements (parent_child_edges st)))).

(** The entries the hierarchy analysis adds to the statistics (lines 197-198),
    none when it is not requested. *)
Definition cycle_stats (type : analysis_type) (clock : timings)
    (cycles : list (list string)) : list (string * stat_value) :=
  match type with
  | broader_than => []
  | _ => [ ("Parent-Child Cycle Count", Count (length cycles));
           ("Parent-Child Detection Time (s)", Seconds (pc_time clock)) ]
  end.

(** The entries the dominance analysis adds to the statistics (lines
    209-210), none when it is not requested. *)
Definition violation_stats (type : analysis_type) (clock : timings)
    (violations : list violation) : list (string * stat_value) :=
  match type with
  | parent_child => []
  | _ => [ ("Broader-Than Violation Count", Count (length violations));
           ("Broader-Than Detection Time (s)", Seconds (bt_time clock)) ]
  end.

(** The edges of an edge set as a relation. *)
Definition edge_in (es : gset edge) (u v : string) : Prop := (u, v) ∈ es.

(** The character [c] occurs in [s]. *)
Fixpoint mentions (c : ascii) (s : string) : bool :=
  match s with
  | EmptyString => false
  | String c' s' => if decide (c' = c) then true else mentions c s'
  end.

(** * Properties *)

(** ** Relation records *)

Lemma parse_line_step line st : parse_line line st = Ok (step st line).
Proof.
  unfold parse_line, step, record_of_line, Str.index.
  destruct (length _ <? 5)%nat eqn:Hlen; [done|].
  apply Nat.ltb_ge in Hlen.
  destruct (lookup_lt_is_Some_2 (Str.split "|" (Str.strip line)) 0) as [s ->]; [lia|].
  destruct (lookup_lt_is_Some_2 (Str.split "|" (Str.strip line)) 3) as [r ->]; [lia|].
  destruct (lookup_lt_is_Some_2 (Str.split "|" (Str.strip line)) 4) as [t ->]; [lia|].
  done.
Qed.

Lemma parse_lines_steps lines st :
  for_each parse_line lines st = Ok (foldl step st lines).
Proof.
  revert st. induction lines as [|l lines IH]; intros st; [done|].
  simpl. rewrite parse_line_step. simpl. apply IH.
Qed.

Lemma parse_mrrel_lines lines :
  parse_mrrel (Readable lines) = Ok (foldl step parse_init lines).
Proof. apply parse_lines_steps. Qed.

(** ** The classifier *)

Lemma count_incr_same c e : count (counter_incr c e) e = count c e + 1.
Proof. unfold counter_incr, count at 1. by rewrite lookup_insert_eq. Qed.

Lemma count_incr_other c e e' : e ≠ e' → count (counter_incr c e) e' = count c e'.
Proof. intros. unfold counter_incr, count at 1. by rewrite lookup_insert_ne. Qed.

Lemma dom_counter_incr c e : dom (counter_incr c e) = {[e]} ∪ dom c.
Proof. unfold counter_incr. by rewrite dom_insert_L. Qed.

(** What [classify] does, case by case. *)
Lemma classify_cases st s r t :
  let st0 := add_relationship_type st r in
  (s = t ∧ classify st s r t = add_self_loop st0 (s, r)) ∨
  (s ≠ t ∧ r = "CHD" ∧ classify st s r t = add_parent_child st0 (t, s)) ∨
  (s ≠ t ∧ r = "PAR" ∧ classify st s r t = add_parent_child st0 (s, t)) ∨
  (s ≠ t ∧ r = "RB" ∧ classify st s r t = add_broader_than st0 (s, t)) ∨
  (s ≠ t ∧ r = "RN" ∧ classify st s r t = add_broader_than st0 (t, s)) ∨
  (s ≠ t ∧ canonical_edge s r t = None ∧ classify st s r t = st0).
Proof.
  unfold classify, canonical_edge. simpl.
  repeat case_decide; subst; try discriminate; naive_solver.
Qed.

Lemma classify_edge_part st1 st2 s r t :
  edge_part st1 = edge_part st2 →
  edge_part (classify st1 s r t) = edge_part (classify st2 s r t).
Proof.
  unfold edge_part, classify. intros [= H1 H2 H3].
  repeat case_decide; simpl; by rewrite ?H1, ?H2, ?H3.
Qed.

Lemma step_edge_part st1 st2 l :
  edge_part st1 = edge_part st2 → edge_part (step st1 l) = edge_part (step st2 l).
Proof.
  intros H. unfold step. destruct (record_of_line l) as [[[s r] t]|]; [|done].
  by apply classify_edge_part.
Qed.

Lemma steps_edge_part lines st1 st2 :
  edge_part st1 = edge_part st2 →
  edge_part (foldl step st1 lines) = edge_part (foldl step st2 lines).
Proof.
  revert st1 st2. induction lines as [|l lines IH]; intros st1 st2 H; [done|].
  simpl. by apply IH, step_edge_part.
Qed.

Lemma step_self_loops_mono st l : self_loops st ⊆ self_loops (step st l).
Proof.
  unfold step. destruct (record_of_line l) as [[[s r] t]|]; [|done].
  unfold classify. repeat case_decide; simpl; set_solver.
Qed.

Lemma steps_self_loops_mono lines st : self_loops st ⊆ self_loops (foldl step st lines).
Proof.
  revert st. induction lines as [|l lines IH]; intros st; [done|].
  simpl. etrans; [apply (step_self_loops_mono st l)|apply IH].
Qed.

Lemma step_irreflexive st l : irreflexive_edges st → irreflexive_edges (step st l).
Proof.
  unfold step, irreflexive_edges. intros H x. specialize (H x).
  destruct (record_of_line l) as [[[s r] t]|]; [|done].
  unfold classify. repeat case_decide; simpl; set_solver.
Qed.

Lemma steps_irreflexive lines st :
  irreflexive_edges st → irreflexive_edges (foldl step st lines).
Proof.
  revert st. induction lines as [|l lines IH]; intros st H; [done|].
  simpl. by apply IH, step_irreflexive.
Qed.

Lemma step_count st l e :
  count (duplicate_edges (step st l)) e
  = count (duplicate_edges st) e + (if decide (asserted_edge l = Some e) then 1 else 0).
Proof.
  unfold step, asserted_edge.
  destruct (record_of_line l) as [[[s r] t]|]; [|by rewrite decide_False by done].
  destruct (classify_cases st s r t) as [[-> ->]|[(?&->&->)|[(?&->&->)|[(?&->&->)|[(?&->&->)|(?&Hn&->)]]]]];
    unfold canonical_edge; simpl;
    repeat (case_decide; simplify_eq; try done);
    rewrite ?count_incr_same, ?count_incr_other by congruence; try lia.
  all: unfold canonical_edge in Hn; repeat (case_decide; simplify_eq; try done); congruence.
Qed.

Lemma steps_count lines st e :
  count (duplicate_edges (foldl step st lines)) e
  = count (duplicate_edges st) e + assertions e lines.
Proof.
  revert st. induction lines as [|l lines IH]; intros st; simpl.
  - unfold assertions. simpl. lia.
  - rewrite IH, step_count. unfold assertions. rewrite filter_cons.
    case_decide; simpl; lia.
Qed.

(** The keys of the counter are the edges of the two sets. *)
Lemma step_dom st l :
  dom (duplicate_edges st) = parent_child_edges st ∪ broader_than_edges st →
  dom (duplicate_edges (step st l))
  = parent_child_edges (step st l) ∪ broader_than_edges (step st l).
Proof.
  intros H. unfold step. destruct (record_of_line l) as [[[s r] t]|]; [|done].
  unfold classify. repeat case_decide; simpl; rewrite ?dom_counter_incr, ?H; set_solver.
Qed.

Lemma steps_dom lines st :
  dom (duplicate_edges st) = parent_child_edges st ∪ broader_than_edges st →
  dom (duplicate_edges (foldl step st lines))
  = parent_child_edges (foldl step st lines) ∪ broader_than_edges (foldl step st lines).
Proof.
  revert st. induction lines as [|l lines IH]; intros st H; [done|].
  simpl. by apply IH, step_dom.
Qed.

(** ** Claims on the edge classifier *)

Lemma step_record st l s r t :
  record_of_line l = Some (s, r, t) → step st l = classify st s r t.
Proof. unfold step. by intros ->. Qed.

Lemma parse_line_record st l s r t :
  record_of_line l = Some (s, r, t) → parse_line l st = Ok (classify st s r t).
Proof. intros H. by rewrite parse_line_step, (step_record _ _ _ _ _ H). Qed.

(** C3: the two inverse codes of a family yield one canonical edge. A record
    [(a, CHD, b)] and a record [(b, PAR, a)] both add the hierarchy edge
    [(b, a)] and leave the dominance edges alone; a record [(a, RB, b)] and a
    record [(b, RN, a)] both add the dominance edge [(a, b)] and leave the
    hierarchy edges alone. *)
Theorem parse_mrrel_canonical_direction (st : parse_state) (l1 l2 l3 l4 a b : string) :
  a ≠ b →
  record_of_line l1 = Some (a, "CHD", b) →
  record_of_line l2 = Some (b, "PAR", a) →
  record_of_line l3 = Some (a, "RB", b) →
  record_of_line l4 = Some (b, "RN", a) →
  ∃ st1 st2 st3 st4,
    parse_line l1 st = Ok st1 ∧ parse_line l2 st = Ok st2 ∧
    parse_line l3 st = Ok st3 ∧ parse_line l4 st = Ok st4 ∧
    parent_child_edges st1 = {[(b, a)]} ∪ parent_child_edges st ∧
    parent_child_edges st2 = {[(b, a)]} ∪ parent_child_edges st ∧
    broader_than_edges st1 = broader_than_edges st ∧
    broader_than_edges st2 = broader_than_edges st ∧
    broader_than_edges st3 = {[(a, b)]} ∪ broader_than_edges st ∧
    broader_than_edges st4 = {[(a, b)]} ∪ broader_than_edges st ∧
    parent_child_edges st3 = parent_child_edges st ∧
    parent_child_edges st4 = parent_child_edges st.
Proof.
  intros Hab H1 H2 H3 H4.
  do 4 eexists.
  rewrite (parse_line_record _ _ _ _ _ H1), (parse_line_record _ _ _ _ _ H2),
    (parse_line_record _ _ _ _ _ H3), (parse_line_record _ _ _ _ _ H4).
  do 4 (split; [reflexivity|]).
  unfold classify.
  rewrite !(decide_False (P := a = b)), !(decide_False (P := b = a)) by congruence.
  simpl. done.
Qed.

(** The records of the claim, each read from a file of one line. *)
Lemma parse_mrrel_canonical_direction_witness :
  (∃ st1 st2,
     parse_mrrel (Readable ["C1|A1|AUI|CHD|C2|A2|AUI|"]) = Ok st1 ∧
     parse_mrrel (Readable ["C2|A2|AUI|PAR|C1|A1|AUI|"]) = Ok st2 ∧
     parent_child_edges st1 = {[("C2", "C1")]} ∧
     parent_child_edges st2 = {[("C2", "C1")]}) ∧
  (∃ st3 st4,
     parse_mrrel (Readable ["C3|A3|AUI|RB|C4|A4|AUI|"]) = Ok st3 ∧
     parse_mrrel (Readable ["C4|A4|AUI|RN|C3|A3|AUI|"]) = Ok st4 ∧
     broader_than_edges st3 = {[("C3", "C4")]} ∧
     broader_than_edges st4 = {[("C3", "C4")]}).
Proof.
  split.
  - destruct (parse_mrrel_canonical_direction parse_init
                "C1|A1|AUI|CHD|C2|A2|AUI|" "C2|A2|AUI|PAR|C1|A1|AUI|"
                "C1|A1|AUI|RB|C2|A2|AUI|" "C2|A2|AUI|RN|C1|A1|AUI|" "C1" "C2")
      as (st1 & st2 & _ & _ & E1 & E2 & _ & _ & P1 & P2 & _);
      [discriminate|reflexivity..|].
    exists st1, st2. unfold parse_mrrel, for_each. rewrite E1, E2, P1, P2.
    repeat split; apply (right_id_L ∅ (∪)).
  - destruct (parse_mrrel_canonical_direction parse_init
                "C3|A3|AUI|CHD|C4|A4|AUI|" "C4|A4|AUI|PAR|C3|A3|AUI|"
                "C3|A3|AUI|RB|C4|A4|AUI|" "C4|A4|AUI|RN|C3|A3|AUI|" "C3" "C4")
      as (_ & _ & st3 & st4 & _ & _ & E3 & E4 & _ & _ & _ & _ & B3 & B4 & _);
      [discriminate|reflexivity..|].
    exists st3, st4. unfold parse_mrrel, for_each. rewrite E3, E4, B3, B4.
    repeat split; apply (right_id_L ∅ (∪)).
Defined.

Lemma foldl_step_app st lines1 lines2 :
  foldl step st (lines1 ++ lines2) = foldl step (foldl step st lines1) lines2.
Proof. apply foldl_app. Qed.

Lemma parse_init_irreflexive : irreflexive_edges parse_init.
Proof. intros x. split; apply not_elem_of_empty. Qed.

(** C5: a record whose source is its target is recorded as the self-loop
    [(identifier, code)] and adds nothing to the edges: with the record or
    without it, the file yields the same hierarchy edges, dominance edges and
    counter, and no edge set ever holds an edge from a node to itself. *)
Theorem parse_mrrel_self_loop (lines1 lines2 : list string) (l s r : string) :
  record_of_line l = Some (s, r, s) →
  ∃ st st0,
    parse_mrrel (Readable (lines1 ++ l :: lines2)) = Ok st ∧
    parse_mrrel (Readable (lines1 ++ lines2)) = Ok st0 ∧
    (s, r) ∈ self_loops st ∧
    parent_child_edges st = parent_child_edges st0 ∧
    broader_than_edges st = broader_than_edges st0 ∧
    duplicate_edges st = duplicate_edges st0 ∧
    irreflexive_edges st.
Proof.
  intros Hl. do 2 eexists.
  rewrite !parse_mrrel_lines. do 2 (split; [reflexivity|]).
  rewrite !foldl_step_app. simpl.
  set (st1 := foldl step parse_init lines1).
  assert (Hst : step st1 l = add_self_loop (add_relationship_type st1 r) (s, r)).
  { rewrite (step_record _ _ _ _ _ Hl). unfold classify. by rewrite decide_True. }
  split.
  { apply steps_self_loops_mono. rewrite Hst. simpl. set_solver. }
  assert (He : edge_part (foldl step (step st1 l) lines2)
               = edge_part (foldl step st1 lines2)).
  { apply steps_edge_part. by rewrite Hst. }
  injection He as -> -> ->. do 3 (split; [reflexivity|]).
  apply steps_irreflexive, step_irreflexive, steps_irreflexive,
    parse_init_irreflexive.
Qed.

(** The record of the claim, alone in a file: one self-loop and nothing else. *)
Lemma parse_mrrel_self_loop_witness :
  ∃ st,
    parse_mrrel (Readable ["C100|A1|AUI|PAR|C100|A2|AUI|"]) = Ok st ∧
    self_loops st = {[("C100", "PAR")]} ∧
    parent_child_edges st = ∅ ∧ broader_than_edges st = ∅ ∧
    duplicate_edges st = ∅.
Proof.
  destruct (parse_mrrel_self_loop [] [] "C100|A1|AUI|PAR|C100|A2|AUI|" "C100" "PAR")
    as (st & st0 & E & E0 & _ & Hpc & Hbt & Hdup & _); [reflexivity|].
  exists st. split; [exact E|].
  injection E0 as <-. rewrite Hpc, Hbt, Hdup.
  injection E as <-. repeat split.
Defined.

(** The two records of the duplicate-counting property, in one file. *)
Lemma duplicate_example :
  ∃ st,
    parse_mrrel (Readable ["C1|A1|AUI|CHD|C2|A2|AUI|"; "C2|A2|AUI|PAR|C1|A1|AUI|"]) = Ok st ∧
    duplicate_edges st = {[("C2", "C1") := 2]} ∧
    elements (parent_child_edges st) = [("C2", "C1")].
Proof.
  eexists. split; [reflexivity|]. split; [|by vm_compute].
  apply map_eq. intros e. simpl. unfold counter_incr, count. simpl.
  rewrite lookup_empty. simpl. rewrite lookup_insert_eq. simpl.
  by rewrite insert_insert_eq.
Qed.

(** C6: after any input, the keys of the duplicate counter are the edges of
    the two edge sets, the count of an edge is the number of lines that
    assert it (from either side), and an edge set holds each edge once; the
    two records of the claim give [(C2, C1)] the count 2 and the hierarchy
    edge set the one edge [(C2, C1)]. *)
Theorem parse_mrrel_duplicate_counter (lines : list string) :
  (∃ st,
     parse_mrrel (Readable lines) = Ok st ∧
     dom (duplicate_edges st) = parent_child_edges st ∪ broader_than_edges st ∧
     (∀ e, count (duplicate_edges st) e = assertions e lines) ∧
     (∀ e, e ∈ parent_child_edges st ∪ broader_than_edges st →
           duplicate_edges st !! e = Some (assertions e lines) ∧
           0 < assertions e lines) ∧
     NoDup (elements (parent_child_edges st)) ∧
     NoDup (elements (broader_than_edges st))) ∧
  (∃ st,
     parse_mrrel (Readable ["C1|A1|AUI|CHD|C2|A2|AUI|"; "C2|A2|AUI|PAR|C1|A1|AUI|"]) = Ok st ∧
     duplicate_edges st = {[("C2", "C1") := 2]} ∧
     elements (parent_child_edges st) = [("C2", "C1")]).
Proof.
  split; [|exact duplicate_example].
  eexists. rewrite parse_mrrel_lines. split; [reflexivity|].
  set (st := foldl step parse_init lines).
  assert (Hdom : dom (duplicate_edges st) = parent_child_edges st ∪ broader_than_edges st).
  { apply steps_dom. simpl. set_solver. }
  assert (Hcount : ∀ e, count (duplicate_edges st) e = assertions e lines).
  { intros e. unfold st. by rewrite steps_count. }
  split; [done|]. split; [done|]. split; [|split; apply NoDup_elements].
  intros e He. rewrite <- Hdom in He. apply elem_of_dom in He as [n Hn].
  specialize (Hcount e). unfold count in Hcount. rewrite Hn in Hcount. simpl in Hcount.
  subst n. split; [done|].
  (* a key of the counter was incremented at least once *)
  clear Hdom. revert Hn. unfold st. clear st.
  generalize (assertions e lines). intros n Hn.
  destruct n; [|lia]. exfalso.
  assert (Hpos : ∀ ls st0, (∀ e n, duplicate_edges st0 !! e = Some n → 0 < n) →
                 ∀ e n, duplicate_edges (foldl step st0 ls) !! e = Some n → 0 < n).
  { clear. induction ls as [|l ls IH]; intros st0 H0; [done|].
    simpl. apply IH. intros e n. unfold step.
    destruct (record_of_line l) as [[[s r] t]|]; [|apply H0].
    unfold classify. repeat case_decide; simpl; unfold counter_incr; try apply H0.
    all: intros [[_ <-]|[_ ?]]%lookup_insert_Some; [lia|by eapply H0]. }
  apply (Hpos lines parse_init) in Hn; [lia|]. intros ??. simpl. by rewrite lookup_empty.
Qed.

Lemma step_malformed st l : ¬ well_formed l → step st l = st.
Proof.
  unfold well_formed, step, record_of_line. intros H.
  destruct (Nat.ltb_spec (length (Str.split "|" (Str.strip l))) 5); [done|lia].
Qed.

Lemma steps_filter_well_formed lines st :
  foldl step st (filter well_formed lines) = foldl step st lines.
Proof.
  revert st. induction lines as [|l lines IH]; intros st; [done|].
  rewrite filter_cons. case_decide; simpl; [apply IH|].
  by rewrite step_malformed, IH.
Qed.

(** C7, as amended: [parse_mrrel] raises exactly when the input resource is
    absent or cannot be opened and decoded. An absent resource raises
    [FileNotFoundError] and a resource that exists but cannot be read raises
    the exception of [open] or of the decoder, in both cases before any line
    is parsed; a line of fewer than five fields changes nothing and raises
    nothing, so the lines of a resource that can be read always yield a
    result, the one the well-formed lines alone yield. *)
Theorem parse_mrrel_raises (file : resource) :
  ((∃ e, parse_mrrel file = Raise e)
   ↔ file = Missing ∨ ∃ e, file = Unreadable e) ∧
  parse_mrrel Missing = Raise FileNotFoundError ∧
  (∀ e, parse_mrrel (Unreadable e) = Raise e) ∧
  (∀ lines, ∃ st,
     parse_mrrel (Readable lines) = Ok st ∧
     parse_mrrel (Readable (filter well_formed lines)) = Ok st) ∧
  (∀ l st, ¬ well_formed l → parse_line l st = Ok st).
Proof.
  split; [|split; [done|split; [done|split]]].
  - destruct file as [|e|lines].
    + split; [by left|]. intros _. by exists FileNotFoundError.
    + split; [right; by exists e|]. intros _. by exists e.
    + rewrite parse_mrrel_lines. split; [by intros [e ?]|].
      by intros [?|[e ?]].
  - intros lines. eexists. rewrite !parse_mrrel_lines.
    by rewrite steps_filter_well_formed.
  - intros l st H. by rewrite parse_line_step, step_malformed.
Qed.

(** A resource that exists and is not UTF-8: [parse_mrrel] raises, though the
    resource is not absent. *)
Lemma parse_mrrel_raises_counterexample :
  (∃ e, parse_mrrel (Unreadable UnicodeDecodeError) = Raise e) ∧
  Unreadable UnicodeDecodeError ≠ Missing.
Proof. split; [by exists UnicodeDecodeError|done]. Qed.

(** C9: the counter does not tell the families apart. When a line asserts
    [(a, b)] under "PAR" and another asserts it under "RB", the pair is in
    both edge sets, and the counter has the one key [(a, b)] for the two, its
    count raised by 2. *)
Theorem parse_mrrel_counter_conflates (lines : list string) (l1 l2 a b : string) :
  a ≠ b →
  record_of_line l1 = Some (a, "PAR", b) →
  record_of_line l2 = Some (a, "RB", b) →
  ∃ st0 st,
    parse_mrrel (Readable lines) = Ok st0 ∧
    parse_mrrel (Readable (lines ++ [l1; l2])) = Ok st ∧
    (a, b) ∈ parent_child_edges st ∩ broader_than_edges st ∧
    dom (duplicate_edges st) = {[(a, b)]} ∪ dom (duplicate_edges st0) ∧
    duplicate_edges st !! (a, b) = Some (count (duplicate_edges st0) (a, b) + 2) ∧
    (∀ e, e ≠ (a, b) → duplicate_edges st !! e = duplicate_edges st0 !! e).
Proof.
  intros Hab H1 H2. do 2 eexists. rewrite !parse_mrrel_lines.
  do 2 (split; [reflexivity|]).
  rewrite foldl_step_app. simpl.
  set (st0 := foldl step parse_init lines).
  rewrite (step_record _ _ _ _ _ H1), (step_record _ _ _ _ _ H2).
  unfold classify. rewrite !(decide_False (P := a = b)) by done. simpl.
  rewrite !dom_counter_incr.
  split; [set_solver|]. split; [set_solver|]. split.
  - unfold counter_incr at 1. rewrite lookup_insert_eq, count_incr_same.
    f_equal. lia.
  - intros e He. unfold counter_incr. by rewrite !lookup_insert_ne.
Qed.

(** The example of the claim: a file of the two lines. *)
Lemma parse_mrrel_counter_conflates_witness :
  ∃ st,
    parse_mrrel (Readable ["A|A1|AUI|PAR|B|A2|AUI|"; "A|A1|AUI|RB|B|A2|AUI|"]) = Ok st ∧
    ("A", "B") ∈ parent_child_edges st ∩ broader_than_edges st ∧
    dom (duplicate_edges st) = {[("A", "B")]} ∧
    duplicate_edges st !! ("A", "B") = Some 2.
Proof.
  destruct (parse_mrrel_counter_conflates []
              "A|A1|AUI|PAR|B|A2|AUI|" "A|A1|AUI|RB|B|A2|AUI|" "A" "B")
    as (st0 & st & E0 & E & Hin & Hdom & Hcount & _);
    [discriminate|reflexivity..|].
  exists st. injection E0 as <-.
  split; [exact E|]. split; [exact Hin|]. split; [|exact Hcount].
  rewrite Hdom. simpl. rewrite dom_empty_L. apply (right_id_L ∅ (∪)).
Defined.

(** ** Whitespace *)

Lemma lstrip_idemp s : Str.lstrip (Str.lstrip s) = Str.lstrip s.
Proof.
  induction s as [|c s IH]; [done|]. simpl.
  destruct (Str.isspace c) eqn:Hc; [done|]. simpl. by rewrite Hc.
Qed.

Lemma rstrip_idemp s : Str.rstrip (Str.rstrip s) = Str.rstrip s.
Proof.
  induction s as [|c s IH]; [done|]. simpl.
  destruct (Str.rstrip s) as [|c' r] eqn:Hr.
  - destruct (Str.isspace c) eqn:Hc; [done|]. simpl. by rewrite Hc.
  - change (Str.rstrip (String c (String c' r))) with
      (match Str.rstrip (String c' r) with
       | EmptyString => if Str.isspace c then EmptyString else String c EmptyString
       | r' => String c r'
       end).
    by rewrite IH.
Qed.

Lemma lstrip_rstrip s : Str.lstrip (Str.rstrip s) = Str.rstrip (Str.lstrip s).
Proof.
  induction s as [|c s IH]; [done|]. simpl.
  destruct (Str.isspace c) eqn:Hc.
  - rewrite <- IH. destruct (Str.rstrip s) as [|c' r]; [done|]. simpl. by rewrite Hc.
  - simpl. destruct (Str.rstrip s) as [|c' r]; simpl; by rewrite Hc.
Qed.

Lemma strip_lstrip s : Str.strip (Str.lstrip s) = Str.strip s.
Proof. unfold Str.strip. by rewrite lstrip_idemp. Qed.

Lemma strip_rstrip s : Str.strip (Str.rstrip s) = Str.strip s.
Proof. unfold Str.strip. by rewrite lstrip_rstrip, rstrip_idemp. Qed.

Lemma strip_idemp s : Str.strip (Str.strip s) = Str.strip s.
Proof. unfold Str.strip at 2. by rewrite strip_rstrip, strip_lstrip. Qed.

Lemma split_nonempty sep s : Str.split sep s ≠ [].
Proof.
  destruct s as [|c s]; [done|]. simpl. case_decide; [done|].
  by destruct (Str.split sep s).
Qed.

Lemma split_lstrip sep s :
  Str.isspace sep = false →
  Str.split sep (Str.lstrip s) = map_head Str.lstrip (Str.split sep s).
Proof.
  intros Hsep. induction s as [|c s IH]; [done|]. simpl.
  destruct (Str.isspace c) eqn:Hc.
  - rewrite decide_False by congruence.
    rewrite IH. pose proof (split_nonempty sep s).
    destruct (Str.split sep s); [done|]. simpl. by rewrite Hc.
  - simpl. case_decide; [done|].
    pose proof (split_nonempty sep s).
    destruct (Str.split sep s); [done|]. simpl. by rewrite Hc.
Qed.

Lemma rstrip_cons c s :
  Str.rstrip (String c s) =
    if decide (Str.rstrip s = EmptyString)
    then (if Str.isspace c then EmptyString else String c EmptyString)
    else String c (Str.rstrip s).
Proof. simpl. by destruct (Str.rstrip s). Qed.

Lemma split_cons sep c s :
  Str.split sep (String c s) =
    if decide (c = sep) then EmptyString :: Str.split sep s
    else map_head (String c) (Str.split sep s).
Proof.
  simpl. case_decide; [done|]. pose proof (split_nonempty sep s).
  by destruct (Str.split sep s).
Qed.

Lemma split_singleton_empty sep s : Str.split sep s = [EmptyString] → s = EmptyString.
Proof.
  destruct s as [|c s]; [done|]. rewrite split_cons.
  pose proof (split_nonempty sep s). case_decide.
  - destruct (Str.split sep s); [done|discriminate].
  - destruct (Str.split sep s); [done|discriminate].
Qed.

Lemma map_last_cons {A} (f : A → A) x l :
  l ≠ [] → map_last f (x :: l) = x :: map_last f l.
Proof. by destruct l. Qed.

Lemma split_rstrip sep s :
  Str.isspace sep = false →
  Str.split sep (Str.rstrip s) = map_last Str.rstrip (Str.split sep s).
Proof.
  intros Hsep. induction s as [|c s IH]; [done|].
  pose proof (split_nonempty sep s) as Hne.
  rewrite rstrip_cons, (split_cons sep c s).
  destruct (decide (Str.rstrip s = EmptyString)) as [Hr|Hr].
  - (* the rest of the string is whitespace: it has no separator *)
    rewrite Hr in IH. simpl in IH.
    destruct (Str.split sep s) as [|f [|f' fs]]; [done| |by destruct fs].
    simpl in IH. injection IH as Hf.
    destruct (decide (c = sep)) as [->|Hc].
    + rewrite Hsep. simpl. rewrite decide_True by done. by rewrite <- Hf.
    + simpl. rewrite <- Hf.
      destruct (Str.isspace c); [done|]. simpl. by rewrite decide_False.
  - rewrite split_cons, IH.
    destruct (decide (c = sep)) as [->|Hc].
    + by rewrite map_last_cons.
    + destruct (Str.split sep s) as [|f [|f' fs]]; [done| |done].
      simpl. simpl in IH.
      assert (Hrf : Str.rstrip f ≠ EmptyString).
      { intros Hf. rewrite Hf in IH. by apply split_singleton_empty in IH. }
      by destruct (Str.rstrip f).
Qed.

Lemma length_map_head {A} (f : A → A) l : length (map_head f l) = length l.
Proof. by destruct l. Qed.

Lemma length_map_last {A} (f : A → A) l : length (map_last f l) = length l.
Proof.
  induction l as [|x [|y l] IH]; [done..|]. simpl in *. by rewrite IH.
Qed.

Lemma split_strip sep s :
  Str.isspace sep = false →
  Str.split sep (Str.strip s)
  = map_last Str.rstrip (map_head Str.lstrip (Str.split sep s)).
Proof. intros H. unfold Str.strip. by rewrite split_rstrip, split_lstrip. Qed.

(** A field of a stripped line is the field of the line, up to whitespace at
    its ends. *)
Lemma lookup_map_last_strip (l : list string) i x :
  map_last Str.rstrip l !! i = Some x →
  ∃ y, l !! i = Some y ∧ Str.strip x = Str.strip y.
Proof.
  revert i. induction l as [|a [|b l] IH]; intros i; [done| |].
  - destruct i; [|done]. simpl. intros [= <-]. exists a. by rewrite strip_rstrip.
  - destruct i.
    + intros [= <-]. by exists a.
    + intros H. apply (IH i H).
Qed.

Lemma lookup_map_head_strip (l : list string) i x :
  map_head Str.lstrip l !! i = Some x →
  ∃ y, l !! i = Some y ∧ Str.strip x = Str.strip y.
Proof.
  destruct l as [|a l]; [done|]. destruct i.
  - simpl. intros [= <-]. exists a. by rewrite strip_lstrip.
  - simpl. intros H. by exists x.
Qed.

Lemma lookup_split_strip (s : string) i x :
  Str.split "|" (Str.strip s) !! i = Some x →
  ∃ y, Str.split "|" s !! i = Some y ∧ Str.strip x = Str.strip y.
Proof.
  rewrite split_strip by done.
  intros (y & Hy & E1)%lookup_map_last_strip.
  apply lookup_map_head_strip in Hy as (z & Hz & E2).
  exists z. split; [done|congruence].
Qed.

Lemma length_split_strip (s : string) :
  length (Str.split "|" (Str.strip s)) = length (Str.split "|" s).
Proof. rewrite split_strip by done. by rewrite length_map_last, length_map_head. Qed.

(** The record of a line, from the fields of the line as it is. *)
Lemma record_of_line_fields (line : string) :
  record_of_line line =
    let parts := Str.split "|" line in
    if (length parts <? 5)%nat then None
    else
      s ← parts !! 0; r ← parts !! 3; t ← parts !! 4;
      Some (Str.strip s, Str.strip r, Str.strip t).
Proof.
  unfold record_of_line. simpl. rewrite length_split_strip.
  destruct (Nat.ltb_spec (length (Str.split "|" line)) 5) as [|Hlen]; [done|].
  rewrite <- length_split_strip in Hlen.
  destruct (lookup_lt_is_Some_2 (Str.split "|" (Str.strip line)) 0) as [s Hs]; [lia|].
  destruct (lookup_lt_is_Some_2 (Str.split "|" (Str.strip line)) 3) as [r Hr]; [lia|].
  destruct (lookup_lt_is_Some_2 (Str.split "|" (Str.strip line)) 4) as [t Ht]; [lia|].
  rewrite Hs, Hr, Ht. simpl.
  apply lookup_split_strip in Hs as (s' & -> & ->).
  apply lookup_split_strip in Hr as (r' & -> & ->).
  apply lookup_split_strip in Ht as (t' & -> & ->).
  done.
Qed.

(** ** Claims on whitespace *)

Lemma record_of_line_same_stripped (l l' : string) :
  Forall2 same_stripped (Str.split "|" l) (Str.split "|" l') →
  record_of_line l = record_of_line l'.
Proof.
  intros H. rewrite !record_of_line_fields. simpl.
  rewrite <- (Forall2_length _ _ _ H).
  destruct (length (Str.split "|" l) <? 5)%nat; [done|].
  assert (Hi : ∀ i, Str.strip <$> (Str.split "|" l !! i)
                    = Str.strip <$> (Str.split "|" l' !! i)).
  { intros i. destruct (Str.split "|" l !! i) as [x|] eqn:Hx.
    - destruct (Forall2_lookup_l _ _ _ _ _ H Hx) as (y & -> & Hxy). simpl.
      by rewrite Hxy.
    - apply lookup_ge_None in Hx. rewrite (Forall2_length _ _ _ H) in Hx.
      apply lookup_ge_None in Hx. by rewrite Hx. }
  pose proof (Hi 0) as H0. pose proof (Hi 3) as H3. pose proof (Hi 4) as H4.
  destruct (Str.split "|" l !! 0), (Str.split "|" l' !! 0); simplify_eq/=; [|done].
  destruct (Str.split "|" l !! 3), (Str.split "|" l' !! 3); simplify_eq/=; [|done].
  destruct (Str.split "|" l !! 4), (Str.split "|" l' !! 4); simplify_eq/=; [|done].
  congruence.
Qed.

(** C10: the loop body strips the line and the three fields it reads before
    it classifies. Two lines whose fields differ by surrounding whitespace
    only leave the same state (edges, self-loops, relation codes and counter);
    a line and the stripped line do; the state they leave is the one the
    classifier leaves on the stripped fields, and it holds the stripped
    relation code; and a line whose source and target fields are equal once
    stripped is recorded as a self-loop: the pair of the stripped identifier
    and the stripped code, whatever the code, joins the self-loops, and the
    edge sets and the counter stay as they were. *)
Theorem parse_line_strips (st : parse_state) (l l' : string) (s r t : string) :
  Forall2 same_stripped (Str.split "|" l) (Str.split "|" l') →
  5 ≤ length (Str.split "|" l) →
  Str.split "|" l !! 0 = Some s →
  Str.split "|" l !! 3 = Some r →
  Str.split "|" l !! 4 = Some t →
  ∃ st',
    parse_line l st = Ok st' ∧
    parse_line l' st = Ok st' ∧
    parse_line (Str.strip l) st = Ok st' ∧
    st' = classify st (Str.strip s) (Str.strip r) (Str.strip t) ∧
    relationship_types st' = {[Str.strip r]} ∪ relationship_types st ∧
    (Str.strip s = Str.strip t →
     st' = add_self_loop (add_relationship_type st (Str.strip r))
             (Str.strip s, Str.strip r) ∧
     self_loops st' = {[(Str.strip s, Str.strip r)]} ∪ self_loops st ∧
     parent_child_edges st' = parent_child_edges st ∧
     broader_than_edges st' = broader_than_edges st ∧
     duplicate_edges st' = duplicate_edges st) ∧
    (Str.strip s ≠ Str.strip t → self_loops st' = self_loops st).
Proof.
  intros Hll Hlen Hs Hr Ht.
  assert (Hrec : record_of_line l = Some (Str.strip s, Str.strip r, Str.strip t)).
  { rewrite record_of_line_fields. simpl. rewrite Hs, Hr, Ht.
    by destruct (Nat.ltb_spec (length (Str.split "|" l)) 5); [lia|]. }
  exists (classify st (Str.strip s) (Str.strip r) (Str.strip t)).
  split; [by apply parse_line_record|]. split; [|split; [|split; [done|]]].
  - rewrite parse_line_step. unfold step.
    by rewrite <- (record_of_line_same_stripped l l'), Hrec.
  - rewrite parse_line_step. unfold step, record_of_line.
    rewrite strip_idemp. fold (record_of_line l). by rewrite Hrec.
  - unfold classify. split; [|split].
    + by repeat case_decide.
    + intros Hst. by rewrite decide_True.
    + intros Hst. rewrite decide_False by done. by repeat case_decide.
Qed.

(** Two spellings of one self-loop record: both leave the state in which the
    pair (C7, PAR) is a self-loop, PAR is a relation code and there is no
    edge. *)
Lemma parse_line_strips_witness :
  ∃ st',
    parse_line " C7 |A1|AUI| PAR | C7|A2|AUI| " parse_init = Ok st' ∧
    parse_line "C7|A1 |AUI|PAR|C7  | A2|AUI|" parse_init = Ok st' ∧
    self_loops st' = {[("C7", "PAR")]} ∧
    relationship_types st' = {["PAR"]} ∧
    parent_child_edges st' = ∅ ∧
    broader_than_edges st' = ∅ ∧
    duplicate_edges st' = ∅.
Proof.
  destruct (parse_line_strips parse_init
              " C7 |A1|AUI| PAR | C7|A2|AUI| " "C7|A1 |AUI|PAR|C7  | A2|AUI|"
              " C7 " " PAR " " C7")
    as (st' & E1 & E2 & _ & _ & Hr & Hloop & _).
  - replace (Str.split "|" " C7 |A1|AUI| PAR | C7|A2|AUI| ")
      with [" C7 "; "A1"; "AUI"; " PAR "; " C7"; "A2"; "AUI"; " "]
      by (vm_compute; reflexivity).
    replace (Str.split "|" "C7|A1 |AUI|PAR|C7  | A2|AUI|")
      with ["C7"; "A1 "; "AUI"; "PAR"; "C7  "; " A2"; "AUI"; ""]
      by (vm_compute; reflexivity).
    unfold same_stripped.
    repeat (constructor; [vm_compute; reflexivity|]). constructor.
  - vm_compute. lia.
  - vm_compute. reflexivity.
  - vm_compute. reflexivity.
  - vm_compute. reflexivity.
  - destruct Hloop as (_ & Hl & Hpc & Hbt & Hd); [vm_compute; reflexivity|].
    exists st'. split; [exact E1|]. split; [exact E2|].
    replace (Str.strip " C7 ") with "C7" in * by (vm_compute; reflexivity).
    replace (Str.strip " PAR ") with "PAR" in * by (vm_compute; reflexivity).
    rewrite Hl, Hr, Hpc, Hbt, Hd. simpl.
    by rewrite !(right_id_L ∅ (∪)).
Defined.

(** A file with a line of three fields: the line is skipped. *)
Lemma parse_mrrel_raises_witness :
  parse_mrrel (Readable ["too|few|fields"; "C1|A1|AUI|CHD|C2|A2|AUI|"])
  = parse_mrrel (Readable ["C1|A1|AUI|CHD|C2|A2|AUI|"]) ∧
  parse_line "too|few|fields" parse_init = Ok parse_init ∧
  ¬ (∃ e, parse_mrrel (Readable ["too|few|fields"]) = Raise e).
Proof.
  destruct (parse_mrrel_raises (Readable ["too|few|fields"; "C1|A1|AUI|CHD|C2|A2|AUI|"]))
    as (_ & _ & _ & Hf & Hm).
  destruct (Hf ["too|few|fields"; "C1|A1|AUI|CHD|C2|A2|AUI|"]) as (st & E1 & E2).
  split; [|split].
  - rewrite E1. symmetry. exact E2.
  - apply Hm. unfold well_formed. simpl. lia.
  - destruct (parse_mrrel_raises (Readable ["too|few|fields"])) as (Hiff & _).
    intros H. apply Hiff in H. by destruct H as [?|[e ?]].
Defined.

(** The two records of the claim: the counter reads 2, the set has one edge. *)
Lemma parse_mrrel_duplicate_counter_witness :
  ∃ st,
    parse_mrrel (Readable ["C1|A1|AUI|CHD|C2|A2|AUI|"; "C2|A2|AUI|PAR|C1|A1|AUI|"]) = Ok st ∧
    duplicate_edges st !! ("C2", "C1") = Some 2 ∧
    dom (duplicate_edges st) = parent_child_edges st ∪ broader_than_edges st.
Proof.
  destruct (parse_mrrel_duplicate_counter
              ["C1|A1|AUI|CHD|C2|A2|AUI|"; "C2|A2|AUI|PAR|C1|A1|AUI|"])
    as [(st & E & Hdom & _ & Hk & _) _].
  exists st. split; [exact E|]. split; [|exact Hdom].
  destruct (Hk ("C2", "C1")) as [Hc _]; [|exact Hc].
  injection E as <-. apply elem_of_union_l. simpl.
  apply elem_of_union_l, elem_of_singleton. reflexivity.
Defined.

(** ** The traversal of [detect_cycles] *)

Lemma list_index_elem (l : list string) x :
  x ∈ l → ∃ i, list_index l x = Ok i ∧ l !! i = Some x.
Proof.
  induction l as [|y l IH]; [by intros ?%elem_of_nil|].
  intros Hx. simpl. case_decide as Hy.
  - exists 0. by subst.
  - apply elem_of_cons in Hx as [->|Hx]; [done|].
    destruct (IH Hx) as (i & -> & Hi). by exists (S i).
Qed.

Lemma sorted_Permutation c : sorted c ≡ₚ c.
Proof. apply merge_sort_Permutation. Qed.

Lemma mutually_reachable_trans g u v w :
  mutually_reachable g u v → mutually_reachable g v w → mutually_reachable g u w.
Proof. intros [??] [??]. split; by etrans. Qed.

Lemma reported_mono g cs cs' v :
  (∀ c, c ∈ cs → c ∈ cs') → reported g cs v → reported g cs' v.
Proof. intros H (c & Hc & ?). exists c. auto. Qed.

Lemma reported_transfer g cs v w :
  mutually_reachable g v w → reported g cs w → reported g cs v.
Proof.
  intros Hvw (c & Hc & Hne & Hz). exists c. split; [done|]. split; [done|].
  intros z Hzc. eapply mutually_reachable_trans; eauto.
Qed.

Lemma dict_get_Some_key {V} (d : list (string * V)) k v :
  dict_get d k = Some v → (k, v) ∈ d.
Proof.
  induction d as [|[k' v'] d IH]; [done|]. simpl. case_decide.
  - intros [= ->]. subst. apply elem_of_cons. by left.
  - intros H'. apply elem_of_cons. right. auto.
Qed.

Lemma edge_of_nodes g u v :
  edge_of g u v → u ∈ graph_nodes g ∧ v ∈ graph_nodes g.
Proof.
  unfold edge_of, graph_succ, graph_nodes, dict_keys.
  destruct (dict_get g u) as [succs|] eqn:Hu; simpl; [|by intros ?%elem_of_nil].
  intros Hv. apply dict_get_Some_key in Hu. split.
  - apply elem_of_union_l, elem_of_list_to_set, list_elem_of_fmap.
    by exists (u, succs).
  - apply elem_of_union_r, elem_of_list_to_set, list_elem_of_In, in_concat.
    exists succs. split; [|by apply list_elem_of_In].
    apply list_elem_of_In, list_elem_of_fmap. by exists (u, succs).
Qed.

Lemma dict_get_app_None {V} (d d' : list (string * V)) k :
  dict_get d k = None → dict_get (d ++ d') k = dict_get d' k.
Proof.
  induction d as [|[k' v'] d IH]; [done|]. simpl. case_decide; [done|]. apply IH.
Qed.

Lemma dict_get_app_Some {V} (d d' : list (string * V)) k v :
  dict_get d k = Some v → dict_get (d ++ d') k = Some v.
Proof.
  induction d as [|[k' v'] d IH]; [done|]. simpl. case_decide; [done|]. apply IH.
Qed.

(** A lookup [graph[node]] yields the successors and, whether or not it
    inserts the key, leaves the successors of every node as they were. *)
Lemma graph_getitem_spec st node :
  ∃ st',
    graph_getitem st node = (graph_succ (graph st) node, st') ∧
    (∀ v, graph_succ (graph st') v = graph_succ (graph st) v) ∧
    visited st' = visited st ∧ rec_stack st' = rec_stack st ∧
    all_cycles st' = all_cycles st ∧ unique_cycles st' = unique_cycles st ∧
    path st' = path st.
Proof.
  unfold graph_getitem, graph_succ.
  destruct (dict_get (graph st) node) as [succs|] eqn:Hg.
  - by exists st.
  - eexists. split; [reflexivity|]. simpl. split; [|done].
    intros v. destruct (dict_get (graph st) v) as [l|] eqn:Hv.
    + by rewrite (dict_get_app_Some _ _ _ _ Hv).
    + rewrite (dict_get_app_None _ _ _ Hv). simpl. by case_decide.
Qed.

Lemma path_chain_linked g p : path_chain g p → path_linked g p.
Proof.
  intros Hc i j a b Hij Ha. revert b.
  induction Hij as [|j Hij IH]; intros b Hb; [by simplify_eq|].
  destruct (lookup_lt_is_Some_2 p j) as [b' Hb'].
  { apply lookup_lt_Some in Hb. lia. }
  eapply rtc_r; [by apply IH|]. by apply (Hc j).
Qed.

Lemma inv_linked g st : dfs_inv g st → path_linked g (path st).
Proof. intros H. apply path_chain_linked, (inv_chain g st H). Qed.

Lemma path_chain_snoc g p node :
  path_chain g p → follows g p node → path_chain g (p ++ [node]).
Proof.
  intros Hp Hf i a b Ha Hb.
  destruct (decide (S i < length p)) as [Hi|Hi].
  - rewrite lookup_app_l in Ha by lia. rewrite lookup_app_l in Hb by lia.
    by apply (Hp i).
  - assert (S i = length p) as Hlen.
    { apply lookup_lt_Some in Hb. rewrite length_app in Hb. simpl in Hb. lia. }
    rewrite lookup_app_r, Hlen, Nat.sub_diag in Hb by lia. injection Hb as <-.
    rewrite lookup_app_l in Ha by lia. apply Hf.
    rewrite last_lookup, <- Hlen. done.
Qed.

Lemma path_chain_prefix g p q : path_chain g (p ++ q) → path_chain g p.
Proof.
  intros H i a b Ha Hb. apply (H i); by apply lookup_app_l_Some.
Qed.

Lemma path_chain_drop g p n : path_chain g p → path_chain g (drop n p).
Proof.
  intros H i a b. rewrite !lookup_drop. replace (n + S i) with (S (n + i)) by lia.
  apply H.
Qed.

Lemma last_drop_lt {A} (l : list A) n : n < length l → last (drop n l) = last l.
Proof.
  intros Hn. rewrite !last_lookup, lookup_drop, length_drop. f_equal. lia.
Qed.

Lemma record_cycle_fields st cycle :
  graph (record_cycle st cycle) = graph st ∧
  visited (record_cycle st cycle) = visited st ∧
  rec_stack (record_cycle st cycle) = rec_stack st ∧
  path (record_cycle st cycle) = path st ∧
  (∀ c, c ∈ all_cycles st → c ∈ all_cycles (record_cycle st cycle)).
Proof.
  unfold record_cycle. case_decide; simpl; [done|].
  repeat split. intros c Hc. apply elem_of_app. by left.
Qed.

Lemma record_cycle_inv g st cycle :
  dfs_inv g st → directed_cycle g cycle → dfs_inv g (record_cycle st cycle).
Proof.
  intros [] Hcyc.
  destruct (record_cycle_fields st cycle) as (Hg & Hv & Hr & Hp & Hc).
  split; rewrite ?Hg, ?Hv, ?Hr, ?Hp; try done.
  - intros y ???. eapply reported_mono; [exact Hc|]. auto.
  - unfold record_cycle. case_decide; [done|]. simpl.
    intros n [->%elem_of_singleton|Hn]%elem_of_union.
    + exists cycle. split; [|done]. apply elem_of_app. right. by apply list_elem_of_singleton.
    + destruct (inv_unique0 n Hn) as (c & ? & ?). exists c. split; [|done].
      apply elem_of_app. by left.
  - unfold record_cycle. case_decide; [done|]. simpl.
    intros c [Hin|Hin]%elem_of_app; [auto|].
    by apply list_elem_of_singleton in Hin as ->.
Qed.

(** A recorded cycle, or an earlier one with the same sorted tuple, is among
    the cycles afterwards. *)
Lemma record_cycle_recorded g st cycle :
  dfs_inv g st →
  ∃ c, c ∈ all_cycles (record_cycle st cycle) ∧ c ≡ₚ cycle.
Proof.
  intros Hinv. unfold record_cycle. case_decide as Hn; simpl.
  - destruct (inv_unique g st Hinv _ Hn) as (c & Hc & Hs). exists c. split; [done|].
    by rewrite <- (sorted_Permutation c), Hs, sorted_Permutation.
  - exists cycle. split; [|done]. apply elem_of_app. right.
    by apply list_elem_of_singleton.
Qed.

(** Lines 84-91: a node on the stack closes a cycle inside its component. *)
Lemma dfs_back_edge g st node :
  dfs_inv g st → follows g (path st) node → node ∈ rec_stack st →
  ∃ i, list_index (path st) node = Ok i ∧
       dfs_post g st node (record_cycle st (drop i (path st))).
Proof.
  intros Hinv Hf Hnode.
  apply (inv_stack g st Hinv) in Hnode.
  destruct (list_index_elem _ _ Hnode) as (i & Hi & Hlook).
  exists i. split; [done|].
  destruct (record_cycle_fields st (drop i (path st))) as (Hg & Hv & Hr & Hp & Hc).
  split; rewrite ?Hv, ?Hp; try done.
  - apply record_cycle_inv; [done|]. split; [|split].
    + intros Hnil. apply (f_equal length) in Hnil. rewrite length_drop in Hnil.
      apply lookup_lt_Some in Hlook. simpl in Hnil. lia.
    + apply path_chain_drop, (inv_chain g st Hinv).
    + intros a b Ha Hb. rewrite head_lookup, lookup_drop, Nat.add_0_r in Hb.
      assert (b = node) as -> by congruence.
      apply Hf. rewrite last_drop_lt in Ha; [done|]. by apply lookup_lt_Some in Hlook.
  - by apply (inv_path_visited g st Hinv).
  - intros _.
    destruct (record_cycle_recorded g st (drop i (path st)) Hinv) as (c & Hcin & Hperm).
    exists c. split; [done|]. split.
    + intros ->. apply Permutation_nil_l in Hperm.
      apply (f_equal length) in Hperm. rewrite length_drop in Hperm.
      apply lookup_lt_Some in Hlook. simpl in Hperm. lia.
    + intros z Hz. rewrite Hperm in Hz.
      apply list_elem_of_lookup in Hz as [k Hk]. rewrite lookup_drop in Hk.
      destruct (last (path st)) as [a|] eqn:Hlast.
      * split.
        -- eapply (inv_linked g st Hinv i (i + k)); [lia|done..].
        -- eapply rtc_r; [|by apply Hf]. rewrite last_lookup in Hlast.
           eapply (inv_linked g st Hinv (i + k) (pred (length (path st)))); [|done..].
           apply lookup_lt_Some in Hk. lia.
      * apply last_None in Hlast. rewrite Hlast in Hk. done.
Qed.

(** Lines 96-98 and 100: entering a node that was not visited. *)
Lemma enter_inv g st node :
  dfs_inv g st → follows g (path st) node → node ∈ graph_nodes g →
  node ∉ rec_stack st → node ∉ visited st →
  dfs_inv g (enter st node).
Proof.
  intros [] Hf Hn Hstack Hvis. split; simpl; try done.
  - intros x. rewrite elem_of_union, elem_of_singleton, elem_of_app,
      list_elem_of_singleton, inv_stack0. tauto.
  - apply NoDup_app. split; [done|]. split; [|apply NoDup_singleton].
    intros x Hx ->%list_elem_of_singleton. by apply Hstack, inv_stack0.
  - intros x [Hx|Hx]%elem_of_app; [set_solver|].
    apply list_elem_of_singleton in Hx as ->. set_solver.
  - by apply path_chain_snoc.
  - set_solver.
  - intros y Hy Hp. apply inv_done0; set_solver.
Qed.

Lemma unvisited_enter g st node :
  node ∈ graph_nodes g → node ∉ visited st →
  S (unvisited g (enter st node)) = unvisited g st.
Proof.
  intros Hn Hv. unfold unvisited. simpl.
  assert (graph_nodes g ∖ visited st
          = {[node]} ∪ graph_nodes g ∖ ({[node]} ∪ visited st)) as ->.
  { apply set_eq. intros x. rewrite elem_of_union, !elem_of_difference,
      elem_of_union, elem_of_singleton.
    destruct (decide (x = node)); subst; tauto. }
  rewrite (size_union (A:=string) (C:=gset string) {[node]});
    [by rewrite size_singleton|]. set_solver.
Qed.

Lemma unvisited_mono g st st' :
  visited st ⊆ visited st' → unvisited g st' ≤ unvisited g st.
Proof. intros H. apply subseteq_size. set_solver. Qed.

(** Lines 100-101: the loop over the successors of a node. *)
Lemma dfs_neighbors g depth ys st :
  dfs_spec g depth →
  dfs_inv g st →
  (∀ y, y ∈ ys → follows g (path st) y ∧ y ∈ graph_nodes g) →
  unvisited g st < depth →
  ∃ st',
    for_each (dfs depth) ys st = Ok st' ∧
    dfs_inv g st' ∧ path st' = path st ∧ visited st ⊆ visited st' ∧
    (∀ c, c ∈ all_cycles st → c ∈ all_cycles st') ∧
    (∀ y, y ∈ ys → y ∈ visited st' ∧
                   (y ∈ path st → reported g (all_cycles st') y)).
Proof.
  intros Hdfs. revert st.
  induction ys as [|y ys IH]; intros st Hinv Hys Hdepth.
  - exists st. simpl. do 5 (split; [done|]). intros y Hy. by apply elem_of_nil in Hy.
  - destruct (Hys y) as [Hf Hy]; [by left|].
    destruct (Hdfs y st Hinv Hf Hy Hdepth) as (st1 & E1 & [P1 P2 P3 P4 P5 P6]).
    destruct (IH st1) as (st2 & E2 & Q1 & Q2 & Q3 & Q4 & Q5); [done|..].
    { intros z Hz. rewrite P2. apply Hys. by right. }
    { pose proof (unvisited_mono g st st1 P3). lia. }
    exists st2. simpl. rewrite E1. simpl. split; [done|]. split; [done|].
    split; [congruence|]. split; [set_solver|]. split; [auto|].
    intros z [->|Hz]%elem_of_cons.
    + split; [set_solver|]. intros Hp. eapply reported_mono; [exact Q4|]. auto.
    + destruct (Q5 z Hz) as [? Hr]. split; [done|]. rewrite <- P2. exact Hr.
Qed.

Lemma path_pop_snoc st p node :
  path st = p ++ [node] →
  path_pop st = Ok {|
    graph := graph st;
    visited := visited st;
    rec_stack := rec_stack st;
    all_cycles := all_cycles st;
    unique_cycles := unique_cycles st;
    path := p;
  |}.
Proof.
  intros Hp. unfold path_pop. rewrite Hp, removelast_last.
  by destruct p.
Qed.

(** Lines 103-104: leaving a node all of whose successors were handled. *)
Lemma dfs_leave g st p node :
  dfs_inv g st → path st = p ++ [node] →
  (∀ y, edge_of g node y →
        y ∈ visited st ∧ (y ∈ path st → reported g (all_cycles st) y)) →
  ∃ st',
    (st1 ← path_pop st; rec_stack_remove node st1) = Ok st' ∧
    dfs_inv g st' ∧ path st' = p ∧ visited st' = visited st ∧
    all_cycles st' = all_cycles st.
Proof.
  intros [] Hp Hsucc. rewrite (path_pop_snoc st p node Hp).
  simpl. unfold rec_stack_remove. simpl.
  rewrite decide_True
    by (apply inv_stack0; rewrite Hp; apply elem_of_app; right;
        by apply list_elem_of_singleton).
  eexists. split; [reflexivity|]. simpl. split; [|done].
  rewrite Hp in *. apply NoDup_app in inv_nodup0 as (Hnd & Hnot & _).
  assert (Hnode : node ∉ p).
  { intros Hin. apply (Hnot node Hin). by apply list_elem_of_singleton. }
  split; simpl; try done.
  - intros x'. rewrite elem_of_difference, elem_of_singleton, inv_stack0,
      elem_of_app, list_elem_of_singleton.
    split; [tauto|]. intros Hx'. split; [tauto|]. by intros ->.
  - intros x' Hx'. apply inv_path_visited0, elem_of_app. by left.
  - by eapply path_chain_prefix.
  - intros y Hy Hyp Hcyc.
    destruct (decide (y = node)) as [->|Hne].
    + (* the node itself: its cycle leaves through a successor *)
      apply tc_rtc_l with (x := node) in Hcyc as Hcyc'; [|done].
      inversion Hcyc as [?? Hedge|? y1 ? Hedge Hrest]; subst.
      * destruct (Hsucc node Hedge) as [_ Hr]. apply Hr, elem_of_app. right.
        by apply list_elem_of_singleton.
      * destruct (Hsucc y1 Hedge) as [Hv1 Hr].
        apply tc_rtc in Hrest.
        assert (Hmr : mutually_reachable g node y1).
        { split; [by apply rtc_once|done]. }
        eapply reported_transfer; [exact Hmr|].
        destruct (decide (y1 ∈ p ++ [node])) as [Hin|Hout]; [by apply Hr|].
        apply inv_done0; [done|done|].
        eapply tc_rtc_l; [exact Hrest|]. by apply tc_once.
    + apply inv_done0; [done| |done].
      rewrite elem_of_app, list_elem_of_singleton. tauto.
Qed.

(** The traversal: when more nested calls are allowed than nodes are not
    visited yet, a call of [dfs] returns, and its contract holds. *)
Lemma dfs_correct g depth : dfs_spec g depth.
Proof.
  induction depth as [|depth IH]; intros node st Hinv Hf Hn Hdepth; [lia|].
  simpl. case_decide as Hstack.
  - destruct (dfs_back_edge g st node Hinv Hf Hstack) as (i & -> & Hpost).
    simpl. eauto.
  - case_decide as Hvis.
    + exists st. split; [done|]. split; try done.
      intros Hp. by apply (inv_stack g st Hinv) in Hp.
    + pose proof (enter_inv g st node Hinv Hf Hn Hstack Hvis) as Hinv1.
      destruct (graph_getitem_spec (enter st node) node)
        as (st2 & -> & Hg2 & Hv2 & Hr2 & Hc2 & Hu2 & Hp2).
      assert (Hinv2 : dfs_inv g st2).
      { destruct Hinv1. split; rewrite ?Hv2, ?Hr2, ?Hc2, ?Hu2, ?Hp2; try done.
        intros v. by rewrite Hg2. }
      pose proof (unvisited_enter g st node Hn Hvis) as Hsize.
      assert (Hsucc : graph_succ (graph (enter st node)) node = graph_succ g node).
      { apply (inv_succ g _ Hinv1). }
      rewrite Hsucc.
      destruct (dfs_neighbors g depth (graph_succ g node) st2 IH Hinv2)
        as (st3 & -> & Hinv3 & Hp3 & Hv3 & Hc3 & Hys).
      { intros y Hy. split; [|by apply (edge_of_nodes g node y)].
        intros a. rewrite Hp2. simpl. rewrite last_snoc. by intros [= <-]. }
      { unfold unvisited in *. rewrite Hv2. lia. }
      simpl.
      destruct (dfs_leave g st3 (path st) node Hinv3) as (st4 & -> & Hinv4 & Hp4 & Hv4 & Hc4).
      { by rewrite Hp3, Hp2. }
      { intros y Hy. destruct (Hys y Hy) as [? Hr]. split; [done|].
        by rewrite Hp3. }
      exists st4. split; [done|]. split; try done.
      * rewrite Hv4. etrans; [|exact Hv3]. rewrite Hv2. simpl. set_solver.
      * rewrite Hv4. apply Hv3. rewrite Hv2. simpl. set_solver.
      * intros c Hc. rewrite Hc4. apply Hc3. by rewrite Hc2.
      * intros Hp. by apply (inv_stack g st Hinv) in Hp.
Qed.

(** ** Claims on the cycle detector *)

Lemma dfs_init_inv g : dfs_inv g (dfs_init g).
Proof.
  split; simpl.
  - done.
  - intros x. split; [by intros ?%not_elem_of_empty|by intros ?%elem_of_nil].
  - apply NoDup_nil_2.
  - by intros x ?%elem_of_nil.
  - by intros i a b.
  - apply empty_subseteq.
  - by intros y ?%not_elem_of_empty.
  - by intros n ?%not_elem_of_empty.
  - by intros c ?%elem_of_nil.
Qed.

Lemma with_new_path_id st : path st = [] → with_new_path st = st.
Proof. destruct st. simpl. by intros ->. Qed.

Lemma unvisited_le g st : unvisited g st ≤ size (graph_nodes g).
Proof. apply subseteq_size. set_solver. Qed.

Lemma dict_keys_nodes g k : k ∈ dict_keys g → k ∈ graph_nodes g.
Proof. intros H. by apply elem_of_union_l, elem_of_list_to_set. Qed.

(** Lines 106-108: the loop over the roots. *)
Lemma detect_cycles_roots g depth ks st :
  size (graph_nodes g) < depth →
  dfs_inv g st → path st = [] →
  (∀ k, k ∈ ks → k ∈ graph_nodes g) →
  ∃ st',
    for_each
      (λ node st, if decide (node ∈ visited st) then Ok st
                  else dfs depth node (with_new_path st)) ks st = Ok st' ∧
    dfs_inv g st' ∧ path st' = [] ∧ visited st ⊆ visited st' ∧
    (∀ k, k ∈ ks → k ∈ visited st').
Proof.
  intros Hdepth. revert st.
  induction ks as [|k ks IH]; intros st Hinv Hp Hks.
  - exists st. simpl. do 4 (split; [done|]). intros k Hk. by apply elem_of_nil in Hk.
  - simpl.
    assert (∃ st1, (if decide (k ∈ visited st) then Ok st
                    else dfs depth k (with_new_path st)) = Ok st1 ∧
                   dfs_inv g st1 ∧ path st1 = [] ∧ visited st ⊆ visited st1 ∧
                   k ∈ visited st1) as (st1 & -> & Hinv1 & Hp1 & Hv1 & Hk1).
    { case_decide as Hk; [by exists st|].
      rewrite with_new_path_id by done.
      destruct (dfs_correct g depth k st) as (st1 & E & []); [done|..].
      - intros a. by rewrite Hp.
      - apply Hks. by left.
      - pose proof (unvisited_le g st). lia.
      - exists st1. split; [done|]. split; [done|]. split; [congruence|]. done. }
    simpl. destruct (IH st1 Hinv1 Hp1) as (st2 & E2 & Hinv2 & Hp2 & Hv2 & Hks2).
    { intros k' Hk'. apply Hks. by right. }
    exists st2. split; [done|]. split; [done|]. split; [done|].
    split; [by etrans|]. intros k' [->|Hk']%elem_of_cons; [by apply Hv2|by apply Hks2].
Qed.

(** A higher limit changes no result. *)
Lemma for_each_impl {A S} (f f' : A → S → result S) xs st st' :
  (∀ x s s', f x s = Ok s' → f' x s = Ok s') →
  for_each f xs st = Ok st' → for_each f' xs st = Ok st'.
Proof.
  intros H. revert st. induction xs as [|x xs IH]; intros st; [done|].
  simpl. destruct (f x st) as [s1|] eqn:E; try done.
  rewrite (H x st s1 E). simpl. apply IH.
Qed.

Lemma dfs_depth_mono depth depth' node st st' :
  depth ≤ depth' → dfs depth node st = Ok st' → dfs depth' node st = Ok st'.
Proof.
  revert depth' node st st'.
  induction depth as [|depth IH]; intros depth' node st st' Hle; [done|].
  destruct depth' as [|depth']; [lia|]. simpl.
  case_decide; [done|]. case_decide; [done|].
  destruct (graph_getitem (enter st node) node) as [neighbors st1].
  destruct (for_each (dfs depth) neighbors st1) as [st2|] eqn:E; try done.
  rewrite (for_each_impl (dfs depth) (dfs depth') neighbors st1 st2); [done| |done].
  intros x s s'. apply IH. lia.
Qed.

Lemma detect_cycles_run_above g depth st :
  detect_cycles_run (S (size (graph_nodes g))) g = Ok st →
  size (graph_nodes g) < depth →
  detect_cycles_run depth g = Ok st.
Proof.
  unfold detect_cycles_run. intros E Hdepth.
  eapply for_each_impl; [|exact E]. intros x s s'. cbv beta.
  case_decide; [done|]. apply dfs_depth_mono. lia.
Qed.

(** A call of [dfs] under a lower limit does what it does under a higher one,
    or raises [RecursionError]. *)
Lemma for_each_limit {A S} (f f' : A → S → result S) xs st :
  (∀ x s, f x s = f' x s ∨ f x s = Raise RecursionError) →
  for_each f xs st = for_each f' xs st ∨ for_each f xs st = Raise RecursionError.
Proof.
  intros H. revert st. induction xs as [|x xs IH]; intros st; [by left|].
  simpl. destruct (H x st) as [->| ->]; [|by right].
  destruct (f' x st) as [s1|e]; simpl; [apply IH|by left].
Qed.

Lemma dfs_limit depth depth' node st :
  depth ≤ depth' →
  dfs depth node st = dfs depth' node st ∨ dfs depth node st = Raise RecursionError.
Proof.
  revert depth' node st.
  induction depth as [|depth IH]; intros depth' node st Hle; [by right|].
  destruct depth' as [|depth']; [lia|]. simpl.
  case_decide; [by left|]. case_decide; [by left|].
  destruct (graph_getitem (enter st node) node) as [neighbors st1].
  destruct (for_each_limit (dfs depth) (dfs depth') neighbors st1) as [->| ->];
    [|by left|by right].
  intros x s. apply IH. lia.
Qed.

Lemma detect_cycles_run_limit limit limit' g :
  limit ≤ limit' →
  detect_cycles_run limit g = detect_cycles_run limit' g
  ∨ detect_cycles_run limit g = Raise RecursionError.
Proof.
  intros Hle. unfold detect_cycles_run. apply for_each_limit.
  intros x s. case_decide; [by left|]. by apply dfs_limit.
Qed.

(** Under a limit above the number of nodes the detector does what it does
    under any such limit; under a lower limit it does the same or raises
    [RecursionError]. *)
Lemma detect_cycles_run_outcome limit g :
  (detect_cycles_run limit g = Raise RecursionError ∧
   limit ≤ size (graph_nodes g))
  ∨ detect_cycles_run limit g = detect_cycles_run (S (size (graph_nodes g))) g.
Proof.
  destruct (decide (limit ≤ size (graph_nodes g))) as [Hle|Hgt].
  - destruct (detect_cycles_run_limit limit (S (size (graph_nodes g))) g)
      as [->| ->]; [lia|by right|by left].
  - right.
    destruct (detect_cycles_roots g (S (size (graph_nodes g))) (dict_keys g) (dfs_init g))
      as (st & E & _); [lia|apply dfs_init_inv|done|..].
    { intros k. apply dict_keys_nodes. }
    fold (detect_cycles_run (S (size (graph_nodes g))) g) in E.
    rewrite E, (detect_cycles_run_above g limit st E); [done|lia].
Qed.

Lemma detect_cycles_limit limit g :
  (detect_cycles limit g = Raise RecursionError ∧ limit ≤ size (graph_nodes g))
  ∨ detect_cycles limit g = detect_cycles_deep g.
Proof.
  unfold detect_cycles_deep, detect_cycles.
  destruct (detect_cycles_run_outcome limit g) as [[-> ?]| ->];
    [by left|by right].
Qed.


(** Under a limit it does not reach, the detector returns; every node on a
    cycle then has a reported cycle in its component, and every reported
    cycle is a directed cycle of the graph. *)
Lemma detect_cycles_complete g :
  ∃ cycles,
    detect_cycles_deep g = Ok cycles ∧
    (∀ v, on_cycle g v → reported g cycles v) ∧
    (∀ c, c ∈ cycles → directed_cycle g c).
Proof.
  unfold detect_cycles_deep, detect_cycles, detect_cycles_run.
  destruct (detect_cycles_roots g (S (size (graph_nodes g))) (dict_keys g) (dfs_init g))
    as (st & -> & Hinv & Hp & _ & Hks); [lia|apply dfs_init_inv|done|..].
  { intros k. apply dict_keys_nodes. }
  exists (all_cycles st). split; [done|]. split; [|apply (inv_cycles g st Hinv)].
  intros v Hv.
  apply (inv_done g st Hinv); [|rewrite Hp; by intros ?%elem_of_nil|done].
  apply Hks.
  (* a node on a cycle has a successor, so it is a key of the graph *)
  assert (∃ w, edge_of g v w) as [w Hw].
  { inversion Hv; eauto. }
  unfold edge_of, graph_succ in Hw.
  destruct (dict_get g v) as [succs|] eqn:Hg; [|by apply elem_of_nil in Hw].
  apply dict_get_Some_key in Hg. apply list_elem_of_fmap. by exists (v, succs).
Qed.

Lemma edge_of_ext_rtc g g' u w :
  (∀ a b, edge_of g' a b ↔ edge_of g a b) →
  rtc (edge_of g') u w → rtc (edge_of g) u w.
Proof. intros H. apply rtc_subrel. intros a b. apply H. Qed.

Lemma tc_impl {A} (R R' : relation A) x y :
  (∀ a b, R a b → R' a b) → tc R x y → tc R' x y.
Proof.
  intros H. induction 1 as [a b Hab|a b c Hab _ IH].
  - apply tc_once. by apply H.
  - eapply tc_l; [|exact IH]. by apply H.
Qed.

Lemma edge_of_ext_tc g g' u w :
  (∀ a b, edge_of g' a b ↔ edge_of g a b) →
  tc (edge_of g') u w → tc (edge_of g) u w.
Proof. intros H. apply tc_impl. intros a b. apply H. Qed.

Lemma directed_cycle_ext g g' c :
  (∀ a b, edge_of g' a b ↔ edge_of g a b) →
  directed_cycle g' c → directed_cycle g c.
Proof.
  intros H (Hne & Hchain & Hclose). split; [done|]. split.
  - intros i a b Ha Hb. apply H. by apply (Hchain i).
  - intros a b Ha Hb. apply H. by apply Hclose.
Qed.

(** The nodes of a directed cycle lie on a cycle. *)
Lemma directed_cycle_on_cycle g c v :
  directed_cycle g c → head c = Some v → on_cycle g v.
Proof.
  intros (Hne & Hchain & Hclose) Hv.
  destruct (last c) as [a|] eqn:Ha; [|by apply last_None in Ha].
  eapply tc_rtc_l; [|apply tc_once, (Hclose a v); done].
  apply (path_chain_linked g c Hchain 0 (pred (length c))); [lia| |].
  - by rewrite <- head_lookup.
  - by rewrite <- last_lookup.
Qed.

(** C2, as amended: whatever the order of the keys and of the successors
    ([g'] is any adjacency mapping with the edges of [g]) and whatever the
    depth the interpreter allows, the detector either raises
    [RecursionError], which it can only do when the graph has at least as
    many nodes as nested calls are allowed, or returns, and then for every
    node [v] on a directed cycle one of the cycles it returns is a directed
    cycle of the graph that lies in the strongly connected component of
    [v]. *)
Theorem detect_cycles_finds_component (limit : nat) (g g' : adjacency) (v : string) :
  (∀ a b, edge_of g' a b ↔ edge_of g a b) →
  on_cycle g v →
  (detect_cycles limit g' = Raise RecursionError ∧
   limit ≤ size (graph_nodes g')) ∨
  ∃ cycles c,
    detect_cycles limit g' = Ok cycles ∧ c ∈ cycles ∧ directed_cycle g c ∧
    ∀ z, z ∈ c → mutually_reachable g v z.
Proof.
  intros Hedges Hv.
  destruct (detect_cycles_limit limit g') as [?| ->]; [by left|right].
  destruct (detect_cycles_complete g') as (cycles & E & Hrep & Hdir).
  destruct (Hrep v) as (c & Hc & Hne & Hz).
  { eapply edge_of_ext_tc; [|exact Hv]. intros a b. symmetry. apply Hedges. }
  exists cycles, c. do 2 (split; [done|]).
  split; [eapply directed_cycle_ext; eauto|].
  intros z Hzc. destruct (Hz z Hzc) as [H1 H2].
  split; eapply edge_of_ext_rtc; eauto.
Qed.

(** The ring of [n] nodes needs [n + 1] nested calls. *)
Lemma node_name_inj i j : node_name i = node_name j → i = j.
Proof.
  revert j. induction i as [|i IH]; intros [|j]; simpl; try done.
  intros [= H]. f_equal. by apply IH.
Qed.

Lemma dict_get_names (val : nat → list string) a m i :
  a ≤ i < a + m →
  dict_get ((λ j, (node_name j, val j)) <$> seq a m) (node_name i) = Some (val i).
Proof.
  revert a. induction m as [|m IH]; intros a Hi; [lia|].
  simpl. case_decide as Hname.
  - by apply node_name_inj in Hname as ->.
  - apply IH. assert (a ≠ i) by (by intros ->). lia.
Qed.

Lemma ring_succ n i :
  i < n → graph_succ (ring n) (node_name i) = [node_name (S i mod n)].
Proof.
  intros Hi. unfold graph_succ, ring.
  rewrite (dict_get_names (λ j, [node_name (S j mod n)]) 0 n i); [done|lia].
Qed.

Lemma ring_on_cycle n : 0 < n → on_cycle (ring n) (node_name 0).
Proof.
  intros Hn.
  assert (Hreach : ∀ k, k < n → rtc (edge_of (ring n)) (node_name 0) (node_name k)).
  { induction k as [|k IH]; intros Hk; [done|].
    eapply rtc_r; [apply IH; lia|]. unfold edge_of.
    rewrite ring_succ by lia. rewrite Nat.mod_small by lia. by left. }
  eapply tc_rtc_l; [apply (Hreach (n - 1)); lia|]. apply tc_once.
  unfold edge_of. rewrite ring_succ by lia.
  replace (S (n - 1)) with n by lia. rewrite Nat.Div0.mod_same. by left.
Qed.

Lemma dfs_ring n depth i st :
  i + depth ≤ n →
  graph st = ring n →
  (∀ x, x ∈ visited st → ∃ j, j < i ∧ x = node_name j) →
  (∀ x, x ∈ rec_stack st → ∃ j, j < i ∧ x = node_name j) →
  dfs depth (node_name i) st = Raise RecursionError.
Proof.
  revert i st. induction depth as [|depth IH]; intros i st Hle Hg Hv Hr; [done|].
  simpl. rewrite decide_False; last first.
  { intros (j & Hj & Hname%node_name_inj)%Hr. lia. }
  rewrite decide_False; last first.
  { intros (j & Hj & Hname%node_name_inj)%Hv. lia. }
  unfold graph_getitem. cbn [graph enter].
  pose proof (ring_succ n i ltac:(lia)) as Hsucc.
  unfold graph_succ in Hsucc. rewrite Hg.
  destruct (dict_get (ring n) (node_name i)) as [succs|]; [|done].
  simpl in Hsucc. subst succs. cbn [for_each].
  destruct depth as [|depth]; [done|].
  rewrite Nat.mod_small by lia.
  rewrite (IH (S i)); [done|lia|done|..].
  - simpl. intros x [->%elem_of_singleton|(j & Hj & ->)%Hv]%elem_of_union.
    + exists i. split; [lia|done].
    + exists j. split; [lia|done].
  - simpl. intros x [->%elem_of_singleton|(j & Hj & ->)%Hr]%elem_of_union.
    + exists i. split; [lia|done].
    + exists j. split; [lia|done].
Qed.

Lemma detect_cycles_ring n limit :
  0 < n → limit ≤ n → detect_cycles limit (ring n) = Raise RecursionError.
Proof.
  intros Hn Hle. unfold detect_cycles, detect_cycles_run.
  destruct n as [|n]; [lia|].
  unfold ring at 1. rewrite <- cons_seq. cbn [fmap list_fmap dict_keys fst for_each].
  cbv beta. rewrite decide_False by (simpl; apply not_elem_of_empty).
  rewrite (dfs_ring (S n) limit 0); [done|lia|done|..].
  - simpl. by intros x ?%not_elem_of_empty.
  - simpl. by intros x ?%not_elem_of_empty.
Qed.

(** A hierarchy deeper than the interpreter allows: on the ring of 1500
    nodes, every node of which lies on a directed cycle, the detector returns
    no cycle under any limit up to 1000 nested calls; it raises
    [RecursionError]. *)
Lemma detect_cycles_finds_component_counterexample :
  on_cycle (ring 1500) (node_name 0) ∧
  ∀ limit, limit ≤ 1000 → detect_cycles limit (ring 1500) = Raise RecursionError.
Proof.
  split; [apply ring_on_cycle; lia|].
  intros limit Hle. apply detect_cycles_ring; lia.
Qed.

(** Two orders of one graph with the cycle A, B and the chord B -> C -> A,
    under the limit of 1000 nested calls. *)
Lemma detect_cycles_finds_component_witness :
  ∃ cycles c,
    detect_cycles 1000 [("C", ["A"]); ("B", ["C"; "A"]); ("A", ["B"])] = Ok cycles ∧
    c ∈ cycles ∧
    directed_cycle [("A", ["B"]); ("B", ["A"; "C"]); ("C", ["A"])] c ∧
    ∀ z, z ∈ c →
      mutually_reachable [("A", ["B"]); ("B", ["A"; "C"]); ("C", ["A"])] "A" z.
Proof.
  destruct (detect_cycles_finds_component 1000
              [("A", ["B"]); ("B", ["A"; "C"]); ("C", ["A"])]
              [("C", ["A"]); ("B", ["C"; "A"]); ("A", ["B"])] "A")
    as [[_ Hdeep]|Hfound].
  - intros a b. unfold edge_of, graph_succ. simpl.
    repeat case_decide; simplify_eq; simpl;
      rewrite ?elem_of_cons, ?elem_of_nil; tauto.
  - apply tc_l with "B".
    + unfold edge_of, graph_succ. simpl. apply elem_of_cons. by left.
    + apply tc_once. unfold edge_of, graph_succ. simpl. apply elem_of_cons. by left.
  - exfalso. vm_compute in Hdeep. lia.
  - exact Hfound.
Defined.

(** The graph [main] builds has the edges of the edge set. *)
Lemma graph_append_succ g s t a :
  graph_succ (graph_append g s t) a
  = if decide (a = s) then graph_succ g s ++ [t] else graph_succ g a.
Proof.
  unfold graph_succ. induction g as [|[k v] g IH]; simpl.
  - destruct (decide (a = s)) as [->|Hne].
    + by rewrite decide_True.
    + by rewrite decide_False by congruence.
  - destruct (decide (k = s)) as [->|Hks]; simpl.
    + destruct (decide (a = s)) as [->|Hne].
      * by rewrite !decide_True.
      * by rewrite !decide_False by congruence.
    + destruct (decide (k = a)) as [->|Hka].
      * by rewrite decide_False by congruence.
      * apply IH.
Qed.

Lemma graph_append_edges g s t a b :
  edge_of (graph_append g s t) a b ↔ edge_of g a b ∨ (a = s ∧ b = t).
Proof.
  unfold edge_of. rewrite graph_append_succ. case_decide as Ha.
  - subst a. rewrite elem_of_app, list_elem_of_singleton. naive_solver.
  - naive_solver.
Qed.

Lemma foldl_graph_append_edges es g a b :
  edge_of (foldl (λ graph e, graph_append graph e.1 e.2) g es) a b
  ↔ edge_of g a b ∨ (a, b) ∈ es.
Proof.
  revert g. induction es as [|[s t] es IH]; intros g; simpl.
  - rewrite elem_of_nil. tauto.
  - rewrite IH, graph_append_edges, elem_of_cons. naive_solver.
Qed.

Lemma build_graph_edges es a b : edge_of (build_graph es) a b ↔ (a, b) ∈ es.
Proof.
  unfold build_graph. rewrite foldl_graph_append_edges.
  unfold edge_of, graph_succ. simpl. rewrite elem_of_nil. tauto.
Qed.

(** On a graph without a directed cycle the detector reports nothing. *)
Lemma detect_cycles_acyclic g :
  (∀ v, ¬ on_cycle g v) → detect_cycles_deep g = Ok [].
Proof.
  intros Hacyclic. destruct (detect_cycles_complete g) as (cycles & E & _ & Hdir).
  destruct cycles as [|c cycles]; [done|]. exfalso.
  destruct (Hdir c) as (Hne & Hc); [by left|].
  destruct c as [|v c]; [done|].
  apply (Hacyclic v), (directed_cycle_on_cycle g (v :: c) v); [|done].
  apply Hdir. by left.
Qed.









(** ** The directed graphs *)

Lemma nx_empty_wf : nx_wf nx.empty.
Proof.
  split; simpl.
  - apply NoDup_nil_2.
  - intros v. rewrite lookup_empty. split; [by intros ?%elem_of_nil|by intros [??]].
  - intros u v. unfold nx_edge, nx.successors. simpl. rewrite lookup_empty.
    by intros ?%elem_of_nil.
Qed.

Lemma add_node_nodes G n v :
  v ∈ nx.nodes (nx.add_node G n) ↔ v = n ∨ v ∈ nx.nodes G.
Proof.
  unfold nx.add_node. case_decide; simpl.
  - split; [tauto|]. by intros [->|?].
  - rewrite elem_of_app, list_elem_of_singleton. tauto.
Qed.

Lemma add_node_successors G n u :
  nx_wf G → nx.successors (nx.add_node G n) u = nx.successors G u.
Proof.
  intros Hwf. unfold nx.add_node. case_decide as Hn; [done|].
  unfold nx.successors. simpl.
  destruct (decide (n = u)) as [->|Hne].
  - rewrite lookup_insert_eq. simpl.
    destruct (nx.adj G !! u) eqn:Hu; [|done].
    exfalso. apply Hn, (wf_adj G Hwf). by rewrite Hu.
  - by rewrite lookup_insert_ne.
Qed.

Lemma add_node_wf G n : nx_wf G → nx_wf (nx.add_node G n).
Proof.
  intros Hwf. split.
  - unfold nx.add_node. case_decide as Hn; simpl; [apply (wf_nodup G Hwf)|].
    apply NoDup_app. split; [apply (wf_nodup G Hwf)|]. split; [|apply NoDup_singleton].
    by intros x Hx ->%list_elem_of_singleton.
  - intros v. rewrite add_node_nodes. unfold nx.add_node.
    case_decide as Hn; simpl.
    + rewrite <- (wf_adj G Hwf). split; [by intros [->|?]|tauto].
    + rewrite lookup_insert_is_Some, (wf_adj G Hwf).
      destruct (decide (n = v)); split; naive_solver.
  - intros u v. unfold nx_edge. rewrite (add_node_successors G n u Hwf).
    intros H. apply add_node_nodes. right. by apply (wf_succ G Hwf u).
Qed.

Lemma add_edge_nodes G u v x :
  x ∈ nx.nodes (nx.add_edge G u v) ↔ x = u ∨ x = v ∨ x ∈ nx.nodes G.
Proof. unfold nx.add_edge. simpl. rewrite !add_node_nodes. tauto. Qed.

Lemma add_edge_edges G u v a b :
  nx_wf G →
  nx_edge (nx.add_edge G u v) a b ↔ nx_edge G a b ∨ (a = u ∧ b = v).
Proof.
  intros Hwf. unfold nx_edge, nx.add_edge, nx.successors at 1. simpl.
  pose proof (add_node_wf G u Hwf) as Hwf1.
  destruct (decide (u = a)) as [->|Hne].
  - rewrite lookup_insert_eq. simpl.
    rewrite (add_node_successors _ v a Hwf1), (add_node_successors _ a a Hwf).
    case_decide as Hv.
    + split; [tauto|]. by intros [?|[_ ->]].
    + rewrite elem_of_app, list_elem_of_singleton. naive_solver.
  - rewrite lookup_insert_ne by done.
    change (default [] (nx.adj (nx.add_node (nx.add_node G u) v) !! a))
      with (nx.successors (nx.add_node (nx.add_node G u) v) a).
    rewrite (add_node_successors _ v a Hwf1), (add_node_successors _ u a Hwf).
    naive_solver.
Qed.

Lemma add_edge_wf G u v : nx_wf G → nx_wf (nx.add_edge G u v).
Proof.
  intros Hwf.
  pose proof (add_node_wf _ v (add_node_wf G u Hwf)) as Hwf2.
  split.
  - apply (wf_nodup _ Hwf2).
  - intros x. unfold nx.add_edge. simpl.
    rewrite lookup_insert_is_Some, <- (wf_adj _ Hwf2), !add_node_nodes.
    destruct (decide (u = x)); naive_solver.
  - intros a b [Hab|[-> ->]]%add_edge_edges; [|apply add_edge_nodes; tauto|done].
    apply add_edge_nodes. right. right. by apply (wf_succ G Hwf a).
Qed.

Lemma add_edges_from_spec es G :
  nx_wf G →
  nx_wf (nx.add_edges_from G es) ∧
  (∀ a b, nx_edge (nx.add_edges_from G es) a b ↔ nx_edge G a b ∨ (a, b) ∈ es) ∧
  (∀ x, x ∈ nx.nodes G → x ∈ nx.nodes (nx.add_edges_from G es)).
Proof.
  revert G. induction es as [|[u v] es IH]; intros G Hwf; simpl.
  - split; [done|]. split; [|done]. intros a b. rewrite elem_of_nil. tauto.
  - destruct (IH (nx.add_edge G u v) (add_edge_wf G u v Hwf)) as (Hw & He & Hn).
    split; [done|]. split.
    + intros a b. rewrite He, add_edge_edges, elem_of_cons by done.
      split; [|naive_solver]. intros [[?|[-> ->]]|?]; auto.
    + intros x Hx. apply Hn, add_edge_nodes. tauto.
Qed.

(** The graph of an edge list: its edges are the listed pairs. *)
Lemma add_edges_from_empty es :
  let G := nx.add_edges_from nx.empty es in
  nx_wf G ∧ ∀ a b, nx_edge G a b ↔ (a, b) ∈ es.
Proof.
  destruct (add_edges_from_spec es nx.empty nx_empty_wf) as (Hw & He & _).
  split; [done|]. intros a b. rewrite He. unfold nx_edge, nx.successors. simpl.
  rewrite lookup_empty. simpl. rewrite elem_of_nil. tauto.
Qed.

Lemma nx_edge_source G u v : nx_wf G → nx_edge G u v → u ∈ nx.nodes G.
Proof.
  intros Hwf. unfold nx_edge, nx.successors. intros H.
  apply (wf_adj G Hwf). destruct (nx.adj G !! u); [done|by apply elem_of_nil in H].
Qed.

(** ** Breadth-first search *)

Lemma elem_of_expand G seen x :
  x ∈ nx.expand G seen ↔ x ∈ seen ∨ ∃ u, u ∈ seen ∧ nx_edge G u x.
Proof.
  unfold nx.expand, nx_edge. rewrite elem_of_union, elem_of_union_list.
  split; (intros [?|H]; [by left|right]).
  - destruct H as (X & HX & Hx). apply list_elem_of_fmap in HX as (u & -> & Hu).
    exists u. split; [by apply elem_of_elements|by apply elem_of_list_to_set in Hx].
  - destruct H as (u & Hu & Hx). exists (list_to_set (nx.successors G u)).
    split; [|by apply elem_of_list_to_set].
    apply list_elem_of_fmap. exists u. split; [done|by apply elem_of_elements].
Qed.

Lemma expand_subseteq G seen : seen ⊆ nx.expand G seen.
Proof. intros x Hx. apply elem_of_expand. by left. Qed.

Lemma closure_iter G k seen : nx.closure G k seen = Nat.iter k (nx.expand G) seen.
Proof.
  revert seen. induction k as [|k IH]; intros seen; [done|].
  simpl nx.closure. by rewrite IH, Nat.iter_succ_r.
Qed.

Lemma level_zero G s : level G s 0 = {[s]}.
Proof. done. Qed.

Lemma level_succ G s k : level G s (S k) = nx.expand G (level G s k).
Proof. done. Qed.

Lemma level_mono G s j k : j ≤ k → level G s j ⊆ level G s k.
Proof.
  induction 1 as [|k _ IH]; [done|].
  rewrite level_succ. etrans; [exact IH|apply expand_subseteq].
Qed.

Lemma level_source G s k : s ∈ level G s k.
Proof. apply (level_mono G s 0 k); [lia|]. rewrite level_zero. by apply elem_of_singleton. Qed.

(** A breadth-first search stays inside the graph. *)
Lemma level_nodes G s k :
  nx_wf G → s ∈ nx.nodes G → level G s k ⊆ list_to_set (nx.nodes G).
Proof.
  intros Hwf Hs. induction k as [|k IH].
  - rewrite level_zero. intros x ->%elem_of_singleton. by apply elem_of_list_to_set.
  - rewrite level_succ. intros x [Hx|(u & _ & Hx)]%elem_of_expand; [by apply IH|].
    apply elem_of_list_to_set. by apply (wf_succ G Hwf u).
Qed.

(** Every node of a level is reached from the source. *)
Lemma level_reach G s k x : x ∈ level G s k → rtc (nx_edge G) s x.
Proof.
  revert x. induction k as [|k IH]; intros x.
  - rewrite level_zero. by intros ->%elem_of_singleton.
  - rewrite level_succ. intros [Hx|(u & Hu & Hx)]%elem_of_expand; [by apply IH|].
    eapply rtc_r; [by apply IH|done].
Qed.

(** The levels are the nodes within a number of steps. *)
Lemma bsteps_split_r {A} (R : relation A) k x z :
  bsteps R (S k) x z → bsteps R k x z ∨ ∃ y, bsteps R k x y ∧ R y z.
Proof.
  revert x. induction k as [|k IH]; intros x H.
  - inversion H as [|? ? y ? Hxy Hyz]; subst; [left; constructor|].
    inversion Hyz; subst. right. exists x. split; [constructor|done].
  - inversion H as [|? ? y ? Hxy Hyz]; subst; [left; constructor|].
    destruct (IH y Hyz) as [Hl|(w & Hw & Hwz)].
    + left. by econstructor.
    + right. exists w. split; [by econstructor|done].
Qed.

Lemma level_bsteps G s k x : x ∈ level G s k ↔ bsteps (nx_edge G) k s x.
Proof.
  revert x. induction k as [|k IH]; intros x.
  - rewrite level_zero, elem_of_singleton. split.
    + intros ->. constructor.
    + by inversion 1.
  - rewrite level_succ, elem_of_expand. split.
    + intros [Hx|(u & Hu & Hx)].
      * apply bsteps_S. by apply IH.
      * eapply bsteps_r; [by apply IH|done].
    + intros [H|(y & Hy & Hyx)]%bsteps_split_r; [left; by apply IH|].
      right. exists y. split; [by apply IH|done].
Qed.

(** Within as many rounds as the graph has nodes the search reaches a set
    that a further round does not enlarge. *)
Lemma level_stabilizes G s k :
  (∃ j, j ≤ k ∧ nx.expand G (level G s j) = level G s j) ∨
  k + 1 ≤ size (level G s k).
Proof.
  induction k as [|k [(j & Hj & Hfix)|IH]].
  - right. rewrite level_zero. by rewrite size_singleton.
  - left. exists j. split; [lia|done].
  - destruct (decide (nx.expand G (level G s k) = level G s k)) as [Hfix|Hne].
    + left. exists k. split; [lia|done].
    + right. rewrite level_succ.
      assert (level G s k ⊂ nx.expand G (level G s k)) as Hlt.
      { split; [apply expand_subseteq|]. intros Hsub. apply Hne.
        apply set_eq. intros x. split; [apply Hsub|apply expand_subseteq]. }
      apply subset_size in Hlt. lia.
Qed.

Lemma level_fixed G s j k :
  nx.expand G (level G s j) = level G s j → j ≤ k → level G s k = level G s j.
Proof.
  intros Hfix. induction 1 as [|k _ IH]; [done|].
  by rewrite level_succ, IH.
Qed.

(** The last level holds every node the source reaches. *)
Lemma level_complete G s x :
  nx_wf G → s ∈ nx.nodes G → rtc (nx_edge G) s x →
  x ∈ level G s (length (nx.nodes G)).
Proof.
  intros Hwf Hs. revert x.
  set (n := length (nx.nodes G)).
  assert (Hfix : nx.expand G (level G s n) = level G s n).
  { destruct (level_stabilizes G s n) as [(j & Hj & Hfix)|Hsize].
    - by rewrite (level_fixed G s j n Hfix Hj).
    - pose proof (subseteq_size _ _ (level_nodes G s n Hwf Hs)).
      pose proof (size_list_to_set (C:=gset string) (nx.nodes G) (wf_nodup G Hwf)).
      unfold n in *. lia. }
  apply rtc_ind_r.
  - apply level_source.
  - intros y z _ Hyz IH. rewrite <- Hfix. apply elem_of_expand. right. by exists y.
Qed.

(** [nx.descendants]: the nodes other than the source that it reaches. *)
Lemma descendants_spec G s :
  nx_wf G → s ∈ nx.nodes G →
  nx.descendants G s = Ok (descendant_set G s) ∧
  ∀ x, x ∈ descendant_set G s ↔ x ≠ s ∧ rtc (nx_edge G) s x.
Proof.
  intros Hwf Hs. unfold nx.descendants. rewrite decide_True by done.
  split; [done|]. intros x. unfold descendant_set.
  rewrite closure_iter. fold (level G s (length (nx.nodes G))).
  rewrite elem_of_difference, elem_of_singleton. split.
  - intros [Hx Hne]. split; [done|]. by eapply level_reach.
  - intros [Hne Hx]. split; [|done]. by apply level_complete.
Qed.

Lemma descendants_not_node G s :
  s ∉ nx.nodes G → nx.descendants G s = Raise NetworkXError.
Proof. intros Hs. unfold nx.descendants. by rewrite decide_False. Qed.

Lemma layered_level G s seen earlier :
  layered G s seen earlier → seen = level G s (length earlier).
Proof.
  revert seen. induction earlier as [|prev rest IH]; intros seen; simpl; [done|].
  intros [-> Hrest]. by rewrite (IH prev Hrest).
Qed.

Lemma search_finds G t rounds seen earlier :
  t ∈ Nat.iter rounds (nx.expand G) seen →
  ∃ res, nx.search G t rounds seen earlier = Some res.
Proof.
  revert seen earlier. induction rounds as [|rounds IH]; intros seen earlier Ht.
  - simpl in *. rewrite decide_True by done. eauto.
  - simpl nx.search. case_decide; [eauto|]. apply IH. by rewrite <- Nat.iter_succ_r.
Qed.

Lemma search_sound G s t rounds seen earlier res :
  layered G s seen earlier →
  (∀ prev, head earlier = Some prev → t ∉ prev) →
  nx.search G t rounds seen earlier = Some res →
  ∃ seen', layered G s seen' res ∧ t ∈ seen' ∧
           ∀ prev, head res = Some prev → t ∉ prev.
Proof.
  revert seen earlier. induction rounds as [|rounds IH]; intros seen earlier Hl Hh.
  - simpl. case_decide; [|done]. intros [= <-]. eauto.
  - simpl. case_decide as Ht; [intros [= <-]; eauto|].
    apply IH; [done|]. simpl. by intros prev [= <-].
Qed.

Lemma walk_back_spec G s earlier seen node suffix :
  layered G s seen earlier → node ∈ seen →
  (∀ prev, head earlier = Some prev → node ∉ prev) →
  ∃ p, nx.walk_back G earlier node suffix = p ++ suffix ∧
       path_from_to (nx_edge G) s node p ∧ length p = S (length earlier).
Proof.
  revert seen node suffix.
  induction earlier as [|prev rest IH]; intros seen node suffix Hl Hn Hh; simpl in *.
  - subst seen. apply elem_of_singleton in Hn as ->.
    exists [s]. split; [done|]. split; [constructor|done].
  - destruct Hl as [-> Hrest].
    apply elem_of_expand in Hn as [Hn|(u & Hu & Hedge)]; [by destruct (Hh prev)|].
    destruct (find _ (elements prev)) as [u0|] eqn:Hfind.
    + apply find_some in Hfind as [Hu0 Hedge0].
      apply list_elem_of_In, elem_of_elements in Hu0.
      apply bool_decide_eq_true in Hedge0.
      destruct (IH prev u0 (node :: suffix) Hrest Hu0) as (p & -> & Hp & Hlen).
      { intros prev' Hprev' Hu0'. destruct rest as [|? rest']; [done|].
        simpl in Hprev'. injection Hprev' as <-. destruct Hrest as [-> _].
        apply (Hh _ eq_refl), elem_of_expand. right. by exists u0. }
      exists (p ++ [node]). split; [by rewrite <- app_assoc|].
      split; [by econstructor|]. rewrite length_app. simpl. lia.
    + exfalso. eapply find_none in Hfind; [|apply list_elem_of_In, elem_of_elements, Hu].
      by apply bool_decide_eq_false in Hfind.
Qed.

Lemma path_bsteps (E : relation string) s t q :
  path_from_to E s t q → 1 ≤ length q ∧ bsteps E (length q - 1) s t.
Proof.
  induction 1 as [|u t p _ [Hlen IH] Hut].
  - split; [done|]. constructor.
  - rewrite length_app. simpl. split; [lia|].
    replace (length p + 1 - 1) with (S (length p - 1)) by lia.
    by eapply bsteps_r.
Qed.

(** [nx.shortest_path]: a shortest path whenever the target is reached. *)
Lemma shortest_path_spec G s t :
  nx_wf G → s ∈ nx.nodes G → t ∈ nx.nodes G → rtc (nx_edge G) s t →
  ∃ p, nx.shortest_path G s t = Ok p ∧ shortest (nx_edge G) s t p.
Proof.
  intros Hwf Hs Ht Hreach. unfold nx.shortest_path.
  rewrite decide_True by done.
  destruct (search_finds G t (length (nx.nodes G)) {[s]} []) as [res Hres].
  { by apply (level_complete G s t). }
  rewrite Hres.
  destruct (search_sound G s t (length (nx.nodes G)) {[s]} [] res)
    as (seen' & Hl & Htin & Hh); [done|done|done|].
  destruct (walk_back_spec G s res seen' t [] Hl Htin Hh) as (p & -> & Hp & Hlen).
  rewrite app_nil_r. exists p. split; [done|]. split; [done|].
  intros q Hq. apply path_bsteps in Hq as [Hq1 Hq].
  destruct (decide (length p ≤ length q)) as [|Hlt]; [done|]. exfalso.
  destruct res as [|prev rest]; simpl in *; [lia|].
  destruct Hl as [_ Hrest]. apply layered_level in Hrest. subst prev.
  apply (Hh _ eq_refl).
  apply (level_mono G s (length q - 1)); [lia|]. by apply level_bsteps.
Qed.

(** ** The dominance-violation detector *)

Lemma reach_node G s x :
  nx_wf G → s ∈ nx.nodes G → rtc (nx_edge G) s x → x ∈ nx.nodes G.
Proof.
  intros Hwf Hs. revert x. apply rtc_ind_r; [done|].
  intros y z _ Hyz _. by apply (wf_succ G Hwf y).
Qed.

(** Line 116: the dictionary of the descendants of every node. *)
Lemma descendants_dict G ns (d0 : gmap string (gset string)) :
  nx_wf G → (∀ n, n ∈ ns → n ∈ nx.nodes G) →
  ∃ d,
    for_each (λ node d, ds ← nx.descendants G node; Ok (<[node := ds]> d)) ns d0
    = Ok d ∧
    ∀ v, d !! v = if decide (v ∈ ns) then Some (descendant_set G v) else d0 !! v.
Proof.
  intros Hwf. revert d0. induction ns as [|n ns IH]; intros d0 Hns.
  - exists d0. split; [done|]. intros v. by rewrite decide_False by apply not_elem_of_nil.
  - simpl. destruct (descendants_spec G n Hwf) as [-> _]; [apply Hns; by left|].
    simpl. destruct (IH (<[n := descendant_set G n]> d0)) as (d & -> & Hd).
    { intros m Hm. apply Hns. by right. }
    exists d. split; [done|]. intros v. rewrite Hd.
    destruct (decide (v ∈ ns)) as [Hv|Hv].
    + rewrite decide_True; [done|by right].
    + destruct (decide (v = n)) as [->|Hne].
      * rewrite decide_True by by left. by rewrite lookup_insert_eq.
      * rewrite decide_False by (rewrite elem_of_cons; tauto).
        by rewrite lookup_insert_ne.
Qed.

(** Lines 120-127: a pair is reported when each is a descendant of the
    other, with the two shortest paths put end to end. *)
Lemma check_pair_spec G (d : gmap string (gset string)) src dst vs :
  nx_wf G →
  (∀ v, v ∈ nx.nodes G → d !! v = Some (descendant_set G v)) →
  src ∈ nx.nodes G → dst ∈ descendant_set G src →
  ∃ new,
    check_pair G d src dst vs = Ok (vs ++ new) ∧
    pair_of <$> new
    = (if decide (src ∈ descendant_set G dst) then [(src, dst)] else []) ∧
    Forall (witnessed (nx_edge G)) new.
Proof.
  intros Hwf Hd Hsrc Hdst.
  apply (descendants_spec G src Hwf Hsrc) in Hdst as [Hne Hfwd].
  assert (Hdstn : dst ∈ nx.nodes G) by by eapply reach_node.
  unfold check_pair. rewrite (Hd dst Hdstn). simpl.
  case_decide as Hback.
  - apply (descendants_spec G dst Hwf Hdstn) in Hback as [_ Hback].
    destruct (shortest_path_spec G src dst Hwf Hsrc Hdstn Hfwd) as (p1 & -> & Hp1).
    destruct (shortest_path_spec G dst src Hwf Hdstn Hsrc Hback) as (p2 & -> & Hp2).
    simpl. eexists [_]. split; [done|]. split; [done|].
    apply Forall_singleton. by exists p1, p2.
  - exists []. rewrite app_nil_r. by repeat split.
Qed.

(** Line 119: the loop over the descendants of a source. *)
Lemma check_pairs_spec G (d : gmap string (gset string)) src dsts vs :
  nx_wf G →
  (∀ v, v ∈ nx.nodes G → d !! v = Some (descendant_set G v)) →
  src ∈ nx.nodes G → (∀ dst, dst ∈ dsts → dst ∈ descendant_set G src) →
  ∃ new,
    for_each (check_pair G d src) dsts vs = Ok (vs ++ new) ∧
    pair_of <$> new
    = (λ dst, (src, dst)) <$> filter (λ dst, src ∈ descendant_set G dst) dsts ∧
    Forall (witnessed (nx_edge G)) new.
Proof.
  intros Hwf Hd Hsrc. revert vs.
  induction dsts as [|dst dsts IH]; intros vs Hdsts.
  - exists []. rewrite app_nil_r. by repeat split.
  - simpl.
    destruct (check_pair_spec G d src dst vs Hwf Hd Hsrc) as (new1 & -> & Hp1 & Hw1).
    { apply Hdsts. by left. }
    simpl. destruct (IH (vs ++ new1)) as (new2 & -> & Hp2 & Hw2).
    { intros x Hx. apply Hdsts. by right. }
    exists (new1 ++ new2). split; [by rewrite app_assoc|].
    split; [|by apply Forall_app].
    rewrite fmap_app, Hp1, Hp2, filter_cons. by case_decide.
Qed.

Lemma dict_getitem_Some {V} (d : gmap string V) k v :
  d !! k = Some v → dict_getitem d k = Ok v.
Proof. unfold dict_getitem. by intros ->. Qed.

(** Line 118: the loop over the sources. *)
Lemma detect_loop_spec G (d : gmap string (gset string)) srcs vs :
  nx_wf G →
  (∀ v, v ∈ nx.nodes G → d !! v = Some (descendant_set G v)) →
  (∀ src, src ∈ srcs → src ∈ nx.nodes G) →
  ∃ new,
    for_each
      (λ src violations,
         dsts ← dict_getitem d src;
         for_each (check_pair G d src) (elements dsts) violations) srcs vs
    = Ok (vs ++ new) ∧
    pair_of <$> new = mutual_pairs G srcs ∧
    Forall (witnessed (nx_edge G)) new.
Proof.
  intros Hwf Hd. revert vs. induction srcs as [|src srcs IH]; intros vs Hsrcs.
  - exists []. rewrite app_nil_r. by repeat split.
  - cbn [for_each].
    rewrite (dict_getitem_Some d src (descendant_set G src))
      by (apply Hd, Hsrcs; by left).
    cbn [mbind result_bind].
    destruct (check_pairs_spec G d src (elements (descendant_set G src)) vs Hwf Hd)
      as (new1 & -> & Hp1 & Hw1).
    { apply Hsrcs. by left. }
    { intros dst. by rewrite elem_of_elements. }
    simpl. destruct (IH (vs ++ new1)) as (new2 & -> & Hp2 & Hw2).
    { intros x Hx. apply Hsrcs. by right. }
    exists (new1 ++ new2). split; [by rewrite app_assoc|].
    split; [|by apply Forall_app].
    by rewrite fmap_app, Hp1, Hp2.
Qed.

Lemma elem_of_mutual_pairs G srcs s t :
  (s, t) ∈ mutual_pairs G srcs ↔
  s ∈ srcs ∧ t ∈ descendant_set G s ∧ s ∈ descendant_set G t.
Proof.
  unfold mutual_pairs. rewrite list_elem_of_bind. split.
  - intros (src & Hst & Hsrc). apply list_elem_of_fmap in Hst as (dst & [= -> ->] & Hdst).
    apply list_elem_of_filter in Hdst as [? ?%elem_of_elements]. done.
  - intros (Hs & Ht & Hb). exists s. split; [|done].
    apply list_elem_of_fmap. exists t. split; [done|].
    apply list_elem_of_filter. split; [done|by apply elem_of_elements].
Qed.

Lemma NoDup_mutual_pairs G srcs : NoDup srcs → NoDup (mutual_pairs G srcs).
Proof.
  intros Hnd. unfold mutual_pairs. apply NoDup_bind; [| |done].
  - intros s1 s2 [a b] _ _ (? & [= -> ->] & _)%list_elem_of_fmap
      (? & [= -> _] & _)%list_elem_of_fmap. done.
  - intros s _. apply NoDup_fmap_2; [by intros ?? [= ->]|].
    apply NoDup_filter, NoDup_elements.
Qed.

Lemma path_from_to_ext (E E' : relation string) s t p :
  (∀ a b, E a b → E' a b) → path_from_to E s t p → path_from_to E' s t p.
Proof. intros H. induction 1; econstructor; eauto. Qed.

Lemma shortest_ext (E E' : relation string) s t p :
  (∀ a b, E a b ↔ E' a b) → shortest E s t p → shortest E' s t p.
Proof.
  intros H [Hp Hmin]. split.
  - eapply path_from_to_ext; [|done]. intros a b. apply H.
  - intros q Hq. apply Hmin. eapply path_from_to_ext; [|done]. intros a b. apply H.
Qed.

Lemma witnessed_ext (E E' : relation string) v :
  (∀ a b, E a b ↔ E' a b) → witnessed E v → witnessed E' v.
Proof.
  intros H (p1 & p2 & H1 & H2 & Hc). exists p1, p2.
  split; [by eapply shortest_ext|]. split; [by eapply shortest_ext|done].
Qed.

(** The detector on a well-formed graph. *)
Lemma detect_broader_violations_wf G :
  nx_wf G →
  ∃ violations,
    detect_broader_violations G = Ok violations ∧
    pair_of <$> violations = mutual_pairs G (nx.nodes G) ∧
    Forall (witnessed (nx_edge G)) violations.
Proof.
  intros Hwf. unfold detect_broader_violations.
  destruct (descendants_dict G (nx.nodes G) ∅ Hwf) as (d & -> & Hd); [done|].
  cbn [mbind result_bind].
  destruct (detect_loop_spec G d (nx.nodes G) [] Hwf) as (new & -> & Hp & Hw); [|done|].
  - intros v Hv. rewrite Hd. by rewrite decide_True.
  - by exists new.
Qed.

Lemma detect_broader_violations_returns es :
  ∃ violations,
    detect_broader_violations (nx.add_edges_from nx.empty es) = Ok violations.
Proof.
  destruct (add_edges_from_empty es) as [Hwf _].
  destruct (detect_broader_violations_wf _ Hwf) as (vs & E & _). eauto.
Qed.

(** C1: on the graph of any finite edge set (the edges in any order) the
    detector returns one violation for every ordered pair of distinct,
    mutually reachable nodes, none twice and none for another pair, so both
    [(s, t)] and [(t, s)] are there; the witness path of each is a shortest
    path from source to target followed by a shortest path back, the target
    not repeated. *)
Theorem detect_broader_violations_pairs (es : list edge) :
  let E := λ u v : string, (u, v) ∈ es in
  ∃ violations,
    detect_broader_violations (nx.add_edges_from nx.empty es) = Ok violations ∧
    NoDup (pair_of <$> violations) ∧
    (∀ s t, (s, t) ∈ pair_of <$> violations ↔ s ≠ t ∧ rtc E s t ∧ rtc E t s) ∧
    (∀ s t, (s, t) ∈ pair_of <$> violations → (t, s) ∈ pair_of <$> violations) ∧
    Forall (witnessed E) violations.
Proof.
  intros E. destruct (add_edges_from_empty es) as [Hwf Hedges].
  set (G := nx.add_edges_from nx.empty es) in *.
  destruct (detect_broader_violations_wf G Hwf) as (vs & -> & Hpairs & Hw).
  exists vs. split; [done|]. rewrite Hpairs.
  assert (Hrtc : ∀ a b, rtc (nx_edge G) a b ↔ rtc E a b).
  { intros a b. split; apply rtc_subrel; intros ??; by apply Hedges. }
  assert (Hchar : ∀ s t, (s, t) ∈ mutual_pairs G (nx.nodes G)
                         ↔ s ≠ t ∧ rtc E s t ∧ rtc E t s).
  { intros s t. rewrite elem_of_mutual_pairs. split.
    - intros (Hs & Ht & Hb).
      apply (descendants_spec G s Hwf Hs) in Ht as [Hne Hst].
      assert (Htn : t ∈ nx.nodes G) by by eapply reach_node.
      apply (descendants_spec G t Hwf Htn) in Hb as [_ Hts].
      split; [by intros ->|]. split; by apply Hrtc.
    - intros (Hne & Hst%Hrtc & Hts%Hrtc).
      assert (Hs : s ∈ nx.nodes G).
      { apply rtc_inv in Hst as [->|(y & Hy & _)]; [done|].
        by eapply nx_edge_source. }
      assert (Htn : t ∈ nx.nodes G) by by eapply reach_node.
      split; [done|]. split.
      + by apply (descendants_spec G s Hwf Hs).
      + apply (descendants_spec G t Hwf Htn). split; [by intros ->|done]. }
  split; [apply NoDup_mutual_pairs, (wf_nodup G Hwf)|].
  split; [done|]. split.
  - intros s t (Hne & Hst & Hts)%Hchar. apply Hchar. split; [by intros ->|done].
  - eapply Forall_impl; [exact Hw|]. intros v. apply witnessed_ext.
    intros a b. apply Hedges.
Qed.

(** The minimal mutual pair: both orders are reported, each with its path
    there and back. *)
Lemma detect_broader_violations_pairs_witness :
  detect_broader_violations (nx.add_edges_from nx.empty [("A", "B"); ("B", "A")])
  = Ok [ {| source := "A"; target := "B"; cycle := ["A"; "B"; "A"] |};
         {| source := "B"; target := "A"; cycle := ["B"; "A"; "B"] |} ] ∧
  ∃ violations,
    detect_broader_violations (nx.add_edges_from nx.empty [("A", "B"); ("B", "A")])
    = Ok violations ∧
    ("A", "B") ∈ pair_of <$> violations ∧ ("B", "A") ∈ pair_of <$> violations ∧
    Forall (witnessed (λ u v, (u, v) ∈ [("A", "B"); ("B", "A")])) violations.
Proof.
  split; [by vm_compute|].
  destruct (detect_broader_violations_pairs [("A", "B"); ("B", "A")])
    as (vs & E & _ & Hchar & Hsym & Hw).
  exists vs. split; [exact E|].
  assert (H : ("A", "B") ∈ pair_of <$> vs).
  { apply Hchar. split; [discriminate|].
    split; apply rtc_once; [apply list_elem_of_here|].
    apply list_elem_of_further, list_elem_of_here. }
  split; [exact H|]. split; [exact (Hsym _ _ H)|exact Hw].
Defined.

(** A strict chain has no violation. *)
Example detect_broader_violations_chain :
  detect_broader_violations
    (nx.add_edges_from nx.empty [("A", "B"); ("B", "C"); ("C", "D")]) = Ok [].
Proof. by vm_compute. Qed.

(** ** The statistics *)

Lemma dict_get_set_ne {V} (d : list (string * V)) k k' v :
  k ≠ k' → dict_get (dict_set d k' v) k = dict_get d k.
Proof.
  intros Hne. induction d as [|[k0 v0] d IH]; simpl.
  - by rewrite decide_False by congruence.
  - destruct (decide (k0 = k')) as [->|Hk0]; simpl.
    + by rewrite !decide_False by congruence.
    + case_decide; [done|apply IH].
Qed.

(** What a line does to the hierarchy edges. *)
Lemma step_parent_child st l :
  parent_child_edges (step st l)
  = match hierarchy_edge l with
    | Some e => {[e]} ∪ parent_child_edges st
    | None => parent_child_edges st
    end.
Proof.
  unfold step, hierarchy_edge. destruct (record_of_line l) as [[[s r] t]|]; [|done].
  unfold classify. repeat case_decide; simplify_eq; done.
Qed.

Lemma hierarchy_edge_record l e : hierarchy_edge l = Some e → hierarchy_record l.
Proof.
  unfold hierarchy_edge, hierarchy_record.
  destruct (record_of_line l) as [[[s r] t]|]; [|done].
  repeat case_decide; naive_solver.
Qed.

Lemma hierarchy_self_loop_record l :
  hierarchy_self_loop l → hierarchy_record l ∧ hierarchy_edge l = None.
Proof.
  intros (s & r & Hl & Hr). unfold hierarchy_record, hierarchy_edge. rewrite Hl.
  split; [done|]. by rewrite decide_True.
Qed.

Lemma hierarchy_records_cons l lines :
  hierarchy_records (l :: lines)
  = (if decide (hierarchy_record l) then 1 else 0) + hierarchy_records lines.
Proof. unfold hierarchy_records. rewrite filter_cons. by case_decide. Qed.

(** The hierarchy edge set grows by at most one per hierarchy record, and by
    less when a record is redundant. *)
Lemma steps_parent_child_size lines st :
  size (parent_child_edges (foldl step st lines))
  ≤ size (parent_child_edges st) + hierarchy_records lines ∧
  (redundant (parent_child_edges st) lines →
   size (parent_child_edges (foldl step st lines))
   < size (parent_child_edges st) + hierarchy_records lines).
Proof.
  revert st. induction lines as [|l lines IH]; intros st.
  { simpl. split; [unfold hierarchy_records; simpl; lia|].
    intros [(l & Hl & _)|[(i & j & l1 & l2 & e & _ & Hi & _)|(l & e & Hl & _)]].
    - by apply elem_of_nil in Hl.
    - done.
    - by apply elem_of_nil in Hl. }
  simpl. destruct (IH (step st l)) as [Hle Hlt].
  rewrite hierarchy_records_cons. pose proof (step_parent_child st l) as Hstep.
  destruct (hierarchy_edge l) as [e|] eqn:He.
  - rewrite decide_True by by eapply hierarchy_edge_record.
    assert (Hsz : size (parent_child_edges (step st l))
                  ≤ size (parent_child_edges st) + 1).
    { rewrite Hstep, size_union_alt, size_singleton.
      assert (parent_child_edges st ∖ {[e]} ⊆ parent_child_edges st) as Hsub
        by set_solver.
      apply subseteq_size in Hsub. lia. }
    split; [lia|].
    intros [(l' & Hl' & Hsl)|[(i & j & l1 & l2 & e' & Hij & Hi & Hj & H1 & H2)|(l' & e' & Hl' & He' & Hin)]].
    + apply elem_of_cons in Hl' as [->|Hl'].
      * apply hierarchy_self_loop_record in Hsl as [_ Hnone]. congruence.
      * assert (redundant (parent_child_edges (step st l)) lines) as Hr%Hlt; [|lia].
        left. eauto.
    + assert (redundant (parent_child_edges (step st l)) lines) as Hr%Hlt; [|lia].
      destruct i as [|i].
      * simpl in Hi. injection Hi as <-. destruct j as [|j]; [lia|]. simpl in Hj.
        right. right. exists l2, e'. split; [by eapply list_elem_of_lookup_2|].
        split; [done|]. rewrite Hstep. assert (e = e') as -> by congruence.
        set_solver.
      * destruct j as [|j]; [lia|]. simpl in Hi, Hj.
        right. left. exists i, j, l1, l2, e'. split; [lia|done].
    + apply elem_of_cons in Hl' as [->|Hl'].
      * assert (e = e') as -> by congruence.
        assert (parent_child_edges (step st l) = parent_child_edges st) as Heq.
        { rewrite Hstep. set_solver. }
        rewrite Heq in Hle. lia.
      * assert (redundant (parent_child_edges (step st l)) lines) as Hr%Hlt; [|lia].
        right. right. exists l', e'. split; [done|]. split; [done|].
        rewrite Hstep. set_solver.
  - rewrite Hstep in Hle, Hlt. split; [lia|].
    intros [(l' & Hl' & Hsl)|[(i & j & l1 & l2 & e' & Hij & Hi & Hj & H1 & H2)|(l' & e' & Hl' & He' & Hin)]].
    + apply elem_of_cons in Hl' as [->|Hl'].
      * apply hierarchy_self_loop_record in Hsl as [Hrec _].
        rewrite decide_True by done. lia.
      * assert (redundant (parent_child_edges st) lines) as Hr%Hlt; [|lia].
        left. eauto.
    + assert (redundant (parent_child_edges st) lines) as Hr%Hlt; [|lia].
      destruct i as [|i]; [simpl in Hi; congruence|].
      destruct j as [|j]; [lia|]. simpl in Hi, Hj.
      right. left. exists i, j, l1, l2, e'. split; [lia|done].
    + apply elem_of_cons in Hl' as [->|Hl']; [congruence|].
      assert (redundant (parent_child_edges st) lines) as Hr%Hlt; [|lia].
      right. right. eauto.
Qed.

(** What [main] does, for every input that can be read: it raises
    [RecursionError], which it can only do when the hierarchy analysis is
    requested and the hierarchy has at least as many nodes as nested calls
    are allowed, or it reaches [save_results] with what the two detectors
    return. *)
Lemma main_outcome lines type clock limit :
  let st := foldl step parse_init lines in
  (too_deep limit type st ∧
   main (Readable lines) type clock limit = Raise RecursionError) ∨
  ∃ cycles violations,
    (type = broader_than → cycles = []) ∧
    (type ≠ broader_than →
     detect_cycles_deep (build_graph (elements (parent_child_edges st)))
     = Ok cycles) ∧
    (type = parent_child → violations = []) ∧
    (type ≠ parent_child →
     detect_broader_violations
       (nx.add_edges_from nx.empty (elements (broader_than_edges st)))
     = Ok violations) ∧
    main (Readable lines) type clock limit = Ok {|
      report_cycles := cycles;
      report_violations := violations;
      report_duplicates := duplicate_edges st;
      report_self_loops := self_loops st;
      report_stats :=
        initial_stats st ++ cycle_stats type clock cycles
        ++ violation_stats type clock violations
        ++ [("Total Runtime (s)", Seconds (total_time clock))];
    |}.
Proof.
  intros st. unfold main. rewrite parse_mrrel_lines. cbn [mbind result_bind].
  fold st.
  set (g := build_graph (elements (parent_child_edges st))).
  destruct (detect_cycles_complete g) as (cycles & Ec & _).
  destruct (detect_broader_violations_returns (elements (broader_than_edges st)))
    as (vs & Ev).
  unfold analyze_parent_child, analyze_broader_than, too_deep. fold g.
  destruct type.
  - destruct (detect_cycles_limit limit g) as [[-> Hdeep]| ->].
    { left. by split. }
    right. rewrite Ec, ?Ev. cbn [mbind result_bind].
    exists cycles, []. do 4 (split; [done|]). reflexivity.
  - right. rewrite ?Ev. cbn [mbind result_bind].
    exists [], vs. do 4 (split; [done|]). reflexivity.
  - destruct (detect_cycles_limit limit g) as [[-> Hdeep]| ->].
    { left. by split. }
    right. rewrite Ec, ?Ev. cbn [mbind result_bind].
    exists cycles, vs. do 4 (split; [done|]). reflexivity.
Qed.

(** A key lookup in the statistics [main] hands over. *)
Ltac stat_keys :=
  unfold initial_stats, cycle_stats, violation_stats; cbn [app dict_get];
  repeat (rewrite decide_False by discriminate);
  rewrite ?decide_True by reflexivity; try reflexivity.

(** C8: for every input that can be read, every requested analysis and every
    depth the interpreter allows, [main] either raises [RecursionError],
    which it can only do when the hierarchy analysis is requested and the
    hierarchy has at least as many nodes as nested calls are allowed, or
    reaches [save_results], and then the statistic "Total Parent-Child
    Relationships" it hands over is the number of edges in the hierarchy edge
    set of [parse_mrrel]; that number is at most the number of raw hierarchy
    records, and smaller as soon as the input has a hierarchy self-loop or
    asserts a hierarchy edge twice. *)
Theorem main_total_parent_child (lines : list string) (type : analysis_type)
    (clock : timings) (limit : nat) :
  ∃ st,
    parse_mrrel (Readable lines) = Ok st ∧
    size (parent_child_edges st) ≤ hierarchy_records lines ∧
    (redundant ∅ lines → size (parent_child_edges st) < hierarchy_records lines) ∧
    ((too_deep limit type st ∧
      main (Readable lines) type clock limit = Raise RecursionError) ∨
     ∃ r,
       main (Readable lines) type clock limit = Ok r ∧
       dict_get (report_stats r) "Total Parent-Child Relationships"
       = Some (Count (size (parent_child_edges st)))).
Proof.
  exists (foldl step parse_init lines). split; [apply parse_mrrel_lines|].
  destruct (steps_parent_child_size lines parse_init) as [Hle Hlt].
  change (parent_child_edges parse_init) with (∅ : gset edge) in Hle, Hlt.
  rewrite size_empty in Hle, Hlt.
  split; [done|]. split; [done|].
  destruct (main_outcome lines type clock limit)
    as [?|(cycles & vs & _ & _ & _ & _ & E)]; [by left|right].
  eexists. split; [exact E|]. cbn [report_stats]. stat_keys.
Qed.

(** An input with a duplicate assertion and a self-loop, under the limit of
    1000 nested calls: three raw hierarchy records, one hierarchy edge, and
    the statistic is 1. *)
Lemma main_total_parent_child_witness :
  ∃ r,
    main (Readable ["C1|A1|AUI|CHD|C2|A2|AUI|"; "C2|A2|AUI|PAR|C1|A1|AUI|";
                    "C5|A5|AUI|PAR|C5|A5|AUI|"])
      both {| pc_time := 0; bt_time := 0; total_time := 0 |} 1000 = Ok r ∧
    dict_get (report_stats r) "Total Parent-Child Relationships" = Some (Count 1) ∧
    hierarchy_records ["C1|A1|AUI|CHD|C2|A2|AUI|"; "C2|A2|AUI|PAR|C1|A1|AUI|";
                       "C5|A5|AUI|PAR|C5|A5|AUI|"] = 3.
Proof.
  destruct (main_total_parent_child
              ["C1|A1|AUI|CHD|C2|A2|AUI|"; "C2|A2|AUI|PAR|C1|A1|AUI|";
               "C5|A5|AUI|PAR|C5|A5|AUI|"]
              both {| pc_time := 0; bt_time := 0; total_time := 0 |} 1000)
    as (st & E1 & _ & _ & [[[_ Hdeep] _]|(r & E2 & Hs)]).
  - exfalso. injection E1 as <-. vm_compute in Hdeep. lia.
  - exists r. split; [exact E2|]. split; [|by vm_compute].
    rewrite Hs. injection E1 as <-. by vm_compute.
Defined.

(** * Further properties *)

(** ** The edge classifier in closed form *)

Lemma step_line_parent_child st l :
  parent_child_edges (step st l) = line_parent_child l ∪ parent_child_edges st.
Proof.
  rewrite step_parent_child. unfold line_parent_child.
  destruct (hierarchy_edge l); [done|]. by rewrite (left_id_L ∅ (∪)).
Qed.

Lemma step_line_broader_than st l :
  broader_than_edges (step st l) = line_broader_than l ∪ broader_than_edges st.
Proof.
  unfold step, line_broader_than, dominance_edge.
  destruct (record_of_line l) as [[[s r] t]|]; [|by rewrite (left_id_L ∅ (∪))].
  unfold classify. repeat case_decide; simplify_eq; simpl;
    by rewrite ?(left_id_L ∅ (∪)).
Qed.

Lemma step_line_self_loops st l :
  self_loops (step st l) = line_self_loops l ∪ self_loops st.
Proof.
  unfold step, line_self_loops.
  destruct (record_of_line l) as [[[s r] t]|]; [|by rewrite (left_id_L ∅ (∪))].
  unfold classify. repeat case_decide; simplify_eq; simpl;
    by rewrite ?(left_id_L ∅ (∪)).
Qed.

Lemma step_line_relationship_types st l :
  relationship_types (step st l)
  = line_relationship_types l ∪ relationship_types st.
Proof.
  unfold step, line_relationship_types.
  destruct (record_of_line l) as [[[s r] t]|]; [|by rewrite (left_id_L ∅ (∪))].
  unfold classify. repeat case_decide; simplify_eq; done.
Qed.

(** A set that every line adds to holds what the lines added. *)
Lemma steps_set `{Countable A} (f : parse_state → gset A) (g : string → gset A) :
  (∀ st l, f (step st l) = g l ∪ f st) →
  ∀ lines st x,
    x ∈ f (foldl step st lines) ↔ x ∈ f st ∨ ∃ l, l ∈ lines ∧ x ∈ g l.
Proof.
  intros Hstep lines. induction lines as [|l lines IH]; intros st x; simpl.
  - split; [by left|]. intros [?|(l & Hl & _)]; [done|by apply elem_of_nil in Hl].
  - rewrite IH, Hstep, elem_of_union. split.
    + intros [[Hx|Hx]|(l' & Hl' & Hx)]; [right|by left|right].
      * exists l. split; [by left|done].
      * exists l'. split; [by right|done].
    + intros [Hx|(l' & [->|Hl']%elem_of_cons & Hx)]; [left; by right| |right].
      * left. by left.
      * by exists l'.
Qed.

Lemma hierarchy_edge_Some l e :
  hierarchy_edge l = Some e ↔
  ∃ s t, s ≠ t ∧ ((record_of_line l = Some (s, "CHD", t) ∧ e = (t, s)) ∨
                  (record_of_line l = Some (s, "PAR", t) ∧ e = (s, t))).
Proof.
  unfold hierarchy_edge. destruct (record_of_line l) as [[[s r] t]|].
  - repeat case_decide; split; try naive_solver.
  - split; [done|]. naive_solver.
Qed.

Lemma dominance_edge_Some l e :
  dominance_edge l = Some e ↔
  ∃ s t, s ≠ t ∧ ((record_of_line l = Some (s, "RB", t) ∧ e = (s, t)) ∨
                  (record_of_line l = Some (s, "RN", t) ∧ e = (t, s))).
Proof.
  unfold dominance_edge. destruct (record_of_line l) as [[[s r] t]|].
  - repeat case_decide; split; try naive_solver.
  - split; [done|]. naive_solver.
Qed.

(** X1: the two edge sets in closed form. After any input, an edge is in the
    hierarchy set exactly when some line has distinct stripped source [s] and
    target [t] and either the code "CHD" with the edge [(t, s)] or the code
    "PAR" with the edge [(s, t)]; it is in the dominance set exactly when
    some such line has "RB" with [(s, t)] or "RN" with [(t, s)]. *)
Theorem parse_mrrel_edge_sets (lines : list string) :
  ∃ st,
    parse_mrrel (Readable lines) = Ok st ∧
    (∀ e, e ∈ parent_child_edges st ↔
          ∃ l s t, l ∈ lines ∧ s ≠ t ∧
            ((record_of_line l = Some (s, "CHD", t) ∧ e = (t, s)) ∨
             (record_of_line l = Some (s, "PAR", t) ∧ e = (s, t)))) ∧
    (∀ e, e ∈ broader_than_edges st ↔
          ∃ l s t, l ∈ lines ∧ s ≠ t ∧
            ((record_of_line l = Some (s, "RB", t) ∧ e = (s, t)) ∨
             (record_of_line l = Some (s, "RN", t) ∧ e = (t, s)))).
Proof.
  eexists. rewrite parse_mrrel_lines. split; [reflexivity|]. split; intros e.
  - rewrite (steps_set parent_child_edges line_parent_child step_line_parent_child).
    simpl. rewrite elem_of_empty. split.
    + intros [[]|(l & Hl & He)]. unfold line_parent_child in He.
      destruct (hierarchy_edge l) as [e'|] eqn:Hh; [|by apply elem_of_empty in He].
      apply elem_of_singleton in He as ->.
      apply hierarchy_edge_Some in Hh as (s & t & ?). by exists l, s, t.
    + intros (l & s & t & Hl & Hh). right. exists l. split; [done|].
      unfold line_parent_child.
      assert (hierarchy_edge l = Some e) as ->
        by (apply hierarchy_edge_Some; by exists s, t).
      by apply elem_of_singleton.
  - rewrite (steps_set broader_than_edges line_broader_than step_line_broader_than).
    simpl. rewrite elem_of_empty. split.
    + intros [[]|(l & Hl & He)]. unfold line_broader_than in He.
      destruct (dominance_edge l) as [e'|] eqn:Hh; [|by apply elem_of_empty in He].
      apply elem_of_singleton in He as ->.
      apply dominance_edge_Some in Hh as (s & t & ?). by exists l, s, t.
    + intros (l & s & t & Hl & Hh). right. exists l. split; [done|].
      unfold line_broader_than.
      assert (dominance_edge l = Some e) as ->
        by (apply dominance_edge_Some; by exists s, t).
      by apply elem_of_singleton.
Qed.

(** The self-loops after a whole input. *)
Lemma steps_self_loops_closed lines s r :
  (s, r) ∈ self_loops (foldl step parse_init lines)
  ↔ ∃ l, l ∈ lines ∧ record_of_line l = Some (s, r, s).
Proof.
  rewrite (steps_set self_loops line_self_loops step_line_self_loops).
  simpl. rewrite elem_of_empty. split.
  - intros [[]|(l & Hl & Hr)]. unfold line_self_loops in Hr.
    destruct (record_of_line l) as [[[s' r'] t]|] eqn:Hrec;
      [|by apply elem_of_empty in Hr].
    case_decide; [|by apply elem_of_empty in Hr].
    apply elem_of_singleton in Hr as [= -> ->]. subst t. by exists l.
  - intros (l & Hl & Hrec). right. exists l. split; [done|].
    unfold line_self_loops. rewrite Hrec, decide_True by done.
    by apply elem_of_singleton.
Qed.

(** X2: the relation codes and the self-loops in closed form. Every line of
    at least five fields records its stripped relation code, whether the code
    is one of the four known ones or not and whether the record is a
    self-loop or not; the self-loop set holds [(s, r)] exactly when some line
    reads as the record [(s, r, s)]. *)
Theorem parse_mrrel_codes_and_loops (lines : list string) :
  ∃ st,
    parse_mrrel (Readable lines) = Ok st ∧
    (∀ r, r ∈ relationship_types st ↔
          ∃ l s t, l ∈ lines ∧ record_of_line l = Some (s, r, t)) ∧
    (∀ s r, (s, r) ∈ self_loops st ↔
            ∃ l, l ∈ lines ∧ record_of_line l = Some (s, r, s)).
Proof.
  eexists. rewrite parse_mrrel_lines. split; [reflexivity|]. split.
  - intros r.
    rewrite (steps_set relationship_types line_relationship_types
               step_line_relationship_types).
    simpl. rewrite elem_of_empty. split.
    + intros [[]|(l & Hl & Hr)]. unfold line_relationship_types in Hr.
      destruct (record_of_line l) as [[[s r'] t]|] eqn:Hrec;
        [|by apply elem_of_empty in Hr].
      apply elem_of_singleton in Hr as ->. by exists l, s, t.
    + intros (l & s & t & Hl & Hrec). right. exists l. split; [done|].
      unfold line_relationship_types. rewrite Hrec. by apply elem_of_singleton.
  - intros s r. apply steps_self_loops_closed.
Qed.


(** ** Order and concatenation of the input *)

Lemma parse_state_eq st1 st2 :
  parent_child_edges st1 = parent_child_edges st2 →
  broader_than_edges st1 = broader_than_edges st2 →
  duplicate_edges st1 = duplicate_edges st2 →
  self_loops st1 = self_loops st2 →
  relationship_types st1 = relationship_types st2 →
  st1 = st2.
Proof. destruct st1, st2; simpl; intros; by subst. Qed.

Lemma steps_set_perm `{Countable A} (f : parse_state → gset A) g st lines lines' :
  (∀ st l, f (step st l) = g l ∪ f st) →
  lines ≡ₚ lines' →
  f (foldl step st lines) = f (foldl step st lines').
Proof.
  intros Hstep Hperm. apply set_eq. intros x. rewrite !(steps_set f g Hstep).
  by setoid_rewrite Hperm.
Qed.

Lemma steps_set_app `{Countable A} (f : parse_state → gset A) g lines1 lines2 :
  (∀ st l, f (step st l) = g l ∪ f st) →
  f parse_init = ∅ →
  f (foldl step parse_init (lines1 ++ lines2))
  = f (foldl step parse_init lines1) ∪ f (foldl step parse_init lines2).
Proof.
  intros Hstep Hinit. apply set_eq. intros x.
  rewrite elem_of_union, !(steps_set f g Hstep), Hinit.
  setoid_rewrite elem_of_app. setoid_rewrite elem_of_empty. naive_solver.
Qed.

Lemma assertions_app e lines1 lines2 :
  assertions e (lines1 ++ lines2) = assertions e lines1 + assertions e lines2.
Proof. unfold assertions. by rewrite filter_app, length_app. Qed.

Lemma assertions_perm e lines lines' :
  lines ≡ₚ lines' → assertions e lines = assertions e lines'.
Proof. intros Hperm. unfold assertions. by rewrite Hperm. Qed.

Lemma assertions_singleton e l :
  assertions e [l] = if decide (asserted_edge l = Some e) then 1 else 0.
Proof.
  unfold assertions. rewrite filter_cons, filter_nil. by case_decide.
Qed.

Lemma parse_count lines e :
  count (duplicate_edges (foldl step parse_init lines)) e = assertions e lines.
Proof. by rewrite steps_count. Qed.

Lemma step_lookup st l e :
  duplicate_edges (step st l) !! e
  = if decide (asserted_edge l = Some e)
    then Some (count (duplicate_edges st) e + 1)
    else duplicate_edges st !! e.
Proof.
  unfold step, asserted_edge.
  destruct (record_of_line l) as [[[s r] t]|]; [|by rewrite decide_False by done].
  destruct (classify_cases st s r t)
    as [[-> ->]|[(?&->&->)|[(?&->&->)|[(?&->&->)|[(?&->&->)|(?&Hn&->)]]]]];
    unfold canonical_edge in *; simpl; unfold counter_incr;
    repeat (case_decide; simplify_eq; try done);
    rewrite ?lookup_insert_eq; try done;
    try (rewrite lookup_insert_ne; [done|congruence]).
Qed.

(** The counter after a whole input: a key for each asserted edge, holding
    the number of its assertions. *)
Lemma parse_lookup lines e :
  duplicate_edges (foldl step parse_init lines) !! e
  = if decide (assertions e lines = 0) then None else Some (assertions e lines).
Proof.
  induction lines as [|l lines IH] using rev_ind; [done|].
  rewrite foldl_step_app. simpl. rewrite step_lookup, parse_count, IH.
  rewrite assertions_app, assertions_singleton.
  repeat case_decide; simpl in *; rewrite ?Nat.add_0_r in *; try done; try lia.
Qed.

(** X3: the order of the lines of the input does not matter. Two inputs with
    the same lines in a different order give the same five results, the
    counter included. *)
Theorem parse_mrrel_order_irrelevant (lines lines' : list string) :
  lines ≡ₚ lines' →
  parse_mrrel (Readable lines) = parse_mrrel (Readable lines').
Proof.
  intros Hperm. rewrite !parse_mrrel_lines. f_equal. apply parse_state_eq.
  - by apply (steps_set_perm _ _ _ _ _ step_line_parent_child).
  - by apply (steps_set_perm _ _ _ _ _ step_line_broader_than).
  - apply map_eq. intros e. by rewrite !parse_lookup, (assertions_perm e _ _ Hperm).
  - by apply (steps_set_perm _ _ _ _ _ step_line_self_loops).
  - by apply (steps_set_perm _ _ _ _ _ step_line_relationship_types).
Qed.

Lemma parse_mrrel_order_irrelevant_witness :
  parse_mrrel (Readable ["C1|a|b|CHD|C2|"; "C3|a|b|RB|C4|"; "C1|a|b|CHD|C2|"])
  = parse_mrrel (Readable ["C3|a|b|RB|C4|"; "C1|a|b|CHD|C2|"; "C1|a|b|CHD|C2|"]).
Proof. apply parse_mrrel_order_irrelevant. apply perm_swap. Defined.

(** X4: parsing a concatenation. The four sets of the input [lines1 ++
    lines2] are the unions of the sets of the two parts, and every counter
    entry is the sum of the entries of the two parts. *)
Theorem parse_mrrel_append (lines1 lines2 : list string) :
  ∃ st1 st2 st,
    parse_mrrel (Readable lines1) = Ok st1 ∧
    parse_mrrel (Readable lines2) = Ok st2 ∧
    parse_mrrel (Readable (lines1 ++ lines2)) = Ok st ∧
    parent_child_edges st = parent_child_edges st1 ∪ parent_child_edges st2 ∧
    broader_than_edges st = broader_than_edges st1 ∪ broader_than_edges st2 ∧
    self_loops st = self_loops st1 ∪ self_loops st2 ∧
    relationship_types st = relationship_types st1 ∪ relationship_types st2 ∧
    ∀ e, count (duplicate_edges st) e
         = count (duplicate_edges st1) e + count (duplicate_edges st2) e.
Proof.
  do 3 eexists. rewrite !parse_mrrel_lines.
  do 3 (split; [reflexivity|]).
  split; [by apply (steps_set_app _ _ _ _ step_line_parent_child)|].
  split; [by apply (steps_set_app _ _ _ _ step_line_broader_than)|].
  split; [by apply (steps_set_app _ _ _ _ step_line_self_loops)|].
  split; [by apply (steps_set_app _ _ _ _ step_line_relationship_types)|].
  intros e. by rewrite !parse_count, assertions_app.
Qed.


(** ** More on the cycle detector *)

(** X5: the detector decides acyclicity. Whatever depth the interpreter
    allows, the detector raises [RecursionError], which it can only do when
    the graph has at least as many nodes as nested calls are allowed, or it
    returns, and then the list it returns is empty exactly when no node of
    the graph lies on a directed cycle. *)
Theorem detect_cycles_empty_iff_acyclic (limit : nat) (g : adjacency) :
  (detect_cycles limit g = Raise RecursionError ∧
   limit ≤ size (graph_nodes g)) ∨
  ∃ cycles,
    detect_cycles limit g = Ok cycles ∧
    (cycles = [] ↔ ∀ v, ¬ on_cycle g v).
Proof.
  destruct (detect_cycles_limit limit g) as [?| ->]; [by left|right].
  destruct (detect_cycles_complete g) as (cycles & E & Hrep & _).
  exists cycles. split; [done|]. split.
  - intros -> v Hv. destruct (Hrep v Hv) as (c & Hc & _).
    by apply elem_of_nil in Hc.
  - intros Hacyclic. rewrite (detect_cycles_acyclic g Hacyclic) in E.
    by injection E as <-.
Qed.

(** An invariant [I] of the three steps of [dfs] (recording a cycle, entering
    a node, leaving it) holds after every call and after the whole run. The
    calls are on the nodes [N], which hold the keys and are closed under the
    edges. *)
Section dfs_invariant.

Variable g : adjacency.
Variable N : string → Prop.
Variable I : dfs_state → Prop.

Hypothesis N_nodes : ∀ v, N v → v ∈ graph_nodes g.
Hypothesis N_succ : ∀ u v, edge_of g u v → N v.
Hypothesis I_record : ∀ st i,
  dfs_inv g st → I st → I (record_cycle st (drop i (path st))).
Hypothesis I_enter : ∀ st node,
  dfs_inv g st → N node → node ∉ visited st → I st →
  I (graph_getitem (enter st node) node).2.
Hypothesis I_leave : ∀ st p node st',
  dfs_inv g st → path st = p ++ [node] →
  (∀ y, edge_of g node y → y ∈ visited st) → I st →
  (st1 ← path_pop st; rec_stack_remove node st1) = Ok st' → I st'.

Lemma dfs_neighbors_invariant depth ys st st' :
  (∀ node st st', dfs_inv g st → follows g (path st) node → N node →
                  unvisited g st < depth → I st →
                  dfs depth node st = Ok st' → I st') →
  dfs_inv g st → (∀ y, y ∈ ys → follows g (path st) y ∧ N y) →
  unvisited g st < depth → I st →
  for_each (dfs depth) ys st = Ok st' → I st'.
Proof.
  intros IH. revert st.
  induction ys as [|y ys IHys]; intros st Hinv Hys Hdepth HI E.
  - simpl in E. by injection E as <-.
  - destruct (Hys y) as [Hf Hy]; [by left|].
    destruct (dfs_correct g depth y st Hinv Hf (N_nodes y Hy) Hdepth)
      as (st1 & E1 & [P1 P2 P3 P4 P5 P6]).
    simpl in E. rewrite E1 in E. simpl in E.
    apply (IHys st1); [done| | |by apply (IH y st st1)|done].
    + intros z Hz. rewrite P2. apply Hys. by right.
    + pose proof (unvisited_mono g st st1 P3). lia.
Qed.

Lemma dfs_invariant depth node st st' :
  dfs_inv g st → follows g (path st) node → N node →
  unvisited g st < depth → I st →
  dfs depth node st = Ok st' → I st'.
Proof.
  revert node st st'.
  induction depth as [|depth IH]; intros node st st' Hinv Hf Hn Hdepth HI E; [lia|].
  simpl in E. case_decide as Hstack.
  - destruct (dfs_back_edge g st node Hinv Hf Hstack) as (i & Hi & _).
    rewrite Hi in E. simpl in E. injection E as <-. by apply I_record.
  - case_decide as Hvis; [by injection E as <-|].
    pose proof (enter_inv g st node Hinv Hf (N_nodes _ Hn) Hstack Hvis) as Hinv1.
    pose proof (I_enter st node Hinv Hn Hvis HI) as HI2.
    destruct (graph_getitem_spec (enter st node) node)
      as (st2 & Hgi & Hg2 & Hv2 & Hr2 & Hc2 & Hu2 & Hp2).
    rewrite Hgi in E, HI2. simpl in HI2.
    assert (Hinv2 : dfs_inv g st2).
    { destruct Hinv1. split; rewrite ?Hv2, ?Hr2, ?Hc2, ?Hu2, ?Hp2; try done.
      intros v. by rewrite Hg2. }
    pose proof (unvisited_enter g st node (N_nodes _ Hn) Hvis) as Hsize.
    rewrite (inv_succ g _ Hinv1) in E.
    assert (Hys : ∀ y, y ∈ graph_succ g node →
                       follows g (path st2) y ∧ y ∈ graph_nodes g).
    { intros y Hy. split; [|by apply (edge_of_nodes g node y)].
      intros a. rewrite Hp2. simpl. rewrite last_snoc. by intros [= <-]. }
    assert (Hdepth2 : unvisited g st2 < depth).
    { unfold unvisited in *. rewrite Hv2. lia. }
    destruct (dfs_neighbors g depth (graph_succ g node) st2 (dfs_correct g depth)
                Hinv2 Hys Hdepth2)
      as (st3 & E3 & Hinv3 & Hp3 & Hv3 & Hc3 & Hvis3).
    rewrite E3 in E. simpl in E.
    assert (HI3 : I st3).
    { apply (dfs_neighbors_invariant depth (graph_succ g node) st2 st3 IH Hinv2);
        [|done..].
      intros y Hy. split; [by apply Hys|by apply (N_succ node)]. }
    apply (I_leave st3 (path st) node st' Hinv3); [|  |done|done].
    + by rewrite Hp3, Hp2.
    + intros y Hy. by apply Hvis3.
Qed.

Lemma roots_invariant depth ks st st' :
  size (graph_nodes g) < depth →
  dfs_inv g st → path st = [] → (∀ k, k ∈ ks → N k) → I st →
  for_each
    (λ node st, if decide (node ∈ visited st) then Ok st
                else dfs depth node (with_new_path st)) ks st = Ok st' →
  I st'.
Proof.
  intros Hdepth. revert st.
  induction ks as [|k ks IH]; intros st Hinv Hp Hks HI E.
  - simpl in E. by injection E as <-.
  - cbn [for_each] in E. cbv beta in E.
    destruct (decide (k ∈ visited st)) as [Hk|Hk].
    + simpl in E. apply (IH st); try done. intros k' Hk'. apply Hks. by right.
    + rewrite with_new_path_id in E by done.
      assert (Hf : follows g (path st) k) by (intros a; by rewrite Hp).
      assert (HNk : N k) by (apply Hks; by left).
      assert (Hlt : unvisited g st < depth)
        by (pose proof (unvisited_le g st); lia).
      destruct (dfs_correct g depth k st Hinv Hf (N_nodes _ HNk) Hlt)
        as (st1 & E1 & [P1 P2 P3 P4 P5 P6]).
      rewrite E1 in E. simpl in E.
      apply (IH st1); [done|congruence| |by apply (dfs_invariant depth k st st1)|done].
      intros k' Hk'. apply Hks. by right.
Qed.

Lemma detect_cycles_run_invariant :
  (∀ k, k ∈ dict_keys g → N k) → I (dfs_init g) →
  ∃ st,
    detect_cycles_run (S (size (graph_nodes g))) g = Ok st ∧
    dfs_inv g st ∧ path st = [] ∧
    (∀ k, k ∈ dict_keys g → k ∈ visited st) ∧ I st.
Proof.
  intros Hkeys Hinit. unfold detect_cycles_run.
  destruct (detect_cycles_roots g (S (size (graph_nodes g))) (dict_keys g) (dfs_init g))
    as (st & E & Hinv & Hp & _ & Hks); [lia|apply dfs_init_inv|done|..].
  { intros k. apply dict_keys_nodes. }
  exists st. do 4 (split; [done|]).
  apply (roots_invariant (S (size (graph_nodes g))) (dict_keys g) (dfs_init g) st);
    [lia|apply dfs_init_inv|done|done|done|done].
Qed.

End dfs_invariant.


(** The order of [sorted] on strings. *)
Lemma str_compare_trans a b c :
  String.compare a b ≠ Gt → String.compare b c ≠ Gt → String.compare a c ≠ Gt.
Proof.
  revert b c. induction a as [|x a IH]; intros [|y b] [|z c]; simpl; try done.
  unfold Ascii.compare.
  destruct (N.compare_spec (Ascii.N_of_ascii x) (Ascii.N_of_ascii y)),
           (N.compare_spec (Ascii.N_of_ascii y) (Ascii.N_of_ascii z)),
           (N.compare_spec (Ascii.N_of_ascii x) (Ascii.N_of_ascii z));
    try done; try lia.
  apply IH.
Qed.

Lemma str_le_compare a b : str_le a b ↔ String.compare a b ≠ Gt.
Proof. unfold str_le, String.leb. by destruct (String.compare a b). Qed.

Lemma str_le_trans : Transitive str_le.
Proof.
  intros a b c. rewrite !str_le_compare. apply str_compare_trans.
Qed.

Lemma str_le_antisym : AntiSymm (=) str_le.
Proof.
  intros a b Hab Hba. apply String.leb_antisym; by apply Is_true_true.
Qed.

Lemma str_le_total : Total str_le.
Proof.
  intros a b. destruct (String.leb_total a b) as [H|H];
    [left|right]; by apply Is_true_true.
Qed.

(** Two lists with the same elements have the same sorted tuple. *)
Lemma sorted_perm c1 c2 : c1 ≡ₚ c2 → sorted c1 = sorted c2.
Proof.
  intros Hperm.
  apply (@Sorted_unique _ str_le str_le_trans str_le_antisym).
  - apply (@Sorted_merge_sort _ str_le _ str_le_total).
  - apply (@Sorted_merge_sort _ str_le _ str_le_total).
  - by rewrite !sorted_Permutation.
Qed.

Lemma NoDup_drop_path {A} (l : list A) i : NoDup l → NoDup (drop i l).
Proof.
  intros H. rewrite <- (take_drop i l) in H. by apply NoDup_app in H as (_ & _ & ?).
Qed.

Lemma record_cycle_cycles_inv st cycle :
  NoDup cycle → cycles_inv st → cycles_inv (record_cycle st cycle).
Proof.
  intros Hnd [Hs Hr Hd]. unfold record_cycle. case_decide as Hin; [done|].
  split; simpl.
  - intros c [Hc|Hc]%elem_of_app; [auto|].
    by apply list_elem_of_singleton in Hc as ->.
  - intros c [Hc|Hc]%elem_of_app.
    + apply elem_of_union_r. auto.
    + apply list_elem_of_singleton in Hc as ->.
      by apply elem_of_union_l, elem_of_singleton.
  - rewrite fmap_app. apply NoDup_app. split; [done|]. split.
    + intros n (c & Hn & Hc)%list_elem_of_fmap Hn'%list_elem_of_singleton.
      apply Hin. rewrite <- Hn', Hn. auto.
    + apply NoDup_singleton.
Qed.

Lemma cycles_inv_same st st' :
  all_cycles st' = all_cycles st → unique_cycles st' = unique_cycles st →
  cycles_inv st → cycles_inv st'.
Proof. intros Hc Hu []. split; rewrite ?Hc, ?Hu; done. Qed.

Lemma leave_fields st node st' :
  (st1 ← path_pop st; rec_stack_remove node st1) = Ok st' →
  graph st' = graph st ∧ visited st' = visited st ∧
  all_cycles st' = all_cycles st ∧ unique_cycles st' = unique_cycles st ∧
  path st' = removelast (path st).
Proof.
  unfold path_pop. destruct (path st); [done|]. simpl.
  unfold rec_stack_remove. simpl. case_decide; [|done]. by intros [= <-].
Qed.

(** The run of the detector keeps [cycles_inv]. *)
Lemma detect_cycles_run_cycles_inv (g : adjacency) :
  ∃ st,
    detect_cycles_deep g = Ok (all_cycles st) ∧ dfs_inv g st ∧ cycles_inv st.
Proof.
  destruct (detect_cycles_run_invariant g (λ v, v ∈ graph_nodes g) cycles_inv)
    as (st & E & Hinv & _ & _ & HI).
  - done.
  - intros u v Huv. by apply (edge_of_nodes g u v).
  - intros st i Hinv HI. apply record_cycle_cycles_inv; [|done].
    apply NoDup_drop_path, (inv_nodup g st Hinv).
  - intros st node _ _ _ HI.
    destruct (graph_getitem_spec (enter st node) node)
      as (st2 & -> & _ & _ & _ & Hc & Hu & _).
    simpl. by apply (cycles_inv_same st).
  - intros st p node st' _ _ _ HI E.
    apply leave_fields in E as (_ & _ & Hc & Hu & _).
    by apply (cycles_inv_same st).
  - apply dict_keys_nodes.
  - split; simpl; [by intros c ?%elem_of_nil|by intros c ?%elem_of_nil|].
    apply NoDup_nil_2.
  - exists st. unfold detect_cycles_deep, detect_cycles. by rewrite E.
Qed.

(** X6: the cycles the detector returns. Whatever depth the interpreter
    allows, the detector raises [RecursionError], which it can only do when
    the graph has at least as many nodes as nested calls are allowed, or it
    returns a list of cycles each of which is a directed cycle of the graph
    that repeats no node, and no two entries of which have the same nodes:
    two positions whose cycles are permutations of each other are one
    position. *)
Theorem detect_cycles_simple_distinct (limit : nat) (g : adjacency) :
  (detect_cycles limit g = Raise RecursionError ∧
   limit ≤ size (graph_nodes g)) ∨
  ∃ cycles,
    detect_cycles limit g = Ok cycles ∧
    (∀ c, c ∈ cycles → NoDup c ∧ directed_cycle g c) ∧
    (∀ i j c1 c2, cycles !! i = Some c1 → cycles !! j = Some c2 →
                  c1 ≡ₚ c2 → i = j).
Proof.
  destruct (detect_cycles_limit limit g) as [?| ->]; [by left|right].
  destruct (detect_cycles_run_cycles_inv g) as (st & E & Hinv & [Hs Hr Hd]).
  exists (all_cycles st). split; [done|]. split.
  - intros c Hc. split; [by apply Hs|by apply (inv_cycles g st Hinv)].
  - intros i j c1 c2 H1 H2 Hperm.
    apply (NoDup_lookup (sorted <$> all_cycles st) i j (sorted c1)); [done|..].
    + by rewrite list_lookup_fmap, H1.
    + by rewrite list_lookup_fmap, H2, (sorted_perm c1 c2).
Qed.

Lemma dict_get_None_keys {V} (d : list (string * V)) k :
  dict_get d k = None ↔ k ∉ dict_keys d.
Proof.
  unfold dict_keys. induction d as [|[k' v] d IH]; simpl.
  - split; [intros _ ?%elem_of_nil|]; done.
  - rewrite not_elem_of_cons, <- IH. case_decide; naive_solver.
Qed.

Lemma dict_keys_empty_lists (ks : list string) :
  dict_keys ((λ k, (k, @nil string)) <$> ks) = ks.
Proof.
  unfold dict_keys. rewrite <- list_fmap_compose. apply list_fmap_id.
Qed.

Lemma edge_of_key g u v : edge_of g u v → u ∈ dict_keys g.
Proof.
  unfold edge_of, graph_succ. intros Hv.
  destruct (dict_get g u) as [succs|] eqn:Hg; [|by apply elem_of_nil in Hv].
  apply dict_get_Some_key in Hg. apply list_elem_of_fmap. by exists (u, succs).
Qed.

Lemma is_node_nodes g v : is_node g v → v ∈ graph_nodes g.
Proof.
  intros [Hk|[u Hu]]; [by apply dict_keys_nodes|by apply (edge_of_nodes g u v)].
Qed.

Lemma keys_inv_same g st st' :
  graph st' = graph st → visited st' = visited st → path st' = path st →
  keys_inv g st → keys_inv g st'.
Proof. intros Hg Hv Hp []. split; rewrite ?Hg, ?Hv, ?Hp; done. Qed.

Lemma keys_inv_enter g st node :
  is_node g node → keys_inv g st →
  keys_inv g (graph_getitem (enter st node) node).2.
Proof.
  intros Hnode [(ks & Hg & Hnd & Hks) Hvis Hclosed].
  assert (Hclosed' : ∀ v w, v ∈ {[node]} ∪ visited st → v ∉ path st ++ [node] →
                            edge_of g v w → w ∈ {[node]} ∪ visited st).
  { intros v w Hv Hp Hvw. apply elem_of_union_r, (Hclosed v); [|  |done].
    - apply elem_of_union in Hv as [->%elem_of_singleton|Hv]; [|done].
      exfalso. apply Hp, elem_of_app. right. by apply list_elem_of_singleton.
    - intros Hin. apply Hp, elem_of_app. by left. }
  unfold graph_getitem. simpl.
  destruct (dict_get (graph st) node) as [succs|] eqn:Hget; simpl.
  - split; simpl; [by exists ks| |done].
    intros v [->%elem_of_singleton|Hv]%elem_of_union; [|by apply Hvis].
    apply dict_get_Some_key in Hget. apply list_elem_of_fmap. by exists (node, succs).
  - apply dict_get_None_keys in Hget.
    unfold dict_keys in Hget. rewrite Hg, fmap_app in Hget.
    fold (dict_keys g) in Hget.
    fold (dict_keys ((λ k, (k, @nil string)) <$> ks)) in Hget.
    rewrite dict_keys_empty_lists in Hget.
    apply not_elem_of_app in Hget as [Hg1 Hg2].
    split; simpl; [| |done].
    + exists (ks ++ [node]). split; [|split].
      * by rewrite Hg, fmap_app, app_assoc.
      * apply NoDup_app. split; [done|]. split; [|apply NoDup_singleton].
        intros x Hx Hx'%list_elem_of_singleton. by subst.
      * intros k [Hk|Hk]%elem_of_app; [by apply Hks|].
        apply list_elem_of_singleton in Hk as ->. split; [done|].
        by destruct Hnode.
    + intros v Hv. unfold dict_keys. rewrite fmap_app. apply elem_of_app.
      apply elem_of_union in Hv as [->%elem_of_singleton|Hv].
      * right. by apply list_elem_of_singleton.
      * left. by apply Hvis.
Qed.

Lemma keys_inv_leave g st p node st' :
  path st = p ++ [node] →
  (∀ y, edge_of g node y → y ∈ visited st) → keys_inv g st →
  (st1 ← path_pop st; rec_stack_remove node st1) = Ok st' →
  keys_inv g st'.
Proof.
  intros Hp Hsucc [Hks Hvis Hclosed] E.
  apply leave_fields in E as (Hg & Hv & _ & _ & Hp').
  rewrite Hp, removelast_last in Hp'.
  split; rewrite ?Hg, ?Hv, ?Hp'; try done.
  intros v w Hvv Hvp Hvw. destruct (decide (v = node)) as [->|Hne]; [auto|].
  apply (Hclosed v); [done| |done]. rewrite Hp.
  intros [?|?%list_elem_of_singleton]%elem_of_app; done.
Qed.

(** X7: the detector changes the mapping it is given. Whatever depth the
    interpreter allows, the run raises [RecursionError], which it can only do
    when the graph has at least as many nodes as nested calls are allowed, or
    it returns, and then the mapping holds the entries it had, unchanged and
    in their order, followed by one new key with an empty list for each node
    that is the target of an edge and had no key; these are all the keys it
    adds. *)
Theorem detect_cycles_adds_keys (limit : nat) (g : adjacency) :
  (detect_cycles_run limit g = Raise RecursionError ∧
   limit ≤ size (graph_nodes g)) ∨
  ∃ st ks,
    detect_cycles_run limit g = Ok st ∧
    detect_cycles limit g = Ok (all_cycles st) ∧
    graph st = g ++ ((λ k, (k, [])) <$> ks) ∧
    NoDup ks ∧
    ∀ k, k ∈ ks ↔ ((k ∉ dict_keys g) ∧ ∃ u, edge_of g u k).
Proof.
  destruct (detect_cycles_run_outcome limit g) as [?|Hrun]; [by left|right].
  unfold detect_cycles. rewrite Hrun.
  destruct (detect_cycles_run_invariant g (is_node g) (keys_inv g))
    as (st & E & Hinv & Hp & Hroots & [(ks & Hg & Hnd & Hks) Hvis Hclosed]).
  - apply is_node_nodes.
  - intros u v Huv. right. by exists u.
  - intros st i _ HI.
    destruct (record_cycle_fields st (drop i (path st))) as (Hg & Hv & _ & Hp & _).
    by apply (keys_inv_same g st).
  - intros st node _ Hnode _ HI. by apply keys_inv_enter.
  - intros st p node st' _ Hp Hsucc HI E. by apply (keys_inv_leave g st p node).
  - intros k Hk. by left.
  - split; simpl.
    + exists []. simpl. rewrite app_nil_r. split; [done|]. split; [apply NoDup_nil_2|].
      by intros k ?%elem_of_nil.
    + by intros v ?%not_elem_of_empty.
    + by intros v w ?%not_elem_of_empty.
  - exists st, ks. split; [done|]. split; [by rewrite E|].
    split; [done|]. split; [done|]. intros k. split; [apply Hks|].
    intros [Hnk [u Hu]].
    assert (Hk : k ∈ visited st).
    { apply (Hclosed u k); [|rewrite Hp; by intros ?%elem_of_nil|done].
      by apply Hroots, (edge_of_key g u k). }
    apply Hvis in Hk. unfold dict_keys in Hk. rewrite Hg, fmap_app in Hk.
    apply elem_of_app in Hk as [Hk|Hk]; [done|].
    fold (dict_keys ((λ k, (k, @nil string)) <$> ks)) in Hk.
    by rewrite dict_keys_empty_lists in Hk.
Qed.

(** ** The adjacency mapping [main] builds *)

Lemma graph_append_keys g s t :
  dict_keys (graph_append g s t)
  = if decide (s ∈ dict_keys g) then dict_keys g else dict_keys g ++ [s].
Proof.
  unfold dict_keys. induction g as [|[k v] g IH]; cbn [graph_append].
  - simpl.
    destruct (decide (s ∈ @nil string)) as [H|_]; [by apply elem_of_nil in H|done].
  - destruct (decide (k = s)) as [->|Hne]; rewrite !fmap_cons; cbn [fst].
    + rewrite decide_True; [done|]. by left.
    + rewrite IH. destruct (decide (s ∈ g.*1)) as [Hin|Hout].
      * rewrite decide_True; [done|]. by right.
      * rewrite decide_False; [done|].
        intros [?|?]%elem_of_cons; [congruence|done].
Qed.

Lemma foldl_graph_append_keys es g :
  NoDup (dict_keys g) →
  NoDup (dict_keys (foldl (λ graph e, graph_append graph e.1 e.2) g es)) ∧
  ∀ k, k ∈ dict_keys (foldl (λ graph e, graph_append graph e.1 e.2) g es)
       ↔ k ∈ dict_keys g ∨ ∃ t, (k, t) ∈ es.
Proof.
  revert g. induction es as [|[s t] es IH]; intros g Hnd; simpl.
  - split; [done|]. intros k. split; [by left|].
    intros [?|[t' ?%elem_of_nil]]; done.
  - destruct (IH (graph_append g s t)) as [Hnd' Hk].
    { rewrite graph_append_keys. case_decide; [done|].
      apply NoDup_app. split; [done|]. split; [|apply NoDup_singleton].
      intros x Hx Hx'%list_elem_of_singleton. by subst. }
    split; [done|]. intros k. rewrite Hk, graph_append_keys. split.
    + intros [Hin|[t' Ht']].
      * case_decide; [by left|].
        apply elem_of_app in Hin as [?|Hin]; [by left|].
        apply list_elem_of_singleton in Hin as ->. right. exists t. by left.
      * right. exists t'. by right.
    + intros [Hin|[t' Ht']].
      * left. case_decide; [done|]. apply elem_of_app. by left.
      * apply elem_of_cons in Ht' as [[= -> ->]|Ht']; [|right; by exists t'].
        left. case_decide; [done|]. apply elem_of_app. right.
        by apply list_elem_of_singleton.
Qed.

Lemma foldl_graph_append_succ es g s :
  graph_succ (foldl (λ graph e, graph_append graph e.1 e.2) g es) s
  = graph_succ g s ++ (filter (λ e : edge, e.1 = s) es).*2.
Proof.
  revert g. induction es as [|[a b] es IH]; intros g; simpl.
  - by rewrite app_nil_r.
  - rewrite IH, graph_append_succ, filter_cons. simpl.
    destruct (decide (s = a)) as [->|Hne].
    + rewrite decide_True by done. simpl. by rewrite <- app_assoc.
    + by rewrite decide_False by congruence.
Qed.

(** X8: the adjacency mapping built from a sequence of edges (lines 192-194
    of [main]). Its keys are the sources of the edges, each once; the list of
    a key holds the targets of the edges from that source, in the order of
    the sequence; a node that is only a target has no key. *)
Theorem build_graph_spec (es : list edge) :
  NoDup (dict_keys (build_graph es)) ∧
  (∀ k, k ∈ dict_keys (build_graph es) ↔ ∃ t, (k, t) ∈ es) ∧
  (∀ s, graph_succ (build_graph es) s = (filter (λ e : edge, e.1 = s) es).*2).
Proof.
  unfold build_graph.
  destruct (foldl_graph_append_keys es []) as [Hnd Hk]; [apply NoDup_nil_2|].
  split; [done|]. split.
  - intros k. rewrite Hk. split; [|by right].
    intros [?%elem_of_nil|?]; done.
  - intros s. by rewrite foldl_graph_append_succ.
Qed.


(** ** More on the dominance-violation detector *)

Lemma path_from_to_head E s t p : path_from_to E s t p → head p = Some s.
Proof.
  induction 1 as [|u t p _ IH _]; [done|]. destruct p; [done|]. exact IH.
Qed.

Lemma path_from_to_last E s t p : path_from_to E s t p → last p = Some t.
Proof. destruct 1; [done|]. by rewrite last_snoc. Qed.

Lemma path_from_to_chain E s t p :
  path_from_to E s t p →
  ∀ i a b, p !! i = Some a → p !! S i = Some b → E a b.
Proof.
  induction 1 as [|u t p Hp IH Hut]; intros i a b Ha Hb.
  - by destruct i.
  - pose proof (path_from_to_last E s u p Hp) as Hlast.
    rewrite last_lookup in Hlast.
    pose proof (lookup_lt_Some _ _ _ Hb) as Hlt. rewrite length_app in Hlt.
    simpl in Hlt.
    destruct (decide (S i < length p)) as [Hin|Hout].
    + rewrite lookup_app_l in Ha by lia. rewrite lookup_app_l in Hb by lia.
      by apply (IH i).
    + assert (i = pred (length p)) as -> by lia.
      rewrite lookup_app_l in Ha by lia.
      rewrite lookup_app_r in Hb by lia.
      replace (S (pred (length p)) - length p) with 0 in Hb by lia.
      simpl in Hb. congruence.
Qed.

(** A path followed by another from its end, the shared node once. *)
Lemma path_from_to_app E s t u p1 p2 :
  path_from_to E s t p1 → path_from_to E t u p2 →
  path_from_to E s u (p1 ++ drop 1 p2).
Proof.
  intros H1. induction 1 as [|u' v p Hp IH Huv].
  - simpl. by rewrite app_nil_r.
  - destruct (path_bsteps E t u' p Hp) as [Hlen _].
    destruct p as [|x p]; [simpl in Hlen; lia|].
    simpl. simpl in IH. rewrite drop_0 in *. rewrite app_assoc.
    by apply path_step with u'.
Qed.

Lemma path_from_to_length E s t p : path_from_to E s t p → s ≠ t → 2 ≤ length p.
Proof.
  destruct 1 as [|u t p Hp]; [done|]. intros _.
  destruct (path_bsteps E s u p Hp) as [Hlen _]. rewrite length_app. simpl. lia.
Qed.

(** X9: the witness path of a violation is a closed walk. For every violation
    the detector returns on the graph of an edge list, source and target
    differ, the list under "cycle" starts and ends at the source, passes
    through the target, has at least three entries, and each entry has an
    edge of the list to the next. *)
Theorem detect_broader_violations_closed_walk (es : list edge) :
  ∃ violations,
    detect_broader_violations (nx.add_edges_from nx.empty es) = Ok violations ∧
    ∀ v, v ∈ violations →
      source v ≠ target v ∧
      head (cycle v) = Some (source v) ∧
      last (cycle v) = Some (source v) ∧
      target v ∈ cycle v ∧
      3 ≤ length (cycle v) ∧
      ∀ i a b, cycle v !! i = Some a → cycle v !! S i = Some b → (a, b) ∈ es.
Proof.
  destruct (add_edges_from_empty es) as [Hwf Hedges].
  set (G := nx.add_edges_from nx.empty es) in *.
  destruct (detect_broader_violations_wf G Hwf) as (vs & -> & Hpairs & Hw).
  exists vs. split; [done|]. intros v Hv.
  assert (Hne : source v ≠ target v).
  { assert (Hin : pair_of v ∈ mutual_pairs G (nx.nodes G)).
    { rewrite <- Hpairs. apply list_elem_of_fmap. by exists v. }
    apply elem_of_mutual_pairs in Hin as (Hs & Ht & _).
    apply (descendants_spec G _ Hwf Hs) in Ht as [Hne _]. done. }
  split; [done|].
  rewrite Forall_forall in Hw.
  destruct (Hw v Hv) as (p1 & p2 & [Hp1 _] & [Hp2 _] & Hc).
  pose proof (path_from_to_app _ _ _ _ _ _ Hp1 Hp2) as Hwalk.
  rewrite <- Hc in Hwalk.
  split; [by eapply path_from_to_head|].
  split; [by eapply path_from_to_last|].
  split; [|split].
  - rewrite Hc. apply elem_of_app. left.
    apply path_from_to_last in Hp1. rewrite last_lookup in Hp1.
    by eapply list_elem_of_lookup_2.
  - rewrite Hc, length_app, length_drop.
    pose proof (path_from_to_length _ _ _ _ Hp1 Hne).
    pose proof (path_from_to_length _ _ _ _ Hp2 (not_eq_sym Hne)). lia.
  - intros i a b Ha Hb. apply Hedges.
    by apply (path_from_to_chain _ _ _ _ Hwalk i).
Qed.


Lemma mutual_pairs_spec G s t :
  nx_wf G →
  (s, t) ∈ mutual_pairs G (nx.nodes G)
  ↔ s ≠ t ∧ rtc (nx_edge G) s t ∧ rtc (nx_edge G) t s.
Proof.
  intros Hwf. rewrite elem_of_mutual_pairs. split.
  - intros (Hs & Ht & Hb).
    apply (descendants_spec G s Hwf Hs) in Ht as [Hne Hst].
    assert (Htn : t ∈ nx.nodes G) by by eapply reach_node.
    apply (descendants_spec G t Hwf Htn) in Hb as [_ Hts].
    split; [by intros ->|done].
  - intros (Hne & Hst & Hts).
    assert (Hs : s ∈ nx.nodes G).
    { apply rtc_inv in Hst as [->|(y & Hy & _)]; [done|].
      by eapply nx_edge_source. }
    assert (Htn : t ∈ nx.nodes G) by by eapply reach_node.
    split; [done|]. split.
    + by apply (descendants_spec G s Hwf Hs).
    + apply (descendants_spec G t Hwf Htn). split; [by intros ->|done].
Qed.

(** A list of pairs without repetition that holds no pair [(s, s)] and, with
    every pair, the swapped pair, has an even length. *)
Lemma swap_closed_even (l : list (string * string)) :
  NoDup l → (∀ s t, (s, t) ∈ l → s ≠ t ∧ (t, s) ∈ l) →
  length l = 2 * length (filter (λ e, String.leb e.1 e.2 = true) l).
Proof.
  intros Hnd Hswap.
  rewrite <- (filter_app_complement (λ e, String.leb e.1 e.2 = true) l) at 1.
  rewrite length_app.
  assert (Hperm : filter (λ e, ¬ String.leb e.1 e.2 = true) l
                  ≡ₚ prod_swap <$> filter (λ e, String.leb e.1 e.2 = true) l).
  { apply NoDup_Permutation.
    - by apply NoDup_filter.
    - apply NoDup_fmap_2; [|by apply NoDup_filter].
      intros [??] [??] [= -> ->]. done.
    - intros [s t]. rewrite list_elem_of_filter, list_elem_of_fmap. simpl. split.
      + intros [Hle Hin]. exists (t, s). split; [done|].
        apply list_elem_of_filter. simpl. split; [|by apply Hswap].
        destruct (String.leb_total s t); done.
      + intros ([a b] & [= -> ->] & [Hle Hin]%list_elem_of_filter). simpl in Hle.
        destruct (Hswap a b Hin) as [Hne Hin']. split; [|done].
        intros Hle'. apply Hne. by apply String.leb_antisym. }
  rewrite Hperm, length_fmap. lia.
Qed.

(** X10: the number of violations is even. Every mutually reachable pair is
    reported once from each side, so the list the detector returns on the
    graph of an edge list has twice as many entries as it has violations
    whose source is not after the target in the order of strings. *)
Theorem detect_broader_violations_even (es : list edge) :
  ∃ violations,
    detect_broader_violations (nx.add_edges_from nx.empty es) = Ok violations ∧
    length violations
    = 2 * length (filter (λ v, String.leb (source v) (target v) = true) violations).
Proof.
  destruct (add_edges_from_empty es) as [Hwf Hedges].
  set (G := nx.add_edges_from nx.empty es) in *.
  destruct (detect_broader_violations_wf G Hwf) as (vs & -> & Hpairs & _).
  exists vs. split; [done|].
  pose proof (swap_closed_even (pair_of <$> vs)) as Heven.
  rewrite length_fmap in Heven. rewrite Heven.
  - f_equal. clear. induction vs as [|v vs IH]; [done|].
    rewrite fmap_cons, !filter_cons. unfold pair_of at 1. simpl.
    case_decide; simpl; by rewrite IH.
  - rewrite Hpairs. apply NoDup_mutual_pairs, (wf_nodup G Hwf).
  - intros s t. rewrite Hpairs, !mutual_pairs_spec by done.
    intros (Hne & Hst & Hts). split; [done|]. split; [by intros ->|done].
Qed.


(** ** The report of [main] *)

Lemma build_graph_elements_tc (es : gset edge) v :
  on_cycle (build_graph (elements es)) v ↔ tc (edge_in es) v v.
Proof.
  unfold on_cycle. split; apply tc_impl; intros a b;
    rewrite build_graph_edges, elem_of_elements; done.
Qed.

(** X12: the cycle count of a run. When the hierarchy analysis is requested,
    a run on an input that can be read either raises [RecursionError], which
    it can only do when the hierarchy has at least as many nodes as nested
    calls are allowed, or reaches [save_results], and then the statistic
    "Parent-Child Cycle Count" is the number of cycles handed over, and it is
    0 exactly when the hierarchy edges of the input have no directed
    cycle. *)
Theorem main_cycle_count (lines : list string) (type : analysis_type)
    (clock : timings) (limit : nat) :
  type ≠ broader_than →
  ∃ st,
    parse_mrrel (Readable lines) = Ok st ∧
    ((too_deep limit type st ∧
      main (Readable lines) type clock limit = Raise RecursionError) ∨
     ∃ r,
       main (Readable lines) type clock limit = Ok r ∧
       dict_get (report_stats r) "Parent-Child Cycle Count"
       = Some (Count (length (report_cycles r))) ∧
       (length (report_cycles r) = 0
        ↔ ∀ v, ¬ tc (edge_in (parent_child_edges st)) v v)).
Proof.
  intros Htype.
  exists (foldl step parse_init lines). split; [apply parse_mrrel_lines|].
  destruct (main_outcome lines type clock limit)
    as [?|(cycles & vs & _ & Hc & _ & _ & E)]; [by left|right].
  specialize (Hc Htype).
  eexists. split; [exact E|].
  cbn [report_stats report_cycles]. split.
  - destruct type; [|done|]; stat_keys.
  - set (g := build_graph (elements (parent_child_edges (foldl step parse_init lines)))) in *.
    split.
    + intros Hlen v Hv. apply length_zero_iff_nil in Hlen. subst cycles.
      destruct (detect_cycles_complete g) as (cycles' & E' & Hrep & _).
      rewrite Hc in E'. injection E' as <-.
      destruct (Hrep v) as (c & Hin & _); [by apply build_graph_elements_tc|].
      by apply elem_of_nil in Hin.
    + intros Hacyclic. rewrite (detect_cycles_acyclic g) in Hc.
      * by injection Hc as <-.
      * intros v Hv. by apply (Hacyclic v), build_graph_elements_tc.
Qed.

(** Two records that close a cycle, under the limit of 1000 nested calls. *)
Lemma main_cycle_count_witness :
  ∃ st r,
    parse_mrrel (Readable ["C1|a|b|CHD|C2|"; "C2|a|b|CHD|C1|"]) = Ok st ∧
    main (Readable ["C1|a|b|CHD|C2|"; "C2|a|b|CHD|C1|"]) parent_child
      {| pc_time := 0; bt_time := 0; total_time := 0 |} 1000 = Ok r ∧
    dict_get (report_stats r) "Parent-Child Cycle Count"
    = Some (Count (length (report_cycles r))) ∧
    (length (report_cycles r) = 0
     ↔ ∀ v, ¬ tc (edge_in (parent_child_edges st)) v v).
Proof.
  destruct (main_cycle_count ["C1|a|b|CHD|C2|"; "C2|a|b|CHD|C1|"] parent_child
              {| pc_time := 0; bt_time := 0; total_time := 0 |} 1000)
    as (st & E1 & [[[_ Hdeep] _]|(r & E2 & H)]); [discriminate| |].
  - exfalso. injection E1 as <-. vm_compute in Hdeep. lia.
  - exists st, r. split; [exact E1|]. split; [exact E2|]. exact H.
Defined.

Lemma edge_in_elements_nx (es : gset edge) a b :
  nx_edge (nx.add_edges_from nx.empty (elements es)) a b ↔ edge_in es a b.
Proof.
  destruct (add_edges_from_empty (elements es)) as [_ Hedges].
  rewrite Hedges. apply elem_of_elements.
Qed.

(** X13: the violation count of a run. When the dominance analysis is
    requested, a run on an input that can be read either raises
    [RecursionError], which it can only do when the hierarchy analysis is
    requested too and the hierarchy has at least as many nodes as nested
    calls are allowed, or reaches [save_results], and then the statistic
    "Broader-Than Violation Count" is the number of violations handed over;
    it is even, and it is 0 exactly when the dominance edges of the input
    have no directed cycle. *)
Theorem main_violation_count (lines : list string) (type : analysis_type)
    (clock : timings) (limit : nat) :
  type ≠ parent_child →
  ∃ st,
    parse_mrrel (Readable lines) = Ok st ∧
    ((too_deep limit type st ∧
      main (Readable lines) type clock limit = Raise RecursionError) ∨
     ∃ r,
       main (Readable lines) type clock limit = Ok r ∧
       dict_get (report_stats r) "Broader-Than Violation Count"
       = Some (Count (length (report_violations r))) ∧
       (∃ k, length (report_violations r) = 2 * k) ∧
       (length (report_violations r) = 0
        ↔ ∀ v, ¬ tc (edge_in (broader_than_edges st)) v v)).
Proof.
  intros Htype.
  exists (foldl step parse_init lines). split; [apply parse_mrrel_lines|].
  destruct (main_outcome lines type clock limit)
    as [?|(cycles & vs & _ & _ & _ & Hv & E)]; [by left|right].
  specialize (Hv Htype).
  eexists. split; [exact E|].
  cbn [report_stats report_violations]. split.
  { destruct type; [done| |]; stat_keys. }
  set (st := foldl step parse_init lines) in *.
  pose proof (steps_irreflexive lines parse_init parse_init_irreflexive) as Hirr.
  fold st in Hirr.
  destruct (add_edges_from_empty (elements (broader_than_edges st))) as [Hwf _].
  set (G := nx.add_edges_from nx.empty (elements (broader_than_edges st))) in *.
  destruct (detect_broader_violations_wf G Hwf) as (vs' & E' & Hpairs & _).
  rewrite Hv in E'. injection E' as <-.
  assert (Hrtc : ∀ a b, rtc (nx_edge G) a b ↔ rtc (edge_in (broader_than_edges st)) a b).
  { intros a b. split; apply rtc_subrel; intros ??; by apply edge_in_elements_nx. }
  split.
  { exists (length (filter (λ e, String.leb e.1 e.2 = true) (pair_of <$> vs))).
    rewrite <- swap_closed_even; [by rewrite length_fmap|..].
    - rewrite Hpairs. apply NoDup_mutual_pairs, (wf_nodup G Hwf).
    - intros s t. rewrite Hpairs, !mutual_pairs_spec by done.
      intros (Hne & Hst & Hts). split; [done|]. split; [by intros ->|done]. }
  split.
  - intros Hlen v Hcyc. apply length_zero_iff_nil in Hlen. subst vs.
    assert (∃ w, v ≠ w ∧ rtc (nx_edge G) v w ∧ rtc (nx_edge G) w v)
      as (w & Hne & Hvw & Hwv).
    { inversion Hcyc as [?? Hedge|? w ? Hedge Hrest]; subst.
      - by destruct (Hirr v) as [_ []].
      - exists w. split; [|split].
        + intros ->. by destruct (Hirr w) as [_ []].
        + apply Hrtc. by apply rtc_once.
        + apply Hrtc. by apply tc_rtc. }
    assert (Hin : (v, w) ∈ mutual_pairs G (nx.nodes G))
      by by apply mutual_pairs_spec.
    rewrite <- Hpairs in Hin. by apply elem_of_nil in Hin.
  - intros Hacyclic. destruct vs as [|v vs]; [done|]. exfalso.
    assert (Hin : pair_of v ∈ mutual_pairs G (nx.nodes G)).
    { rewrite <- Hpairs. by left. }
    destruct (pair_of v) as [s t].
    apply mutual_pairs_spec in Hin as (Hne & Hst%Hrtc & Hts%Hrtc); [|done].
    apply rtc_tc in Hst as [->|Hst]; [done|].
    apply (Hacyclic s). by eapply tc_rtc_r.
Qed.

(** Two records that dominate each other, under the limit of 1000 nested
    calls. *)
Lemma main_violation_count_witness :
  ∃ st r,
    parse_mrrel (Readable ["C1|a|b|RB|C2|"; "C2|a|b|RB|C1|"]) = Ok st ∧
    main (Readable ["C1|a|b|RB|C2|"; "C2|a|b|RB|C1|"]) both
      {| pc_time := 0; bt_time := 0; total_time := 0 |} 1000 = Ok r ∧
    dict_get (report_stats r) "Broader-Than Violation Count"
    = Some (Count (length (report_violations r))) ∧
    (∃ k, length (report_violations r) = 2 * k) ∧
    (length (report_violations r) = 0
     ↔ ∀ v, ¬ tc (edge_in (broader_than_edges st)) v v).
Proof.
  destruct (main_violation_count ["C1|a|b|RB|C2|"; "C2|a|b|RB|C1|"] both
              {| pc_time := 0; bt_time := 0; total_time := 0 |} 1000)
    as (st & E1 & [[[_ Hdeep] _]|(r & E2 & H)]); [discriminate| |].
  - exfalso. injection E1 as <-. vm_compute in Hdeep. lia.
  - exists st, r. split; [exact E1|]. split; [exact E2|]. exact H.
Defined.

(** ** The files of a run *)

Lemma detect_cycles_nonempty g cycles :
  detect_cycles_deep g = Ok cycles → (cycles ≠ [] ↔ ∃ v, on_cycle g v).
Proof.
  intros E. destruct (detect_cycles_complete g) as (cycles' & E' & Hrep & Hdir).
  rewrite E in E'. injection E' as <-. split.
  - destruct cycles as [|c cycles]; [done|]. intros _.
    destruct (Hdir c) as (Hne & Hc); [by left|].
    destruct c as [|v c]; [done|]. exists v.
    apply (directed_cycle_on_cycle g (v :: c) v); [|done]. apply Hdir. by left.
  - intros [v Hv] ->. destruct (Hrep v Hv) as (c & Hin & _).
    by apply elem_of_nil in Hin.
Qed.

Lemma violations_nonempty (es : gset edge) vs :
  (∀ x, (x, x) ∉ es) →
  detect_broader_violations (nx.add_edges_from nx.empty (elements es)) = Ok vs →
  (vs ≠ [] ↔ ∃ v, tc (edge_in es) v v).
Proof.
  intros Hirr E.
  destruct (add_edges_from_empty (elements es)) as [Hwf _].
  set (G := nx.add_edges_from nx.empty (elements es)) in *.
  destruct (detect_broader_violations_wf G Hwf) as (vs' & E' & Hpairs & _).
  rewrite E in E'. injection E' as <-.
  assert (Hrtc : ∀ a b, rtc (nx_edge G) a b ↔ rtc (edge_in es) a b).
  { intros a b. split; apply rtc_subrel; intros ??; by apply edge_in_elements_nx. }
  split.
  - destruct vs as [|v vs]; [done|]. intros _.
    assert (Hin : pair_of v ∈ mutual_pairs G (nx.nodes G)).
    { rewrite <- Hpairs. by left. }
    destruct (pair_of v) as [s t].
    apply mutual_pairs_spec in Hin as (Hne & Hst%Hrtc & Hts%Hrtc); [|done].
    apply rtc_tc in Hst as [->|Hst]; [done|].
    exists s. by eapply tc_rtc_r.
  - intros [v Hcyc] ->.
    assert (∃ w, v ≠ w ∧ rtc (nx_edge G) v w ∧ rtc (nx_edge G) w v)
      as (w & Hne & Hvw & Hwv).
    { inversion Hcyc as [?? Hedge|? w ? Hedge Hrest]; subst.
      - by destruct (Hirr v).
      - exists w. split; [|split].
        + intros ->. by destruct (Hirr w).
        + apply Hrtc. by apply rtc_once.
        + apply Hrtc. by apply tc_rtc. }
    assert (Hin : (v, w) ∈ mutual_pairs G (nx.nodes G))
      by by apply mutual_pairs_spec.
    rewrite <- Hpairs in Hin. by apply elem_of_nil in Hin.
Qed.

(** The names of the files [save_results] opens in ./res. *)
Lemma save_results_names cycles violations duplicates loops stats timestamp :
  file_name <$> save_results cycles violations duplicates loops stats "./res" timestamp
  = (match cycles with
     | [] => []
     | _ => ["./res/parent_child_cycles_" +:+ timestamp +:+ ".csv"]
     end)
    ++ (match violations with
        | [] => []
        | _ => ["./res/broader_than_violations_" +:+ timestamp +:+ ".csv"]
        end)
    ++ ["./res/duplicates_" +:+ timestamp +:+ ".csv";
        "./res/self_loops_" +:+ timestamp +:+ ".csv";
        "./res/analysis_statistics_" +:+ timestamp +:+ ".csv"].
Proof. by destruct cycles, violations. Qed.

(** X14: the files of a run. A run on an input that is absent or cannot be
    read raises the exception of [parse_mrrel] and writes no file. A run on
    an input that can be read either raises [RecursionError] and writes no
    file, which it can only do when the hierarchy analysis is requested and
    the hierarchy has at least as many nodes as nested calls are allowed, or
    returns; then it has written the duplicates, the self-loops and the
    statistics file, the cycles file exactly when the hierarchy analysis is
    requested and the hierarchy edges have a directed cycle, and the
    violations file exactly when the dominance analysis is requested and the
    dominance edges have a directed cycle; no file is opened twice. *)
Theorem main_files_written (lines : list string) (type : analysis_type)
    (clock : timings) (limit : nat) (timestamp : string) :
  main_files Missing type clock limit timestamp = Raise FileNotFoundError ∧
  (∀ e, main_files (Unreadable e) type clock limit timestamp = Raise e) ∧
  ∃ st,
    parse_mrrel (Readable lines) = Ok st ∧
    ((too_deep limit type st ∧
      main_files (Readable lines) type clock limit timestamp
      = Raise RecursionError) ∨
     ∃ files,
       main_files (Readable lines) type clock limit timestamp = Ok files ∧
       NoDup (file_name <$> files) ∧
       ("./res/parent_child_cycles_" +:+ timestamp +:+ ".csv"
          ∈ file_name <$> files
        ↔ type ≠ broader_than ∧ ∃ v, tc (edge_in (parent_child_edges st)) v v) ∧
       ("./res/broader_than_violations_" +:+ timestamp +:+ ".csv"
          ∈ file_name <$> files
        ↔ type ≠ parent_child ∧ ∃ v, tc (edge_in (broader_than_edges st)) v v) ∧
       "./res/duplicates_" +:+ timestamp +:+ ".csv" ∈ file_name <$> files ∧
       "./res/self_loops_" +:+ timestamp +:+ ".csv" ∈ file_name <$> files ∧
       "./res/analysis_statistics_" +:+ timestamp +:+ ".csv"
         ∈ file_name <$> files).
Proof.
  split; [done|]. split; [done|].
  set (st := foldl step parse_init lines).
  exists st. split; [apply parse_mrrel_lines|].
  destruct (main_outcome lines type clock limit)
    as [[Hdeep E]|(cycles & vs & Hc0 & Hc & Hv0 & Hv & E)].
  { left. split; [done|]. unfold main_files. by rewrite E. }
  right. fold st in Hc, Hv, E. eexists.
  unfold main_files. rewrite E. cbn [mbind result_bind].
  split; [reflexivity|].
  cbn [report_cycles report_violations report_duplicates report_self_loops report_stats].
  rewrite save_results_names.
  assert (Hcyc : cycles ≠ [] ↔
                 type ≠ broader_than ∧ ∃ v, tc (edge_in (parent_child_edges st)) v v).
  { assert (type = broader_than ∨ type ≠ broader_than) as [Ht|Ht]
      by (destruct type; (by left) || (by right)).
    - rewrite (Hc0 Ht). split; [done|]. by intros [? _].
    - rewrite (detect_cycles_nonempty _ _ (Hc Ht)).
      setoid_rewrite build_graph_elements_tc. naive_solver. }
  assert (Hvio : vs ≠ [] ↔
                 type ≠ parent_child ∧ ∃ v, tc (edge_in (broader_than_edges st)) v v).
  { assert (type = parent_child ∨ type ≠ parent_child) as [Ht|Ht]
      by (destruct type; (by left) || (by right)).
    - rewrite (Hv0 Ht). split; [done|]. by intros [? _].
    - assert (Hirr : ∀ x, (x, x) ∉ broader_than_edges st).
      { intros x.
        apply (steps_irreflexive lines parse_init parse_init_irreflexive). }
      rewrite (violations_nonempty _ _ Hirr (Hv Ht)). naive_solver. }
  rewrite <- Hcyc, <- Hvio. clear.
  destruct cycles as [|c cycles], vs as [|v vs]; cbn [app];
    repeat split;
    rewrite ?NoDup_cons, ?elem_of_cons, ?elem_of_nil;
    try (intros H; repeat destruct H as [H|H]; done);
    try done;
    try (intros _; by left);
    try (intros _; right; by left);
    try (right; by left); try (right; right; by left);
    try (right; right; right; by left); try (right; right; right; right; by left);
    try (by left).
  all: repeat split; rewrite ?elem_of_cons, ?elem_of_nil;
    try (intros H; repeat destruct H as [H|H]; done);
    try apply NoDup_nil_2.
Qed.


Lemma length_filter_fmap {A B} (f : A → B) (P : B → Prop)
    `{∀ x, Decision (P x)} (l : list A) :
  length (filter P (f <$> l)) = length (filter (λ x, P (f x)) l).
Proof.
  induction l as [|x l IH]; [done|].
  rewrite fmap_cons, !filter_cons. case_decide; simpl; by rewrite IH.
Qed.

(** X15: the duplicates file of a run. A run on an input that can be read
    either raises [RecursionError], which it can only do when the hierarchy
    analysis is requested and the hierarchy has at least as many nodes as
    nested calls are allowed, or returns; then the duplicates file has, after
    the header, one row for every canonical edge that the input asserts more
    than once, no row twice, and each row gives the edge and the number of
    its assertions; the number of these rows is the statistic "Total
    Duplicates". *)
Theorem main_duplicates_file (lines : list string) (type : analysis_type)
    (clock : timings) (limit : nat) (timestamp : string) :
  ∃ st,
    parse_mrrel (Readable lines) = Ok st ∧
    ((too_deep limit type st ∧
      main_files (Readable lines) type clock limit timestamp
      = Raise RecursionError) ∨
     ∃ r files rows,
       main (Readable lines) type clock limit = Ok r ∧
       main_files (Readable lines) type clock limit timestamp = Ok files ∧
       duplicates_file "./res" timestamp (report_duplicates r) ∈ files ∧
       file_rows (duplicates_file "./res" timestamp (report_duplicates r))
       = [Text "Source"; Text "Target"; Text "Count"] :: rows ∧
       NoDup rows ∧
       (∀ row, row ∈ rows ↔
               ∃ s t, 1 < assertions (s, t) lines ∧
                      row = [Text s; Text t; Number (assertions (s, t) lines)]) ∧
       dict_get (report_stats r) "Total Duplicates" = Some (Count (length rows))).
Proof.
  set (st := foldl step parse_init lines).
  exists st. split; [apply parse_mrrel_lines|].
  destruct (main_outcome lines type clock limit)
    as [[Hdeep E]|(cycles & vs & _ & _ & _ & _ & E)].
  { left. split; [done|]. unfold main_files. by rewrite E. }
  right. fold st in E.
  eexists. eexists. eexists. split; [exact E|].
  unfold main_files. rewrite E. cbn [mbind result_bind].
  split; [reflexivity|].
  cbn [report_cycles report_violations report_duplicates report_self_loops
       report_stats].
  split; [|split; [reflexivity|]].
  { unfold save_results. rewrite !elem_of_app. right. right. by left. }
  split; [|split].
  - apply NoDup_fmap_2; [|apply NoDup_filter, NoDup_map_to_list].
    intros [[a b] c] [[a' b'] c'] [= -> -> ->]. done.
  - intros row. rewrite list_elem_of_fmap. split.
    + intros ([[s t] c] & -> & [Hc Hin]%list_elem_of_filter). simpl in Hc.
      apply elem_of_map_to_list in Hin. unfold st in Hin.
      rewrite parse_lookup in Hin. case_decide; [done|].
      injection Hin as <-. by exists s, t.
    + intros (s & t & Hc & ->). exists ((s, t), assertions (s, t) lines).
      split; [done|]. apply list_elem_of_filter. split; [done|].
      apply elem_of_map_to_list. unfold st. rewrite parse_lookup.
      rewrite decide_False by lia. done.
  - rewrite length_fmap. unfold initial_stats. cbn [app dict_get].
    repeat (rewrite decide_False by discriminate).
    rewrite decide_True by reflexivity. do 2 f_equal.
    apply length_filter_fmap.
Qed.

(** X16: the self-loops file of a run. A run on an input that can be read
    either raises [RecursionError], which it can only do when the hierarchy
    analysis is requested and the hierarchy has at least as many nodes as
    nested calls are allowed, or returns; then the self-loops file has, after
    the header, one row [s, r] for every pair such that some line of the
    input reads as the record [(s, r, s)], whatever the code [r] is, and no
    row twice; the number of these rows is the statistic "Total
    Self-Loops". *)
Theorem main_self_loops_file (lines : list string) (type : analysis_type)
    (clock : timings) (limit : nat) (timestamp : string) :
  ∃ st,
    parse_mrrel (Readable lines) = Ok st ∧
    ((too_deep limit type st ∧
      main_files (Readable lines) type clock limit timestamp
      = Raise RecursionError) ∨
     ∃ r files rows,
       main (Readable lines) type clock limit = Ok r ∧
       main_files (Readable lines) type clock limit timestamp = Ok files ∧
       self_loops_file "./res" timestamp (report_self_loops r) ∈ files ∧
       file_rows (self_loops_file "./res" timestamp (report_self_loops r))
       = [Text "CUI"; Text "Relation"] :: rows ∧
       NoDup rows ∧
       (∀ row, row ∈ rows ↔
               ∃ l s rel, l ∈ lines ∧ record_of_line l = Some (s, rel, s) ∧
                          row = [Text s; Text rel]) ∧
       dict_get (report_stats r) "Total Self-Loops" = Some (Count (length rows))).
Proof.
  set (st := foldl step parse_init lines).
  exists st. split; [apply parse_mrrel_lines|].
  destruct (main_outcome lines type clock limit)
    as [[Hdeep E]|(cycles & vs & _ & _ & _ & _ & E)].
  { left. split; [done|]. unfold main_files. by rewrite E. }
  right. fold st in E.
  eexists. eexists. eexists. split; [exact E|].
  unfold main_files. rewrite E. cbn [mbind result_bind].
  split; [reflexivity|].
  cbn [report_cycles report_violations report_duplicates report_self_loops
       report_stats].
  split; [|split; [reflexivity|]].
  { unfold save_results. rewrite !elem_of_app. right. right. right. by left. }
  assert (Hloops : ∀ s rel, (s, rel) ∈ self_loops st ↔
                            ∃ l, l ∈ lines ∧ record_of_line l = Some (s, rel, s))
    by (intros s rel; apply steps_self_loops_closed).
  split; [|split].
  - apply NoDup_fmap_2; [|apply NoDup_elements].
    intros [a b] [a' b'] [= -> ->]. done.
  - intros row. rewrite list_elem_of_fmap. split.
    + intros ([s rel] & -> & Hin%elem_of_elements).
      apply Hloops in Hin as (l & Hl & Hrec). by exists l, s, rel.
    + intros (l & s & rel & Hl & Hrec & ->). exists (s, rel). split; [done|].
      apply elem_of_elements, Hloops. by exists l.
  - rewrite length_fmap. unfold initial_stats. cbn [app dict_get].
    repeat (rewrite decide_False by discriminate).
    rewrite decide_True by reflexivity. do 2 f_equal.
Qed.


(** ** Lines assembled from fields *)

Lemma split_field sep f :
  mentions sep f = false → Str.split sep f = [f].
Proof.
  induction f as [|c f IH]; simpl; [done|].
  case_decide; [done|]. intros Hf. by rewrite (IH Hf).
Qed.

Lemma split_field_sep sep f rest :
  mentions sep f = false →
  Str.split sep (f +:+ String sep rest) = f :: Str.split sep rest.
Proof.
  induction f as [|c f IH]; simpl.
  - intros _. by rewrite decide_True.
  - case_decide; [done|]. intros Hf. by rewrite (IH Hf).
Qed.

(** Splitting undoes joining, for fields that do not hold the separator. *)
Lemma split_join sep f fields :
  Forall (λ f, mentions sep f = false) (f :: fields) →
  Str.split sep (join (String sep EmptyString) (f :: fields)) = f :: fields.
Proof.
  revert f. induction fields as [|g fields IH]; intros f Hall.
  - simpl. apply split_field. by inversion Hall.
  - inversion Hall as [|?? Hf Hrest]; subst.
    change (join (String sep EmptyString) (f :: g :: fields))
      with (f +:+ String sep (join (String sep EmptyString) (g :: fields))).
    rewrite split_field_sep by done. by rewrite IH.
Qed.

(** X17: a line assembled from fields reads back as its fields. When no
    field holds a bar, the line ["|".join(fields)] is skipped if there are
    fewer than five fields, and otherwise is classified as the record of the
    fields 0, 3 and 4 with the whitespace at their ends removed. *)
Theorem parse_line_join (fields : list string) (st : parse_state) :
  Forall (λ f, mentions "|" f = false) fields →
  parse_line (join "|" fields) st
  = match fields with
    | s :: _ :: _ :: r :: t :: _ =>
        Ok (classify st (Str.strip s) (Str.strip r) (Str.strip t))
    | _ => Ok st
    end.
Proof.
  intros Hall. rewrite parse_line_step. f_equal. unfold step.
  rewrite record_of_line_fields. cbv zeta.
  destruct fields as [|f0 fields]; [done|].
  rewrite (split_join "|" f0 fields Hall).
  destruct fields as [|f1 [|f2 [|f3 [|f4 fields]]]]; done.
Qed.

Lemma parse_line_join_witness :
  parse_line (join "|" ["C1 "; "A1"; "AUI"; " CHD"; "C2"; "x"; ""]) parse_init
  = Ok (classify parse_init (Str.strip "C1 ") (Str.strip " CHD") (Str.strip "C2")).
Proof.
  apply (parse_line_join ["C1 "; "A1"; "AUI"; " CHD"; "C2"; "x"; ""] parse_init).
  repeat (constructor; [reflexivity|]). constructor.
Defined.


(** ** The findings of a run *)

(** X18: the findings of a run are sound. A run on an input that can be
    read either raises [RecursionError], which it can only do when the
    hierarchy analysis is requested and the hierarchy has at least as many
    nodes as nested calls are allowed, or reaches [save_results]; then every
    cycle it hands over repeats no node and is a directed cycle of hierarchy
    edges of the input: each node has a hierarchy edge to the next and the
    last to the first; and every violation it hands over names two distinct
    nodes each of which reaches the other along dominance edges of the
    input. *)
Theorem main_findings_sound (lines : list string) (type : analysis_type)
    (clock : timings) (limit : nat) :
  ∃ st,
    parse_mrrel (Readable lines) = Ok st ∧
    ((too_deep limit type st ∧
      main (Readable lines) type clock limit = Raise RecursionError) ∨
     ∃ r,
       main (Readable lines) type clock limit = Ok r ∧
       (∀ c, c ∈ report_cycles r →
          c ≠ [] ∧ NoDup c ∧
          (∀ i a b, c !! i = Some a → c !! S i = Some b →
                    (a, b) ∈ parent_child_edges st) ∧
          (∀ a b, last c = Some a → head c = Some b →
                  (a, b) ∈ parent_child_edges st)) ∧
       (∀ v, v ∈ report_violations r →
          source v ≠ target v ∧
          rtc (edge_in (broader_than_edges st)) (source v) (target v) ∧
          rtc (edge_in (broader_than_edges st)) (target v) (source v))).
Proof.
  set (st := foldl step parse_init lines).
  exists st. split; [apply parse_mrrel_lines|].
  destruct (main_outcome lines type clock limit)
    as [?|(cycles & vs & Hc0 & Hc & Hv0 & Hv & E)]; [by left|right].
  fold st in Hc, Hv, E.
  eexists. split; [exact E|].
  cbn [report_cycles report_violations]. split.
  - assert (type = broader_than ∨ type ≠ broader_than) as [Ht|Ht]
      by (destruct type; (by left) || (by right)).
    { rewrite (Hc0 Ht). by intros c ?%elem_of_nil. }
    set (g := build_graph (elements (parent_child_edges st))) in *.
    destruct (detect_cycles_run_cycles_inv g) as (st' & E' & Hinv & [Hs _ _]).
    rewrite (Hc Ht) in E'. injection E' as ->.
    intros c Hin. destruct (inv_cycles g st' Hinv c Hin) as (Hne & Hchain & Hclose).
    split; [done|]. split; [by apply Hs|]. split.
    + intros i a b Ha Hb. apply elem_of_elements, build_graph_edges.
      by apply (Hchain i).
    + intros a b Ha Hb. apply elem_of_elements, build_graph_edges.
      by apply Hclose.
  - assert (type = parent_child ∨ type ≠ parent_child) as [Ht|Ht]
      by (destruct type; (by left) || (by right)).
    { rewrite (Hv0 Ht). by intros v ?%elem_of_nil. }
    destruct (add_edges_from_empty (elements (broader_than_edges st))) as [Hwf _].
    set (G := nx.add_edges_from nx.empty (elements (broader_than_edges st))) in *.
    destruct (detect_broader_violations_wf G Hwf) as (vs' & E' & Hpairs & _).
    rewrite (Hv Ht) in E'. injection E' as <-.
    intros v Hin.
    assert (Hp : (source v, target v) ∈ mutual_pairs G (nx.nodes G)).
    { rewrite <- Hpairs. apply list_elem_of_fmap. by exists v. }
    apply mutual_pairs_spec in Hp as (Hne & Hst & Hts); [|done].
    split; [done|].
    split; (eapply rtc_subrel; [|eassumption]);
      intros a b; apply edge_in_elements_nx.
Qed.
